(** * NV chess engine V2: search, quiescence, move ordering and static evaluation

    A shallow embedding of [NV_chess_engine_V2.py] and [static_eval.py].

    The engine drives a mutable [chess.Board] object of the python-chess
    library.  The board is modelled as the current position together with
    the stack of snapshots that [push] saves and [pop] restores; the rules
    of the game (move generation, making a move, check detection) are an
    interface, [ChessLib], of which [PyChess] is the instance used to run
    the engine on concrete positions.

    Scores are Python integers; the search windows start at
    [float('-inf')] and [float('inf')], so window bounds are integers
    extended with the two infinities. *)

From Stdlib Require Import ZArith Lia List Bool Ascii String Sorted Permutation.
From stdpp Require Import prelude gmap strings.

#[local] Open Scope Z_scope.

(* ===================================================================== *)
(** ** Pieces, moves, positions *)
(* ===================================================================== *)

(** [chess.WHITE = True], [chess.BLACK = False]. *)
Inductive Color := WHITE | BLACK.

(** [chess.PAWN = 1] ... [chess.KING = 6]. *)
Inductive PieceType := PAWN | KNIGHT | BISHOP | ROOK | QUEEN | KING.

Record Piece := mkPiece { piece_type : PieceType; color : Color }.

(** Squares are the integers 0..63, [A1 = 0], [H1 = 7], [A8 = 56], [H8 = 63]. *)
Definition Square := nat.

Record Move := mkMove {
  from_square : Square;
  to_square : Square;
  promotion : option PieceType
}.

#[global] Instance Color_eq_dec : EqDecision Color.
Proof. solve_decision. Defined.
#[global] Instance PieceType_eq_dec : EqDecision PieceType.
Proof. solve_decision. Defined.
#[global] Instance Piece_eq_dec : EqDecision Piece.
Proof. solve_decision. Defined.
#[global] Instance Move_eq_dec : EqDecision Move.
Proof. solve_decision. Defined.

Definition opposite (c : Color) : Color :=
  match c with WHITE => BLACK | BLACK => WHITE end.

Definition color_eqb (a b : Color) : bool :=
  match a, b with WHITE, WHITE | BLACK, BLACK => true | _, _ => false end.

Definition piece_type_eqb (a b : PieceType) : bool :=
  match a, b with
  | PAWN, PAWN | KNIGHT, KNIGHT | BISHOP, BISHOP
  | ROOK, ROOK | QUEEN, QUEEN | KING, KING => true
  | _, _ => false
  end.

Definition piece_eqb (a b : Piece) : bool :=
  piece_type_eqb (piece_type a) (piece_type b) && color_eqb (color a) (color b).

(** Castling rights, one flag per rook corner (python-chess keeps a bitboard
    of the rook squares). *)
Record Castling := mkCastling {
  cr_a1 : bool; cr_h1 : bool; cr_a8 : bool; cr_h8 : bool
}.

#[global] Instance Castling_eq_dec : EqDecision Castling.
Proof. solve_decision. Defined.

(** Everything a python-chess board snapshot holds. *)
Record Position := mkPosition {
  pieces : list (option Piece);      (* 64 squares, index = square *)
  turn : Color;
  castling_rights : Castling;
  ep_square : option Square;
  halfmove_clock : nat;
  fullmove_number : nat
}.

(** The board object: current position, plus what [push] stacked
    ([move_stack] and the saved states). *)
Record Board := mkBoard {
  pos : Position;
  stack : list (Move * Position)
}.

Definition set_turn (p : Position) (c : Color) : Position :=
  mkPosition (pieces p) c (castling_rights p) (ep_square p)
             (halfmove_clock p) (fullmove_number p).

(** [board.turn = c] *)
Definition assign_turn (b : Board) (c : Color) : Board :=
  mkBoard (set_turn (pos b) c) (stack b).

(** [board.piece_at(square)] *)
Definition piece_at (p : Position) (sq : Square) : option Piece :=
  nth sq (pieces p) None.

Definition SQUARES : list Square := seq 0 64.

Definition has_piece (p : Position) (pt : PieceType) (c : Color) (sq : Square) : bool :=
  match piece_at p sq with
  | Some pc => piece_eqb pc (mkPiece pt c)
  | None => false
  end.

(** [len(board.pieces(piece_type, color))] *)
Definition count_pieces (p : Position) (pt : PieceType) (c : Color) : Z :=
  Z.of_nat (length (List.filter (has_piece p pt c) SQUARES)).

(** [board.king(color)]: the most significant bit of the king mask. *)
Definition king (p : Position) (c : Color) : option Square :=
  head (List.filter (has_piece p KING c) (rev SQUARES)).

(** Number of occupied squares. *)
Definition piece_count (p : Position) : nat :=
  length (List.filter (fun o : option Piece => match o with Some _ => true | None => false end)
                 (pieces p)).

Definition square_file (sq : Square) : nat := (sq mod 8)%nat.
Definition square_rank (sq : Square) : nat := (sq / 8)%nat.

(* ===================================================================== *)
(** ** The rules library the engine consumes *)
(* ===================================================================== *)

(** The operations of python-chess that the engine and the evaluation call
    and that depend on the rules of chess. *)
Class ChessLib := {
  (** [list(board.legal_moves)], in generation order *)
  legal_moves : Position -> list Move;
  (** the position [board.push(move)] produces *)
  apply_move : Position -> Move -> Position;
  (** [board.is_check()]: the side to move is in check *)
  is_check : Position -> bool;
  (** [board.is_capture(move)] *)
  is_capture : Position -> Move -> bool;
  (** [board.is_insufficient_material()] *)
  is_insufficient_material : Position -> bool;
  (** [board.is_game_over()] (also looks at the move history) *)
  is_game_over : Board -> bool
}.

Section Library.
Context `{lib : ChessLib}.

(** python-chess: [is_check() and not any(generate_legal_moves())]. *)
Definition is_checkmate (p : Position) : bool :=
  is_check p && match legal_moves p with [] => true | _ => false end.

(** python-chess: [not is_check() and not any(generate_legal_moves())]. *)
Definition is_stalemate (p : Position) : bool :=
  negb (is_check p) && match legal_moves p with [] => true | _ => false end.

(** [board.push(move)]: the state is saved, then the move is made. *)
Definition push (b : Board) (m : Move) : Board :=
  mkBoard (apply_move (pos b) m) ((m, pos b) :: stack b).

(** [board.pop()]: the saved state is restored, whatever happened to the
    current one since.  The engine never pops an empty stack. *)
Definition pop (b : Board) : Board :=
  match stack b with
  | (_, saved) :: rest => mkBoard saved rest
  | [] => b
  end.

End Library.

(* ===================================================================== *)
(** ** static_eval.py *)
(* ===================================================================== *)

Definition PIECE_VALUES (pt : PieceType) : Z :=
  match pt with
  | PAWN => 100 | KNIGHT => 320 | BISHOP => 330
  | ROOK => 500 | QUEEN => 900 | KING => 0
  end.

Definition PAWN_TABLE : list Z := [
    0;  0;  0;  0;  0;  0;  0;  0;
    50; 50; 50; 50; 50; 50; 50; 50;
    10; 10; 20; 30; 30; 20; 10; 10;
    5;  5; 10; 25; 25; 10;  5;  5;
    0;  0;  0; 20; 20;  0;  0;  0;
    5; -5;-10;  0;  0;-10; -5;  5;
    5; 10; 10;-20;-20; 10; 10;  5;
    0;  0;  0;  0;  0;  0;  0;  0 ].

Definition KNIGHT_TABLE : list Z := [
    -50;-40;-30;-30;-30;-30;-40;-50;
    -40;-20;  0;  0;  0;  0;-20;-40;
    -30;  0; 10; 15; 15; 10;  0;-30;
    -30;  5; 15; 20; 20; 15;  5;-30;
    -30;  0; 15; 20; 20; 15;  0;-30;
    -30;  5; 10; 15; 15; 10;  5;-30;
    -40;-20;  0;  5;  5;  0;-20;-40;
    -50;-40;-30;-30;-30;-30;-40;-50 ].

Definition BISHOP_TABLE : list Z := [
    -20;-10;-10;-10;-10;-10;-10;-20;
    -10;  0;  0;  0;  0;  0;  0;-10;
    -10;  0;  5; 10; 10;  5;  0;-10;
    -10;  5;  5; 10; 10;  5;  5;-10;
    -10;  0; 10; 10; 10; 10;  0;-10;
    -10; 10; 10; 10; 10; 10; 10;-10;
    -10;  5;  0;  0;  0;  0;  5;-10;
    -20;-10;-10;-10;-10;-10;-10;-20 ].

Definition ROOK_TABLE : list Z := [
     0;  0;  0;  0;  0;  0;  0;  0;
     5; 10; 10; 10; 10; 10; 10;  5;
    -5;  0;  0;  0;  0;  0;  0; -5;
    -5;  0;  0;  0;  0;  0;  0; -5;
    -5;  0;  0;  0;  0;  0;  0; -5;
    -5;  0;  0;  0;  0;  0;  0; -5;
    -5;  0;  0;  0;  0;  0;  0; -5;
     0;  0;  0;  5;  5;  0;  0;  0 ].

Definition QUEEN_TABLE : list Z := [
    -20;-10;-10; -5; -5;-10;-10;-20;
    -10;  0;  0;  0;  0;  0;  0;-10;
    -10;  0;  5;  5;  5;  5;  0;-10;
     -5;  0;  5;  5;  5;  5;  0; -5;
      0;  0;  5;  5;  5;  5;  0; -5;
    -10;  5;  5;  5;  5;  5;  0;-10;
    -10;  0;  5;  0;  0;  0;  0;-10;
    -20;-10;-10; -5; -5;-10;-10;-20 ].

Definition KING_TABLE_MIDDLE : list Z := [
    -30;-40;-40;-50;-50;-40;-40;-30;
    -30;-40;-40;-50;-50;-40;-40;-30;
    -30;-40;-40;-50;-50;-40;-40;-30;
    -30;-40;-40;-50;-50;-40;-40;-30;
    -20;-30;-30;-40;-40;-30;-30;-20;
    -10;-20;-20;-20;-20;-20;-20;-10;
     20; 20;  0;  0;  0;  0; 20; 20;
     20; 30; 10;  0;  0; 10; 30; 20 ].

Definition KING_TABLE_END : list Z := [
    -50;-40;-30;-20;-20;-30;-40;-50;
    -30;-20;-10;  0;  0;-10;-20;-30;
    -30;-10; 20; 30; 30; 20;-10;-30;
    -30;-10; 30; 40; 40; 30;-10;-30;
    -30;-10; 30; 40; 40; 30;-10;-30;
    -30;-10; 20; 30; 30; 20;-10;-30;
    -30;-30;  0;  0;  0;  0;-30;-30;
    -50;-30;-30;-30;-30;-30;-30;-50 ].

(** [[table[63 - i] for i in range(64)]] *)
Definition _flip_table (table : list Z) : list Z :=
  map (fun i => nth (63 - i) table 0) (seq 0 64).

Definition _is_endgame (p : Position) : bool :=
  let queens := count_pieces p QUEEN WHITE + count_pieces p QUEEN BLACK in
  let rooks := count_pieces p ROOK WHITE + count_pieces p ROOK BLACK in
  (queens =? 0) && (rooks <=? 2).

Definition _get_piece_square_value (piece : Piece) (square : Square) (is_endgame : bool) : Z :=
  let table :=
    match piece_type piece with
    | PAWN => PAWN_TABLE
    | KNIGHT => KNIGHT_TABLE
    | BISHOP => BISHOP_TABLE
    | ROOK => ROOK_TABLE
    | QUEEN => QUEEN_TABLE
    | KING => if is_endgame then KING_TABLE_END else KING_TABLE_MIDDLE
    end in
  let table := match color piece with BLACK => _flip_table table | WHITE => table end in
  nth square table 0.

Definition _evaluate_material (p : Position) : Z :=
  fold_left
    (fun score pt =>
       score + (count_pieces p pt WHITE - count_pieces p pt BLACK) * PIECE_VALUES pt)
    [PAWN; KNIGHT; BISHOP; ROOK; QUEEN] 0.

Definition _evaluate_position (p : Position) (is_endgame : bool) : Z :=
  fold_left
    (fun score square =>
       match piece_at p square with
       | Some piece => score + _get_piece_square_value piece square is_endgame
       | None => score
       end)
    SQUARES 0.

(** Pawns of one colour on a file: the length of the list comprehension. *)
Definition pawns_on_file (p : Position) (c : Color) (file : nat) : Z :=
  Z.of_nat (length (List.filter (fun sq => (square_file sq =? file)%nat && has_piece p PAWN c sq)
                           SQUARES)).

(** The inner loops of the isolated-pawn test: no pawn of colour [c] stands
    on a file adjacent to [file]. *)
Definition is_isolated (p : Position) (c : Color) (file : nat) : bool :=
  negb (existsb
          (fun adj_file : Z =>
             (0 <=? adj_file) && (adj_file <? 8) &&
             existsb (fun sq => (Z.of_nat (square_file sq) =? adj_file) && has_piece p PAWN c sq)
                     SQUARES)
          [Z.of_nat file - 1; Z.of_nat file + 1]).

Definition _evaluate_pawn_structure (p : Position) : Z :=
  let doubled :=
    fold_left
      (fun score file =>
         let white_pawns := pawns_on_file p WHITE file in
         let black_pawns := pawns_on_file p BLACK file in
         let score := if 1 <? white_pawns then score - 20 * (white_pawns - 1) else score in
         if 1 <? black_pawns then score + 20 * (black_pawns - 1) else score)
      (seq 0 8) 0 in
  fold_left
    (fun score square =>
       match piece_at p square with
       | Some piece =>
           match piece_type piece with
           | PAWN =>
               if is_isolated p (color piece) (square_file square)
               then match color piece with WHITE => score - 15 | BLACK => score + 15 end
               else score
           | _ => score
           end
       | None => score
       end)
    SQUARES doubled.

(** Python truthiness of [board.king(color)]: [None] and square 0 are false. *)
Definition square_truthy (o : option Square) : bool :=
  match o with
  | Some sq => negb (sq =? 0)%nat
  | None => false
  end.

Definition G1 : Square := 6%nat.
Definition C1 : Square := 2%nat.
Definition G8 : Square := 62%nat.
Definition C8 : Square := 58%nat.

Definition square_in (o : option Square) (l : list Square) : bool :=
  match o with
  | Some sq => existsb (Nat.eqb sq) l
  | None => false
  end.

Section StaticEval.
Context `{lib : ChessLib}.

(** Counts the moves of the side to move, sets the turn to Black, counts
    again, then sets the turn to White. *)
Definition _evaluate_mobility (b : Board) : Z * Board :=
  let white_moves := Z.of_nat (length (legal_moves (pos b))) in
  let b := assign_turn b BLACK in
  let black_moves := Z.of_nat (length (legal_moves (pos b))) in
  let b := assign_turn b WHITE in
  ((white_moves - black_moves) * 2, b).

Definition _evaluate_king_safety (p : Position) : Z :=
  let score := 0 in
  let white_king_sq := king p WHITE in
  let black_king_sq := king p BLACK in
  let score :=
    if square_truthy white_king_sq then
      let score := if square_in white_king_sq [G1; C1] then score + 20 else score in
      if is_check p then score - 10 else score
    else score in
  let score :=
    if square_truthy black_king_sq then
      let score := if square_in black_king_sq [G8; C8] then score - 20 else score in
      if is_check p then score + 10 else score
    else score in
  score.

End StaticEval.

Module static_eval.
Section Evaluate.
Context `{lib : ChessLib}.

(** [static_eval.evaluate_board(board)]: the score from White's point of
    view, and the board as the call leaves it. *)
Definition evaluate_board (b : Board) : Z * Board :=
  if is_checkmate (pos b) then
    (match turn (pos b) with WHITE => -99999 | BLACK => 99999 end, b)
  else if is_stalemate (pos b) || is_insufficient_material (pos b) then (0, b)
  else
    let is_endgame := _is_endgame (pos b) in
    let material_score := _evaluate_material (pos b) in
    let positional_score := _evaluate_position (pos b) is_endgame in
    let '(mobility_score, b) := _evaluate_mobility b in
    let pawn_structure_score := _evaluate_pawn_structure (pos b) in
    let king_safety_score := _evaluate_king_safety (pos b) in
    (material_score + positional_score + mobility_score
     + pawn_structure_score + king_safety_score, b).

End Evaluate.
End static_eval.

(* ===================================================================== *)
(** ** python-chess: the rules of chess *)
(* ===================================================================== *)

(** The instance of [ChessLib] used to run the engine: move generation in
    python-chess's order (pieces other than pawns by descending origin
    square and descending target square, castling, pawn captures, single
    and double pawn advances, en passant; when in check the king's moves
    come first), [push], and the predicates the engine calls. *)
Module PyChessRules.

Definition sq_at (f r : Z) : option Square :=
  if (0 <=? f) && (f <? 8) && (0 <=? r) && (r <? 8)
  then Some (Z.to_nat (r * 8 + f)) else None.

Definition file_z (sq : Square) : Z := Z.of_nat (square_file sq).
Definition rank_z (sq : Square) : Z := Z.of_nat (square_rank sq).

Definition occupied (ps : list (option Piece)) (sq : Square) : bool :=
  match nth sq ps None with Some _ => true | None => false end.

Definition color_is (ps : list (option Piece)) (c : Color) (sq : Square) : bool :=
  match nth sq ps None with Some pc => color_eqb (color pc) c | None => false end.

Definition holds (ps : list (option Piece)) (pt : PieceType) (c : Color) (sq : Square) : bool :=
  match nth sq ps None with Some pc => piece_eqb pc (mkPiece pt c) | None => false end.

(** Squares along one direction, up to and including the first occupied one. *)
Fixpoint ray (ps : list (option Piece)) (f r df dr : Z) (n : nat) : list Square :=
  match n with
  | O => []
  | S n' =>
      match sq_at (f + df) (r + dr) with
      | None => []
      | Some s => if occupied ps s then [s] else s :: ray ps (f + df) (r + dr) df dr n'
      end
  end.

Definition offsets (sq : Square) (ds : list (Z * Z)) : list Square :=
  omap (fun d : Z * Z => sq_at (file_z sq + fst d) (rank_z sq + snd d)) ds.

Definition KNIGHT_DELTAS : list (Z * Z) :=
  [(1, 2); (2, 1); (2, -1); (1, -2); (-1, -2); (-2, -1); (-2, 1); (-1, 2)].
Definition KING_DELTAS : list (Z * Z) :=
  [(1, 0); (1, 1); (0, 1); (-1, 1); (-1, 0); (-1, -1); (0, -1); (1, -1)].
Definition ROOK_DIRS : list (Z * Z) := [(1, 0); (0, 1); (-1, 0); (0, -1)].
Definition BISHOP_DIRS : list (Z * Z) := [(1, 1); (-1, 1); (-1, -1); (1, -1)].

(** [BB_PAWN_ATTACKS[color][square]] *)
Definition pawn_attacks (c : Color) (sq : Square) : list Square :=
  let dr := match c with WHITE => 1 | BLACK => -1 end in
  offsets sq [(-1, dr); (1, dr)].

Definition slides (ps : list (option Piece)) (sq : Square) (dirs : list (Z * Z)) : list Square :=
  flat_map (fun d : Z * Z => ray ps (file_z sq) (rank_z sq) (fst d) (snd d) 7) dirs.

(** [attacks_mask(square)] *)
Definition attacks_from (ps : list (option Piece)) (sq : Square) : list Square :=
  match nth sq ps None with
  | None => []
  | Some pc =>
      match piece_type pc with
      | PAWN => pawn_attacks (color pc) sq
      | KNIGHT => offsets sq KNIGHT_DELTAS
      | KING => offsets sq KING_DELTAS
      | ROOK => slides ps sq ROOK_DIRS
      | BISHOP => slides ps sq BISHOP_DIRS
      | QUEEN => slides ps sq (ROOK_DIRS ++ BISHOP_DIRS)
      end
  end.

(** [is_attacked_by(color, square)]: some piece of [c] attacks [sq]. *)
Definition is_attacked_by (ps : list (option Piece)) (c : Color) (sq : Square) : bool :=
  existsb (holds ps KNIGHT c) (offsets sq KNIGHT_DELTAS)
  || existsb (holds ps KING c) (offsets sq KING_DELTAS)
  || existsb (holds ps PAWN c) (pawn_attacks (opposite c) sq)
  || existsb (fun s => holds ps ROOK c s || holds ps QUEEN c s) (slides ps sq ROOK_DIRS)
  || existsb (fun s => holds ps BISHOP c s || holds ps QUEEN c s) (slides ps sq BISHOP_DIRS).

(** Descending order of squares ([scan_reversed]). *)
Fixpoint insert_desc (x : Square) (l : list Square) : list Square :=
  match l with
  | [] => [x]
  | y :: l' => if (y <=? x)%nat then x :: l else y :: insert_desc x l'
  end.
Definition sort_desc (l : list Square) : list Square := fold_right insert_desc [] l.

Definition REV_SQUARES : list Square := rev SQUARES.

Definition king_square (ps : list (option Piece)) (c : Color) : option Square :=
  head (List.filter (holds ps KING c) REV_SQUARES).

Definition A1 : Square := 0%nat.
Definition D1 : Square := 3%nat.
Definition E1 : Square := 4%nat.
Definition F1 : Square := 5%nat.
Definition H1 : Square := 7%nat.
Definition A8 : Square := 56%nat.
Definition D8 : Square := 59%nat.
Definition E8 : Square := 60%nat.
Definition F8 : Square := 61%nat.
Definition H8 : Square := 63%nat.

(** [clean_castling_rights()] in standard chess: a right needs its rook on
    the corner and the king on its original square. *)
Definition clean_castling_rights (p : Position) : Castling :=
  let ps := pieces p in
  let cr := castling_rights p in
  let wk := holds ps KING WHITE E1 in
  let bk := holds ps KING BLACK E8 in
  mkCastling (cr_a1 cr && holds ps ROOK WHITE A1 && wk)
             (cr_h1 cr && holds ps ROOK WHITE H1 && wk)
             (cr_a8 cr && holds ps ROOK BLACK A8 && bk)
             (cr_h8 cr && holds ps ROOK BLACK H8 && bk).

(** [_to_chess960]: a king's two-square move is turned into "king takes
    own rook". *)
Definition to_chess960_target (ps : list (option Piece)) (m : Move) : Square :=
  let is_king sq := holds ps KING WHITE sq || holds ps KING BLACK sq in
  let is_rook sq := holds ps ROOK WHITE sq || holds ps ROOK BLACK sq in
  let frm := from_square m in
  let to := to_square m in
  if (frm =? E1)%nat && is_king E1 then
    if (to =? G1)%nat && negb (is_rook G1) then H1
    else if (to =? C1)%nat && negb (is_rook C1) then A1
    else to
  else if (frm =? E8)%nat && is_king E8 then
    if (to =? G8)%nat && negb (is_rook G8) then H8
    else if (to =? C8)%nat && negb (is_rook C8) then A8
    else to
  else to.

Definition is_en_passant (p : Position) (m : Move) : bool :=
  let ps := pieces p in
  let frm := from_square m in
  let to := to_square m in
  match ep_square p with
  | Some ep =>
      (ep =? to)%nat
      && (holds ps PAWN WHITE frm || holds ps PAWN BLACK frm)
      && (let d := Z.abs (Z.of_nat to - Z.of_nat frm) in (d =? 7) || (d =? 9))
      && negb (occupied ps to)
  | None => false
  end.

(** The piece placement after [push(move)]. *)
Definition move_pieces (p : Position) (m : Move) : list (option Piece) :=
  let ps := pieces p in
  let us := turn p in
  let frm := from_square m in
  let to := to_chess960_target ps m in
  match nth frm ps None with
  | None => ps
  | Some pc =>
      let ps1 := <[frm := None]> ps in
      let castling := piece_type_eqb (piece_type pc) KING && color_is ps1 us to in
      if castling then
        let a_side := (square_file to <? square_file frm)%nat in
        let ps2 := <[to := None]> ps1 in
        let back := match us with WHITE => 0%nat | BLACK => 56%nat end in
        if a_side
        then <[(back + 3)%nat := Some (mkPiece ROOK us)]>
               (<[(back + 2)%nat := Some (mkPiece KING us)]> ps2)
        else <[(back + 5)%nat := Some (mkPiece ROOK us)]>
               (<[(back + 6)%nat := Some (mkPiece KING us)]> ps2)
      else
        let ps2 :=
          if piece_type_eqb (piece_type pc) PAWN && is_en_passant p m then
            match ep_square p with
            | Some ep =>
                <[match us with WHITE => (ep - 8)%nat | BLACK => (ep + 8)%nat end := None]> ps1
            | None => ps1
            end
          else ps1 in
        let pt := match promotion m with Some q => q | None => piece_type pc end in
        <[to := Some (mkPiece pt us)]> ps2
  end.

(** [is_zeroing(move)]: a pawn move or a capture. *)
Definition is_zeroing (p : Position) (m : Move) : bool :=
  let ps := pieces p in
  let pawn sq := holds ps PAWN WHITE sq || holds ps PAWN BLACK sq in
  let touched sq := (sq =? from_square m)%nat || (sq =? to_square m)%nat in
  existsb (fun sq => touched sq && (pawn sq || color_is ps (opposite (turn p)) sq)) SQUARES.

Definition push_position (p : Position) (m : Move) : Position :=
  let ps := pieces p in
  let us := turn p in
  let frm := from_square m in
  let to := to_chess960_target ps m in
  let cr := clean_castling_rights p in
  let untouched sq := negb ((sq =? frm)%nat || (sq =? to)%nat) in
  let moved := nth frm ps None in
  let king_moved :=
    match moved with Some pc => piece_type_eqb (piece_type pc) KING | None => false end in
  let king_taken :=
    match nth to ps None with Some pc => piece_type_eqb (piece_type pc) KING | None => false end in
  let keep_rank1 :=
    negb (king_moved && color_eqb us WHITE)
    && negb (negb king_moved && king_taken && color_eqb us BLACK && (square_rank to =? 0)%nat) in
  let keep_rank8 :=
    negb (king_moved && color_eqb us BLACK)
    && negb (negb king_moved && king_taken && color_eqb us WHITE && (square_rank to =? 7)%nat) in
  let cr' :=
    mkCastling (cr_a1 cr && untouched A1 && keep_rank1)
               (cr_h1 cr && untouched H1 && keep_rank1)
               (cr_a8 cr && untouched A8 && keep_rank8)
               (cr_h8 cr && untouched H8 && keep_rank8) in
  let ep' :=
    match moved with
    | Some pc =>
        if piece_type_eqb (piece_type pc) PAWN then
          let diff := Z.of_nat (to_square m) - Z.of_nat frm in
          if (diff =? 16) && (square_rank frm =? 1)%nat then Some (frm + 8)%nat
          else if (diff =? -16) && (square_rank frm =? 6)%nat then Some (frm - 8)%nat
          else None
        else None
    | None => None
    end in
  mkPosition (move_pieces p m) (opposite us) cr' ep'
             (if is_zeroing p m then 0%nat else S (halfmove_clock p))
             (match us with BLACK => S (fullmove_number p) | WHITE => fullmove_number p end).

Definition promotions_of (frm to : Square) : list Move :=
  if (square_rank to =? 0)%nat || (square_rank to =? 7)%nat
  then map (fun q => mkMove frm to (Some q)) [QUEEN; ROOK; BISHOP; KNIGHT]
  else [mkMove frm to None].

Definition piece_moves (p : Position) : list Move :=
  let ps := pieces p in
  let us := turn p in
  flat_map
    (fun frm =>
       if color_is ps us frm && negb (holds ps PAWN us frm) then
         map (fun to => mkMove frm to None)
             (List.filter (fun to => negb (color_is ps us to)) (sort_desc (attacks_from ps frm)))
       else [])
    REV_SQUARES.

(** [generate_castling_moves] in standard chess; king side first. *)
Definition castling_moves (p : Position) : list Move :=
  let ps := pieces p in
  let us := turn p in
  let them := opposite us in
  let back := match us with WHITE => 0%nat | BLACK => 56%nat end in
  let cr := clean_castling_rights p in
  let e := (back + 4)%nat in
  let no_king := <[e := None]> ps in
  let side (right : bool) (rook rook_to king_to : Square) (empty : list Square)
           (king_path : list Square) : list Move :=
    if right
       && forallb (fun s => negb (occupied ps s)) empty
       && forallb (fun s => negb (is_attacked_by no_king them s)) (e :: king_path)
       && negb (is_attacked_by
                  (<[rook_to := Some (mkPiece ROOK us)]> (<[rook := None]> no_king))
                  them king_to)
    then [mkMove e king_to None] else [] in
  side (match us with WHITE => cr_h1 cr | BLACK => cr_h8 cr end)
       (back + 7)%nat (back + 5)%nat (back + 6)%nat
       [(back + 5)%nat; (back + 6)%nat] [(back + 5)%nat]
  ++ side (match us with WHITE => cr_a1 cr | BLACK => cr_a8 cr end)
       back (back + 3)%nat (back + 2)%nat
       [(back + 1)%nat; (back + 2)%nat; (back + 3)%nat] [(back + 3)%nat].

Definition own_pawns (p : Position) : list Square :=
  List.filter (holds (pieces p) PAWN (turn p)) REV_SQUARES.

Definition pawn_captures (p : Position) : list Move :=
  let ps := pieces p in
  let us := turn p in
  flat_map
    (fun frm =>
       flat_map (promotions_of frm)
         (List.filter (color_is ps (opposite us)) (sort_desc (pawn_attacks us frm))))
    (own_pawns p).

Definition forward (us : Color) (sq : Square) (n : nat) : option Square :=
  match us with
  | WHITE => if (sq + n <? 64)%nat then Some (sq + n)%nat else None
  | BLACK => if (n <=? sq)%nat then Some (sq - n)%nat else None
  end.

Definition pawn_single_moves (p : Position) : list Move :=
  let ps := pieces p in
  flat_map
    (fun frm =>
       match forward (turn p) frm 8 with
       | Some to => if occupied ps to then [] else promotions_of frm to
       | None => []
       end)
    (own_pawns p).

Definition pawn_double_moves (p : Position) : list Move :=
  let ps := pieces p in
  let us := turn p in
  flat_map
    (fun frm =>
       match forward us frm 8, forward us frm 16 with
       | Some mid, Some to =>
           let r := square_rank to in
           if negb (occupied ps mid) && negb (occupied ps to)
              && match us with
                 | WHITE => (r =? 2)%nat || (r =? 3)%nat
                 | BLACK => (r =? 5)%nat || (r =? 4)%nat
                 end
           then [mkMove frm to None] else []
       | _, _ => []
       end)
    (own_pawns p).

(** [generate_pseudo_legal_ep] *)
Definition ep_moves (p : Position) : list Move :=
  let ps := pieces p in
  let us := turn p in
  match ep_square p with
  | Some ep =>
      if occupied ps ep then []
      else
        map (fun frm => mkMove frm ep None)
            (List.filter
               (fun frm =>
                  (square_rank frm =? match us with WHITE => 4 | BLACK => 3 end)%nat
                  && existsb (Nat.eqb frm) (pawn_attacks (opposite us) ep))
               (own_pawns p))
  | None => []
  end.

Definition pseudo_legal_moves (p : Position) : list Move :=
  piece_moves p ++ castling_moves p ++ pawn_captures p
  ++ pawn_single_moves p ++ pawn_double_moves p ++ ep_moves p.

(** A move is kept when it does not leave the mover's king attacked. *)
Definition is_safe (p : Position) (m : Move) : bool :=
  let ps' := move_pieces p m in
  match king_square ps' (turn p) with
  | Some k => negb (is_attacked_by ps' (opposite (turn p)) k)
  | None => true
  end.

Definition in_check (p : Position) : bool :=
  match king_square (pieces p) (turn p) with
  | Some k => is_attacked_by (pieces p) (opposite (turn p)) k
  | None => false
  end.

(** [generate_legal_moves]: when in check the evasions are generated, the
    king's moves first. *)
Definition generate_legal_moves (p : Position) : list Move :=
  let ms := List.filter (is_safe p) (pseudo_legal_moves p) in
  if in_check p then
    let from_king m :=
      match king_square (pieces p) (turn p) with
      | Some k => (from_square m =? k)%nat
      | None => false
      end in
    List.filter from_king ms ++ List.filter (fun m => negb (from_king m)) ms
  else ms.

Definition capture (p : Position) (m : Move) : bool :=
  color_is (pieces p) (opposite (turn p)) (from_square m)
  || color_is (pieces p) (opposite (turn p)) (to_square m)
  || is_en_passant p m.

Definition count_if (f : Square -> bool) : nat := length (List.filter f SQUARES).

Definition light_square (sq : Square) : bool :=
  Nat.odd (square_file sq + square_rank sq).

(** [has_insufficient_material(color)] *)
Definition has_insufficient_material (p : Position) (c : Color) : bool :=
  let ps := pieces p in
  let any (f : Square -> bool) := existsb f SQUARES in
  let pawn sq := holds ps PAWN WHITE sq || holds ps PAWN BLACK sq in
  let knight sq := holds ps KNIGHT WHITE sq || holds ps KNIGHT BLACK sq in
  let bishop sq := holds ps BISHOP WHITE sq || holds ps BISHOP BLACK sq in
  if any (fun sq => holds ps PAWN c sq || holds ps ROOK c sq || holds ps QUEEN c sq) then false
  else if any (holds ps KNIGHT c) then
    (count_if (color_is ps c) <=? 2)%nat
    && negb (any (fun sq => color_is ps (opposite c) sq
                            && negb (holds ps KING (opposite c) sq)
                            && negb (holds ps QUEEN (opposite c) sq)))
  else if any (holds ps BISHOP c) then
    let same_color :=
      negb (any (fun sq => bishop sq && negb (light_square sq)))
      || negb (any (fun sq => bishop sq && light_square sq)) in
    same_color && negb (any pawn) && negb (any knight)
  else true.

Definition insufficient_material (p : Position) : bool :=
  has_insufficient_material p WHITE && has_insufficient_material p BLACK.

(** What a repetition compares: placement, side to move, castling rights,
    and the en-passant square when it can be used. *)
Definition same_transposition (p q : Position) : bool :=
  let key (x : Position) :=
    (pieces x, turn x, clean_castling_rights x,
     match List.filter (is_en_passant x) (generate_legal_moves x) with
     | [] => None
     | _ => ep_square x
     end) in
  bool_decide (key p = key q).

Definition game_over (b : Board) : bool :=
  let p := pos b in
  let no_moves := match generate_legal_moves p with [] => true | _ => false end in
  no_moves
  || insufficient_material p
  || (150 <=? halfmove_clock p)%nat
  || (4 <=? length (List.filter (fun s : Move * Position => same_transposition (snd s) p)
                                (stack b)))%nat.

(** The positions the rules are stated for: 64 squares, and an en-passant
    square that has the pawn that just advanced two squares behind it. *)
Definition validb (p : Position) : bool :=
  (length (pieces p) =? 64)%nat
  && match ep_square p with
     | None => true
     | Some ep =>
         (ep <? 64)%nat
         && implb (square_rank ep =? 5)%nat (occupied (pieces p) (ep - 8)%nat)
         && implb (square_rank ep =? 2)%nat (occupied (pieces p) (ep + 8)%nat)
     end.

(** Occupied squares of a placement. *)
Definition cnt (ps : list (option Piece)) : nat :=
  length (List.filter (fun o : option Piece => match o with Some _ => true | None => false end)
                      ps).

Definition occb (o : option Piece) : nat :=
  match o with Some _ => 1%nat | None => 0%nat end.

(** Where an en-passant capture can start from, checked square by square. *)
Definition ep_geometry_ok (us : Color) (ep : Square) : bool :=
  forallb
    (fun frm =>
       implb (square_rank frm =? match us with WHITE => 4 | BLACK => 3 end)%nat
             (match us with
              | WHITE => (square_rank ep =? 5)%nat && negb (frm =? ep - 8)%nat
              | BLACK => (square_rank ep =? 2)%nat && negb (frm =? ep + 8)%nat
              end
              && negb (frm =? ep)%nat))
    (pawn_attacks (opposite us) ep).

(** Number of move sequences of length [n]: the usual check of a move
    generator against published counts. *)
Fixpoint perft (n : nat) (p : Position) : nat :=
  match n with
  | O => 1%nat
  | S n' =>
      fold_left (fun acc m => (acc + perft n' (push_position p m))%nat)
                (generate_legal_moves p) 0%nat
  end.

End PyChessRules.

Definition PyChess : ChessLib := {|
  legal_moves := PyChessRules.generate_legal_moves;
  apply_move := PyChessRules.push_position;
  is_check := PyChessRules.in_check;
  is_capture := PyChessRules.capture;
  is_insufficient_material := PyChessRules.insufficient_material;
  is_game_over := PyChessRules.game_over
|}.

(* ===================================================================== *)
(** ** Positions from FEN *)
(* ===================================================================== *)

(** [chess.Board(fen)], for writing down concrete positions. *)
Module Fen.

#[local] Open Scope char_scope.

Definition piece_of_char (c : ascii) : option Piece :=
  match c with
  | "P" => Some (mkPiece PAWN WHITE) | "N" => Some (mkPiece KNIGHT WHITE)
  | "B" => Some (mkPiece BISHOP WHITE) | "R" => Some (mkPiece ROOK WHITE)
  | "Q" => Some (mkPiece QUEEN WHITE) | "K" => Some (mkPiece KING WHITE)
  | "p" => Some (mkPiece PAWN BLACK) | "n" => Some (mkPiece KNIGHT BLACK)
  | "b" => Some (mkPiece BISHOP BLACK) | "r" => Some (mkPiece ROOK BLACK)
  | "q" => Some (mkPiece QUEEN BLACK) | "k" => Some (mkPiece KING BLACK)
  | _ => None
  end.

Definition digit_of_char (c : ascii) : option nat :=
  let n := nat_of_ascii c in
  if (48 <=? n)%nat && (n <=? 57)%nat then Some (n - 48)%nat else None.

(** Splits a string at a separator. *)
Fixpoint split_on (sep : ascii) (s : string) (cur : list ascii) : list (list ascii) :=
  match s with
  | EmptyString => [rev cur]
  | String c s' =>
      if Ascii.eqb c sep then rev cur :: split_on sep s' []
      else split_on sep s' (c :: cur)
  end.

Fixpoint split_row (sep : ascii) (s : list ascii) (cur : list ascii) : list (list ascii) :=
  match s with
  | [] => [rev cur]
  | c :: s' =>
      if Ascii.eqb c sep then rev cur :: split_row sep s' []
      else split_row sep s' (c :: cur)
  end.

Definition parse_rank (row : list ascii) : list (option Piece) :=
  flat_map
    (fun c =>
       match digit_of_char c with
       | Some n => repeat None n
       | None => [piece_of_char c]
       end)
    row.

Definition parse_placement (field : list ascii) : list (option Piece) :=
  concat (rev (map parse_rank (split_row "/" field []))).

Definition parse_nat (field : list ascii) : nat :=
  fold_left (fun acc c => (10 * acc + default 0 (digit_of_char c))%nat) field 0%nat.

Definition parse_square (field : list ascii) : option Square :=
  match field with
  | [f; r] =>
      let fi := (nat_of_ascii f - 97)%nat in
      match digit_of_char r with
      | Some ri => Some ((ri - 1) * 8 + fi)%nat
      | None => None
      end
  | _ => None
  end.

Definition has_char (c : ascii) (field : list ascii) : bool :=
  existsb (Ascii.eqb c) field.

Definition parse (fen : string) : Position :=
  let fields := split_on " " fen [] in
  let field i := nth i fields [] in
  mkPosition
    (parse_placement (field 0%nat))
    (if has_char "b" (field 1%nat) then BLACK else WHITE)
    (mkCastling (has_char "Q" (field 2%nat)) (has_char "K" (field 2%nat))
                (has_char "q" (field 2%nat)) (has_char "k" (field 2%nat)))
    (parse_square (field 3%nat))
    (parse_nat (field 4%nat))
    (parse_nat (field 5%nat)).

(** A fresh board on the given position, nothing pushed. *)
Definition board (fen : string) : Board := mkBoard (parse fen) [].

End Fen.

(* ===================================================================== *)
(** ** Scores and search windows *)
(* ===================================================================== *)

(** A Python integer, [float('-inf')] or [float('inf')]. *)
Inductive Score := NegInf | Fin (z : Z) | PosInf.

#[global] Instance Score_eq_dec : EqDecision Score.
Proof. solve_decision. Defined.

(** [a < b] *)
Definition score_ltb (a b : Score) : bool :=
  match a, b with
  | NegInf, NegInf => false
  | NegInf, _ => true
  | Fin _, NegInf => false
  | Fin x, Fin y => x <? y
  | Fin _, PosInf => true
  | PosInf, _ => false
  end.

(** [a <= b] *)
Definition score_leb (a b : Score) : bool := negb (score_ltb b a).

(** [max(a, b)]: the second argument only when it is strictly greater. *)
Definition score_max (a b : Score) : Score := if score_ltb a b then b else a.

(** [min(a, b)] *)
Definition score_min (a b : Score) : Score := if score_ltb b a then b else a.

(** [-a] *)
Definition score_neg (a : Score) : Score :=
  match a with NegInf => PosInf | Fin z => Fin (- z) | PosInf => NegInf end.

(** [a + k]; an infinity stays what it is. *)
Definition score_add (a : Score) (k : Z) : Score :=
  match a with Fin z => Fin (z + k) | _ => a end.

Definition score_lt (a b : Score) : Prop := score_ltb a b = true.
Definition score_le (a b : Score) : Prop := score_leb a b = true.

(* ===================================================================== *)
(** ** NV_chess_engine_V2: state and effects *)
(* ===================================================================== *)

(** The attributes of an engine object ([search_start_time] is never
    read or written after construction and is left out). *)
Record Engine := mkEngine {
  board : Board;
  transposition_table : gmap string Z;
  nodes_searched : Z;
  killer_moves : list (option Move);
  history_table : gmap (Square * Square) Z
}.

(** [NV_chess_engine_V2(board)] *)
Definition new_engine (b : Board) : Engine := mkEngine b ∅ 0 [None; None] ∅.

Definition set_board (e : Engine) (b : Board) : Engine :=
  mkEngine b (transposition_table e) (nodes_searched e) (killer_moves e) (history_table e).

(** A call either returns or raises; the engine object lives on either way.
    The one exception the search itself can meet is the interpreter's
    [RecursionError], when calls nest deeper than allowed. *)
Inductive Outcome (A : Type) := Ret (a : A) | Raised.
Arguments Ret {A} a.
Arguments Raised {A}.

Definition M (A : Type) : Type := Engine -> Outcome A * Engine.

Definition ret {A : Type} (a : A) : M A := fun e => (Ret a, e).
Definition raise {A : Type} : M A := fun e => (Raised, e).
Definition bind {A B : Type} (m : M A) (k : A -> M B) : M B :=
  fun e => match m e with
           | (Ret a, e') => k a e'
           | (Raised, e') => (Raised, e')
           end.

Notation "'let*' x ':=' m 'in' k" := (bind m (fun x => k))
  (at level 10, x name, m at level 100, k at level 200).
Notation "m '>>' k" := (bind m (fun _ => k))
  (at level 100, k at level 200, right associativity).

(** [self.nodes_searched += 1] *)
Definition count_node : M unit :=
  fun e => (Ret tt, mkEngine (board e) (transposition_table e) (nodes_searched e + 1)
                             (killer_moves e) (history_table e)).

Definition move_in (move : Move) (l : list (option Move)) : bool :=
  existsb (fun k => bool_decide (k = Some move)) l.

(** [_update_killer] *)
Definition _update_killer (move : Move) (e : Engine) : Engine :=
  if move_in move (killer_moves e) then e
  else
    let inserted := Some move :: killer_moves e in
    mkEngine (board e) (transposition_table e) (nodes_searched e)
             (if (2 <? length inserted)%nat then removelast inserted else inserted)
             (history_table e).

(** [_update_history] *)
Definition _update_history (move : Move) (depth : Z) (e : Engine) : Engine :=
  let history_key := (from_square move, to_square move) in
  let bonus := depth * depth in
  mkEngine (board e) (transposition_table e) (nodes_searched e) (killer_moves e)
           (<[history_key := default 0 (history_table e !! history_key) + bonus]>
              (history_table e)).

Definition E4 : Square := 28%nat.
Definition E5 : Square := 36%nat.
Definition D4 : Square := 27%nat.
Definition D5 : Square := 35%nat.

(** [sorted(moves, key=move_score, reverse=True)]: stable, highest first. *)
Fixpoint insert_by_score (x : Z * Move) (l : list (Z * Move)) : list (Z * Move) :=
  match l with
  | [] => [x]
  | y :: l' => if fst x <? fst y then y :: insert_by_score x l' else x :: l
  end.

Definition sorted_desc (key : Move -> Z) (moves : list Move) : list Move :=
  map snd (fold_right insert_by_score [] (map (fun m => (key m, m)) moves)).

(** Truth value of a move object: only the null move is false. *)
Definition move_truthy (m : Move) : bool :=
  negb (from_square m =? 0)%nat || negb (to_square m =? 0)%nat
  || match promotion m with Some _ => true | None => false end.

Section Search.
Context `{lib : ChessLib}.

(** [self.board.push(move)] and [self.board.pop()] *)
Definition board_push (move : Move) : M unit :=
  fun e => (Ret tt, set_board e (push (board e) move)).
Definition board_pop : M unit :=
  fun e => (Ret tt, set_board e (pop (board e))).

(** [evaluate_board(player_color)]; the search always calls it with the
    default, [chess.BLACK]. *)
Definition evaluate_board (player_color : Color) : M Z :=
  fun e =>
    let '(score, b) := static_eval.evaluate_board (board e) in
    (Ret (match player_color with BLACK => - score | WHITE => score end), set_board e b).

(** The key function of [_order_moves]. *)
Definition move_score (e : Engine) (move : Move) : Z :=
  let p := pos (board e) in
  let score := 0 in
  let score :=
    if is_capture p move then
      match piece_at p (to_square move) with
      | Some captured =>
          let score := score + (10000 + PIECE_VALUES (piece_type captured)) in
          match piece_at p (from_square move) with
          | Some attacker => score - PIECE_VALUES (piece_type attacker)
          | None => score
          end
      | None => score
      end
    else score in
  let score := match promotion move with Some _ => score + 8000 | None => score end in
  let score := if move_in move (killer_moves e) then score + 3000 else score in
  let score :=
    match history_table e !! (from_square move, to_square move) with
    | Some h => score + h / 10
    | None => score
    end in
  let score :=
    if existsb (Nat.eqb (to_square move)) [E4; E5; D4; D5] then score + 10 else score in
  score.

Definition _order_moves (e : Engine) (moves : list Move) (is_maximizing : bool) : list Move :=
  sorted_desc (move_score e) moves.

(** The capture loop of [_quiescence]; [rec] is the recursive call. *)
Fixpoint quiescence_loop (rec : Score -> Score -> M Score)
    (moves : list Move) (alpha beta : Score) : M Score :=
  match moves with
  | [] => ret alpha
  | move :: rest =>
      fun e =>
        let p := pos (board e) in
        if negb (is_capture p move) then quiescence_loop rec rest alpha beta e
        else
          let bad :=
            match piece_at p (to_square move), piece_at p (from_square move) with
            | Some captured, Some attacker =>
                PIECE_VALUES (piece_type captured) <? PIECE_VALUES (piece_type attacker)
            | _, _ => false
            end in
          if bad then quiescence_loop rec rest alpha beta e
          else
            (board_push move >>
             let* r := rec (score_neg beta) (score_neg alpha) in
             board_pop >>
             let score := score_neg r in
             let alpha := score_max alpha score in
             if score_leb beta alpha then ret beta
             else quiescence_loop rec rest alpha beta) e
  end.

(** [_quiescence(alpha, beta)]; [limit] is the number of nested calls the
    interpreter still allows. *)
Fixpoint _quiescence (limit : nat) (alpha beta : Score) : M Score :=
  match limit with
  | O => raise
  | S limit' =>
      count_node >>
      let* stand_pat := evaluate_board BLACK in
      if score_leb beta (Fin stand_pat) then ret beta
      else
        let alpha := score_max alpha (Fin stand_pat) in
        fun e =>
          quiescence_loop (_quiescence limit') (legal_moves (pos (board e))) alpha beta e
  end.

(** One child of a node of [minimax]: the first move gets the full window,
    the others a null window and, when the probe lands inside the window,
    a second search. *)
Definition search_child (rec : Score -> Score -> M Score)
    (is_first_move : bool) (null_lo null_hi alpha beta : Score) : M Score :=
  if is_first_move then rec alpha beta
  else
    let* eval := rec null_lo null_hi in
    if score_ltb alpha eval && score_ltb eval beta then rec alpha beta
    else ret eval.

(** The loop of the maximizing branch. *)
Fixpoint max_loop (rec : Score -> Score -> M Score) (depth : Z)
    (moves : list Move) (is_first_move : bool) (alpha beta max_eval : Score) : M Score :=
  match moves with
  | [] => ret max_eval
  | move :: rest =>
      board_push move >>
      let* eval := search_child rec is_first_move alpha (score_add alpha 1) alpha beta in
      board_pop >>
      let max_eval := score_max max_eval eval in
      let alpha := score_max alpha eval in
      if score_leb beta alpha then
        fun e => (Ret max_eval, _update_history move depth (_update_killer move e))
      else max_loop rec depth rest false alpha beta max_eval
  end.

(** The loop of the minimizing branch. *)
Fixpoint min_loop (rec : Score -> Score -> M Score) (depth : Z)
    (moves : list Move) (is_first_move : bool) (alpha beta min_eval : Score) : M Score :=
  match moves with
  | [] => ret min_eval
  | move :: rest =>
      board_push move >>
      let* eval := search_child rec is_first_move (score_add beta (-1)) beta alpha beta in
      board_pop >>
      let min_eval := score_min min_eval eval in
      let beta := score_min beta eval in
      if score_leb beta alpha then
        fun e => (Ret min_eval, _update_history move depth (_update_killer move e))
      else min_loop rec depth rest false alpha beta min_eval
  end.

(** [minimax(depth, is_maximizing_player, alpha, beta)] *)
Fixpoint minimax (limit : nat) (depth : Z) (is_maximizing_player : bool)
    (alpha beta : Score) : M Score :=
  match limit with
  | O => raise
  | S limit' =>
      count_node >>
      if depth =? 0 then _quiescence limit' alpha beta
      else
        fun e =>
          let p := pos (board e) in
          if is_checkmate p then
            (Ret (Fin (if is_maximizing_player then -99999 else 99999)), e)
          else if is_stalemate p || is_insufficient_material p then (Ret (Fin 0), e)
          else
            let moves := _order_moves e (legal_moves p) is_maximizing_player in
            match moves with
            | [] => (let* v := evaluate_board BLACK in ret (Fin v)) e
            | _ :: _ =>
                if is_maximizing_player then
                  max_loop (minimax limit' (depth - 1) false) depth moves true alpha beta NegInf e
                else
                  min_loop (minimax limit' (depth - 1) true) depth moves true alpha beta PosInf e
            end
  end.

(** The root loops of [_search_move]: running window and best move. *)
Fixpoint root_max (search : Score -> Score -> M Score) (moves : list Move)
    (alpha beta : Score) (best_move : option Move) : M (Score * option Move) :=
  match moves with
  | [] => ret (alpha, best_move)
  | move :: rest =>
      board_push move >>
      let* score := search alpha beta in
      board_pop >>
      if score_ltb alpha score then root_max search rest score beta (Some move)
      else root_max search rest alpha beta best_move
  end.

Fixpoint root_min (search : Score -> Score -> M Score) (moves : list Move)
    (alpha beta : Score) (best_move : option Move) : M (Score * option Move) :=
  match moves with
  | [] => ret (beta, best_move)
  | move :: rest =>
      board_push move >>
      let* score := search alpha beta in
      board_pop >>
      if score_ltb score beta then root_min search rest alpha score (Some move)
      else root_min search rest alpha beta best_move
  end.

(** The body of [_search_move] up to its [return]: the score the root
    settled on ([alpha] when maximizing for Black, [beta] otherwise) and
    the move that set it. *)
Definition search_root (limit : nat) (depth : Z) (player_color : Color)
    : M (Score * option Move) :=
  fun e =>
    let p := pos (board e) in
    match player_color with
    | BLACK =>
        root_max (minimax limit (depth - 1) false)
                 (_order_moves e (legal_moves p) true) NegInf PosInf None e
    | WHITE =>
        root_min (minimax limit (depth - 1) true)
                 (_order_moves e (legal_moves p) false) NegInf PosInf None e
    end.

(** [return best_move if best_move else list(legal_moves)[0] if legal_moves else None] *)
Definition fallback_move (best_move : option Move) (p : Position) : option Move :=
  match best_move with
  | Some m => if move_truthy m then Some m else head (legal_moves p)
  | None => head (legal_moves p)
  end.

(** [_search_move(depth, player_color)] *)
Definition _search_move (limit : nat) (depth : Z) (player_color : Color) : M (option Move) :=
  let* r := search_root limit depth player_color in
  fun e => (Ret (fallback_move (snd r) (pos (board e))), e).

(** [self.transposition_table.clear()] *)
Definition clear_transposition_table : M unit :=
  fun e => (Ret tt, mkEngine (board e) ∅ (nodes_searched e) (killer_moves e) (history_table e)).

(** The iterative-deepening loop: [try: best_move = ... except Exception: break]. *)
Fixpoint deepen (limit : nat) (player_color : Color) (depths : list Z)
    (best_move : option Move) : M (option Move) :=
  match depths with
  | [] => ret best_move
  | current_depth :: rest =>
      fun e =>
        match _search_move limit current_depth player_color e with
        | (Ret m, e') => deepen limit player_color rest m e'
        | (Raised, e') => (Ret best_move, e')
        end
  end.

(** [range(1, depth + 1)] *)
Definition depth_range (depth : Z) : list Z :=
  map Z.of_nat (seq 1 (Z.to_nat depth)).

(** [get_best_move(depth, player_color, iterative_deepening)] *)
Definition get_best_move (limit : nat) (depth : Z) (player_color : Color)
    (iterative_deepening : bool) : M (option Move) :=
  clear_transposition_table >>
  if iterative_deepening then deepen limit player_color (depth_range depth) None
  else _search_move limit depth player_color.

(** *** The ChessEngine wrapper *)

(** [self.board] and [self.engine.board] are one object: the board lives
    in the engine. *)
Record ChessEngine := mkChessEngine {
  engine : Engine;
  depth_setting : Z
}.

(** The four assignments that precede the search in [make_engine_move]. *)
Definition clear_search_state (e : Engine) : Engine :=
  mkEngine (board e) ∅ 0 [None; None] ∅.

(** [make_engine_move()]: the move played, if any, and the wrapper after. *)
Definition make_engine_move (limit : nat) (w : ChessEngine)
    : Outcome (option Move * string) * ChessEngine :=
  if is_game_over (board (engine w)) then (Ret (None, "Game is over"%string), w)
  else
    let e := clear_search_state (engine w) in
    match get_best_move limit (depth_setting w) BLACK true e with
    | (Ret (Some best_move), e') =>
        if move_truthy best_move then
          (Ret (Some best_move, "Engine move made"%string),
           mkChessEngine (set_board e' (push (board e') best_move)) (depth_setting w))
        else (Ret (None, "No legal moves"%string), mkChessEngine e' (depth_setting w))
    | (Ret None, e') => (Ret (None, "No legal moves"%string), mkChessEngine e' (depth_setting w))
    | (Raised, e') => (Raised, mkChessEngine e' (depth_setting w))
    end.

(** *** Reference: full-width minimax *)

(** The search the pruning-equivalence law compares with: every child of
    every node is searched once, no window is passed down, the leaves are
    scored by the quiescence search on the open window, and the root keeps
    the first move with the best score. *)
Fixpoint full_loop (rec : M Score) (is_maximizing_player : bool)
    (moves : list Move) (best : Score) : M Score :=
  match moves with
  | [] => ret best
  | move :: rest =>
      board_push move >>
      let* eval := rec in
      board_pop >>
      full_loop rec is_maximizing_player rest
        (if is_maximizing_player then score_max best eval else score_min best eval)
  end.

Fixpoint full_minimax (limit : nat) (depth : Z) (is_maximizing_player : bool) : M Score :=
  match limit with
  | O => raise
  | S limit' =>
      count_node >>
      if depth =? 0 then _quiescence limit' NegInf PosInf
      else
        fun e =>
          let p := pos (board e) in
          if is_checkmate p then
            (Ret (Fin (if is_maximizing_player then -99999 else 99999)), e)
          else if is_stalemate p || is_insufficient_material p then (Ret (Fin 0), e)
          else
            let moves := _order_moves e (legal_moves p) is_maximizing_player in
            match moves with
            | [] => (let* v := evaluate_board BLACK in ret (Fin v)) e
            | _ :: _ =>
                full_loop (full_minimax limit' (depth - 1) (negb is_maximizing_player))
                          is_maximizing_player moves
                          (if is_maximizing_player then NegInf else PosInf) e
            end
  end.

Fixpoint full_root (search : M Score) (maximize : bool) (moves : list Move)
    (best : Score) (best_move : option Move) : M (Score * option Move) :=
  match moves with
  | [] => ret (best, best_move)
  | move :: rest =>
      board_push move >>
      let* score := search in
      board_pop >>
      if (if maximize then score_ltb best score else score_ltb score best)
      then full_root search maximize rest score (Some move)
      else full_root search maximize rest best best_move
  end.

Definition full_search_root (limit : nat) (depth : Z) (player_color : Color)
    : M (Score * option Move) :=
  fun e =>
    let p := pos (board e) in
    match player_color with
    | BLACK =>
        full_root (full_minimax limit (depth - 1) false) true
                  (_order_moves e (legal_moves p) true) NegInf None e
    | WHITE =>
        full_root (full_minimax limit (depth - 1) true) false
                  (_order_moves e (legal_moves p) false) PosInf None e
    end.

End Search.

(* ===================================================================== *)
(** ** What the engine assumes of the rules library *)
(* ===================================================================== *)

(** Positions the library accepts as valid are closed under making a legal
    move and under assigning the turn; a move never adds a piece, and a
    capture removes one. *)
Class Lawful (lib : ChessLib) (valid : Position -> Prop) : Prop := {
  valid_apply_move :
    forall p m, valid p -> In m (legal_moves p) -> valid (apply_move p m);
  valid_set_turn : forall p c, valid p -> valid (set_turn p c);
  apply_move_count :
    forall p m, valid p -> In m (legal_moves p) ->
      (piece_count (apply_move p m) <= piece_count p)%nat;
  capture_removes_piece :
    forall p m, valid p -> In m (legal_moves p) -> is_capture p m = true ->
      (piece_count (apply_move p m) < piece_count p)%nat
}.

(** Two states of the board object that differ at most in whose turn it is. *)
Definition same_but_turn (b b' : Board) : Prop :=
  stack b' = stack b /\ exists c, pos b' = set_turn (pos b) c.

(** The steps done when a move cuts off: what the loops of [minimax] run. *)
Definition record_cutoff (move : Move) (depth : Z) (e : Engine) : Engine :=
  _update_history move depth (_update_killer move e).

Definition run_cutoffs (events : list (Move * Z)) (e : Engine) : Engine :=
  fold_left (fun e ev => record_cutoff (fst ev) (snd ev) e) events e.

(** The moves a killer table holds, slot by slot. *)
Definition killer_entries (k : list (option Move)) : list Move := omap id k.

Definition killer_ok (k : list (option Move)) : Prop :=
  (length k <= 2)%nat /\ List.NoDup (killer_entries k).

(** [history_table.get(key, 0)] *)
Definition history_value (e : Engine) (key : Square * Square) : Z :=
  default 0 (history_table e !! key).

(** [completed limit c e0 j e b]: starting from [e0], the first [j]
    iterations of the driver (depths 1 to [j]) all returned; [e] is the
    engine after them and [b] the move the last one returned. *)
Inductive completed `{lib : ChessLib} (limit : nat) (player_color : Color)
    (e0 : Engine) : nat -> Engine -> option Move -> Prop :=
| completed_none : completed limit player_color e0 O e0 None
| completed_next j e b m e' :
    completed limit player_color e0 j e b ->
    _search_move limit (Z.of_nat (S j)) player_color e = (Ret m, e') ->
    completed limit player_color e0 (S j) e' m.

(** What a recursive call must guarantee for the loops to be balanced. *)
Definition balanced (rec : Score -> Score -> M Score) : Prop :=
  forall alpha beta e v e',
    rec alpha beta e = (Ret v, e') -> same_but_turn (board e) (board e').

Section Budget.
Context `{lib : ChessLib} (valid : Position -> Prop) {law : Lawful lib valid}.

(** A board on a valid position with at most [n] pieces. *)
Definition small (n : nat) (b : Board) : Prop :=
  valid (pos b) /\ (piece_count (pos b) <= n)%nat.

(** The recursive call returns on every small enough board. *)
Definition returns_on (n : nat) (rec : Score -> Score -> M Score) : Prop :=
  forall alpha beta e, small n (board e) -> exists v e', rec alpha beta e = (Ret v, e').

End Budget.

(** From one engine state to a later one of the same search: the killer
    table keeps its shape and no history entry has gone down. *)
Definition tables_grow (e e' : Engine) : Prop :=
  (killer_ok (killer_moves e) -> killer_ok (killer_moves e'))
  /\ forall key, history_value e key <= history_value e' key.

(** An action of the search that only ever grows the tables, whether it
    returns or raises. *)
Definition grows {A : Type} (m : M A) : Prop :=
  forall e out e', m e = (out, e') -> tables_grow e e'.

(** An action of the search after which the engine is related to what it
    was by [R], whether it returns or raises. *)
Definition keeps {A : Type} (R : Engine -> Engine -> Prop) (m : M A) : Prop :=
  forall e out e', m e = (out, e') -> R e e'.

(** The answer to a best-move request against the legal moves of the
    position: no move only when there is none, else one of them. *)
Definition legal_answer `{lib : ChessLib} (p : Position) (r : option Move) : Prop :=
  match legal_moves p with
  | [] => r = None
  | _ :: _ => exists m, r = Some m /\ In m (legal_moves p)
  end.

(** What a run of cutoffs adds to the history entry [key]. *)
Definition cutoff_bonus (key : Square * Square) (events : list (Move * Z)) : Z :=
  fold_right
    (fun (ev : Move * Z) acc =>
       if bool_decide ((from_square (fst ev), to_square (fst ev)) = key)
       then snd ev * snd ev + acc else acc)
    0 events.

(** *** Reference: the capture search without cutoffs *)

Section Reference.
Context `{lib : ChessLib}.

(** The captures [_quiescence] searches: those that do not give a more
    valuable piece for a less valuable one. *)
Definition searched_capture (p : Position) (move : Move) : bool :=
  is_capture p move
  && negb match piece_at p (to_square move), piece_at p (from_square move) with
          | Some captured, Some attacker =>
              PIECE_VALUES (piece_type captured) <? PIECE_VALUES (piece_type attacker)
          | _, _ => false
          end.

(** The capture search without a window: the best of the stand-pat score
    and the negated values of the positions after the searched captures.
    [None] when the captures nest deeper than [limit] calls. *)
Fixpoint capture_loop (rec : Board -> option Score) (b : Board) (moves : list Move)
    (best : Score) : option Score :=
  match moves with
  | [] => Some best
  | move :: rest =>
      if searched_capture (pos b) move then
        match rec (push b move) with
        | Some v => capture_loop rec b rest (score_max best (score_neg v))
        | None => None
        end
      else capture_loop rec b rest best
  end.

Fixpoint capture_search (limit : nat) (b : Board) : option Score :=
  match limit with
  | O => None
  | S limit' =>
      let '(score, b) := static_eval.evaluate_board b in
      capture_loop (capture_search limit') b (legal_moves (pos b)) (Fin (- score))
  end.

(** The scores of the captures [_quiescence] searches at [b], in the order
    of the loop: for each, the negated value of the position after it. *)
Definition capture_scores (rec : Board -> option Score) (b : Board)
    (moves : list Move) : list Score :=
  omap (fun move =>
          if searched_capture (pos b) move
          then option_map score_neg (rec (push b move))
          else None)
       moves.

(** Fail-hard: a value cut to the window. *)
Definition clamp (alpha beta v : Score) : Score :=
  if score_leb beta v then beta else score_max alpha v.

End Reference.

(** *** What the search reads of the engine *)

(** Two engines that agree on everything the search reads: the board and
    the two move-ordering tables. *)
Definition same_inputs (e1 e2 : Engine) : Prop :=
  board e1 = board e2
  /\ killer_moves e1 = killer_moves e2
  /\ history_table e1 = history_table e2.

(** An action that cannot tell such engines apart: it ends the same way on
    both, with the same result, and leaves them agreeing. *)
Definition blind {A : Type} (m : M A) : Prop :=
  forall e1 e2, same_inputs e1 e2 ->
    fst (m e1) = fst (m e2) /\ same_inputs (snd (m e1)) (snd (m e2)).

(** The rank on which the pawns of a colour start: the second, seen from
    their own side. *)
Definition home_rank (c : Color) : nat :=
  match c with WHITE => 1%nat | BLACK => 6%nat end.

(** *** Reading the board from the other side *)

Definition swap_color (pc : Piece) : Piece :=
  mkPiece (piece_type pc) (opposite (color pc)).

(** The same placement with the colours exchanged and the board turned
    by 180 degrees: what stands on square [s] stood, in the other colour,
    on square [63 - s], the index [_flip_table] reads. *)
Definition reversed (p : Position) : Position :=
  mkPosition (map (fun i : nat => option_map swap_color (piece_at p (63 - i)%nat)) SQUARES)
             (opposite (turn p)) (castling_rights p) (ep_square p)
             (halfmove_clock p) (fullmove_number p).

Definition Zsum (l : list Z) : Z := fold_right Z.add 0 l.

(** What one file adds in the first loop of [_evaluate_pawn_structure],
    and one square in the second. *)
Definition doubled_term (p : Position) (file : nat) : Z :=
  (if 1 <? pawns_on_file p WHITE file then - (20 * (pawns_on_file p WHITE file - 1)) else 0)
  + (if 1 <? pawns_on_file p BLACK file then 20 * (pawns_on_file p BLACK file - 1) else 0).

Definition isolated_term (p : Position) (square : Square) : Z :=
  match piece_at p square with
  | Some piece =>
      match piece_type piece with
      | PAWN =>
          if is_isolated p (color piece) (square_file square)
          then match color piece with WHITE => -15 | BLACK => 15 end
          else 0
      | _ => 0
      end
  | None => 0
  end.

(* ===================================================================== *)
(** ** chess_pygame_viewer.py: pixels and squares *)
(* ===================================================================== *)

Module Viewer.

Definition TILE_SIZE : Z := 80.
Definition BOARD_SIZE : Z := TILE_SIZE * 8.
Definition STATUS_BAR_H : Z := 36.
Definition WINDOW_SIZE : Z * Z := (BOARD_SIZE, BOARD_SIZE + STATUS_BAR_H).

(** [chess.square(file_index, rank_index)] *)
Definition square (file_index rank_index : Z) : Z := rank_index * 8 + file_index.

(** [chess.square_file(square)] is [square & 7], [chess.square_rank(square)]
    is [square >> 3]. *)
Definition square_file (sq : Z) : Z := Z.land sq 7.
Definition square_rank (sq : Z) : Z := Z.shiftr sq 3.

(** [square_at(mouse_pos, flipped)]; [None] is Python's [None]. *)
Definition square_at (mouse_pos : Z * Z) (flipped : bool) : option Z :=
  let '(mx, my) := mouse_pos in
  if my >=? BOARD_SIZE then None
  else
    let file := mx / TILE_SIZE in
    let rank := my / TILE_SIZE in
    let file := if flipped then 7 - file else file in
    let rank := if flipped then 7 - rank else rank in
    Some (square file (7 - rank)).

(** [sq_to_xy(sq, flipped)]: the top-left corner of the tile drawn for [sq]. *)
Definition sq_to_xy (sq : Z) (flipped : bool) : Z * Z :=
  let file := square_file sq in
  let rank := square_rank sq in
  let display_rank := 7 - rank in
  let display_file := file in
  let display_rank := if flipped then 7 - display_rank else display_rank in
  let display_file := if flipped then 7 - display_file else display_file in
  (display_file * TILE_SIZE, display_rank * TILE_SIZE).

(** The point [mouse_pos] lies on the tile whose corner is [corner]. *)
Definition on_tile (corner mouse_pos : Z * Z) : Prop :=
  fst corner <= fst mouse_pos < fst corner + TILE_SIZE
  /\ snd corner <= snd mouse_pos < snd corner + TILE_SIZE.

End Viewer.

(** *** The click handler of the event loop *)

(** The module-level variables the click handler of [main] reads and
    writes ([flipped] is only read there). *)
Record Selection := mkSelection {
  selected_sq : option Square;
  legal_targets : list Square;
  last_move : option Move
}.

Section Clicks.
Context `{lib : ChessLib}.

(** [board.is_legal(move)]; [move in board.legal_moves] is the same call
    in python-chess. *)
Variable is_legal : Position -> Move -> bool.

(** What [promotion_choice] returns when it is shown: a piece type, or
    [None] when the prompt is cancelled. *)
Variable prompt : option PieceType.

(** [piece and piece.color == board.turn] *)
Definition own_piece (p : Position) (sq : Square) : bool :=
  match piece_at p sq with
  | Some piece => color_eqb (color piece) (turn p)
  | None => false
  end.

(** [board.piece_at(sq) and board.piece_at(sq).piece_type == chess.PAWN] *)
Definition pawn_at (p : Position) (sq : Square) : bool :=
  match piece_at p sq with
  | Some piece => piece_type_eqb (piece_type piece) PAWN
  | None => false
  end.

(** [[m.to_square for m in board.legal_moves if m.from_square == sq]] *)
Definition targets_from (p : Position) (sq : Square) : list Square :=
  map to_square (List.filter (fun m => (from_square m =? sq)%nat) (legal_moves p)).

(** The body shared by the two promotion branches. *)
Definition ask_promotion (p : Position) (move : Move) : Move :=
  if is_legal p move then
    match prompt with
    | Some ptype => mkMove (from_square move) (to_square move) (Some ptype)
    | None => move
    end
  else move.

(** The [MOUSEBUTTONDOWN] branch of the event loop. *)
Definition on_click (mouse_pos : Z * Z) (flipped : bool) (b : Board) (s : Selection)
    : Board * Selection :=
  match Viewer.square_at mouse_pos flipped with
  | None => (b, s)
  | Some z =>
      let sq := Z.to_nat z in
      let p := pos b in
      match selected_sq s with
      | None =>
          if own_piece p sq
          then (b, mkSelection (Some sq) (targets_from p sq) (last_move s))
          else (b, s)
      | Some sel =>
          let move := mkMove sel sq None in
          let move :=
            if (square_rank sel =? 6)%nat && (square_rank sq =? 7)%nat
               && pawn_at p sel && color_eqb (turn p) WHITE
            then ask_promotion p move
            else if (square_rank sel =? 1)%nat && (square_rank sq =? 0)%nat
                    && pawn_at p sel && color_eqb (turn p) BLACK
            then ask_promotion p move
            else move in
          if is_legal p move then (push b move, mkSelection None [] (Some move))
          else if own_piece p sq
          then (b, mkSelection (Some sq) (targets_from p sq) (last_move s))
          else (b, mkSelection None [] (last_move s))
      end
  end.

End Clicks.

(** What the viewer shows is consistent with the board: a selected square
    holds a piece of the side to move and the highlighted targets are the
    targets of the legal moves from it. *)
Definition selection_ok `{lib : ChessLib} (b : Board) (s : Selection) : Prop :=
  match selected_sq s with
  | Some sq => own_piece (pos b) sq = true /\ legal_targets s = targets_from (pos b) sq
  | None => True
  end.

(* ##################################################################### *)
(** * Proofs *)
(* ##################################################################### *)

(* ===================================================================== *)
(** ** Lemmas: scores *)
(* ===================================================================== *)

Lemma score_ltb_irrefl a : score_ltb a a = false.
Proof. destruct a; simpl; auto using Z.ltb_irrefl. Qed.

Lemma score_ltb_trans a b c :
  score_ltb a b = true -> score_ltb b c = true -> score_ltb a c = true.
Proof.
  destruct a, b, c; simpl; try congruence; auto.
  rewrite !Z.ltb_lt. lia.
Qed.

Lemma score_leb_refl a : score_leb a a = true.
Proof. unfold score_leb. now rewrite score_ltb_irrefl. Qed.

Lemma score_ltb_leb a b : score_ltb a b = true -> score_leb a b = true.
Proof.
  unfold score_leb. destruct a, b; simpl; try congruence; auto.
  rewrite Z.ltb_lt. intros H. apply negb_true_iff, Z.ltb_ge. lia.
Qed.

Lemma score_leb_trans a b c :
  score_leb a b = true -> score_leb b c = true -> score_leb a c = true.
Proof.
  unfold score_leb. destruct a, b, c; simpl; try congruence; auto.
  rewrite !negb_true_iff, !Z.ltb_ge. lia.
Qed.

Lemma score_leb_ltb_trans a b c :
  score_leb a b = true -> score_ltb b c = true -> score_ltb a c = true.
Proof.
  unfold score_leb. destruct a, b, c; simpl; try congruence; auto.
  rewrite negb_true_iff, Z.ltb_ge, !Z.ltb_lt. lia.
Qed.

Lemma score_leb_false_ltb a b : score_leb a b = false -> score_ltb b a = true.
Proof. unfold score_leb. now rewrite negb_false_iff. Qed.

Lemma score_max_ge_l a b : score_leb a (score_max a b) = true.
Proof.
  unfold score_max. destruct (score_ltb a b) eqn:H.
  - now apply score_ltb_leb.
  - apply score_leb_refl.
Qed.

Lemma score_max_ge_r a b : score_leb b (score_max a b) = true.
Proof.
  unfold score_max. destruct (score_ltb a b) eqn:H.
  - apply score_leb_refl.
  - unfold score_leb. now rewrite H.
Qed.

Lemma score_max_lt a b c :
  score_ltb a c = true -> score_ltb b c = true -> score_ltb (score_max a b) c = true.
Proof. unfold score_max. now destruct (score_ltb a b). Qed.

(* ===================================================================== *)
(** ** Lemmas: push and pop are paired on every returning path *)
(* ===================================================================== *)

Lemma set_turn_same p : set_turn p (turn p) = p.
Proof. now destruct p. Qed.

Lemma set_turn_twice p c c' : set_turn (set_turn p c) c' = set_turn p c'.
Proof. reflexivity. Qed.

Lemma same_but_turn_refl b : same_but_turn b b.
Proof. split; [reflexivity | exists (turn (pos b)); now rewrite set_turn_same]. Qed.

Lemma same_but_turn_trans b1 b2 b3 :
  same_but_turn b1 b2 -> same_but_turn b2 b3 -> same_but_turn b1 b3.
Proof.
  intros [H1 [c1 E1]] [H2 [c2 E2]]. split; [congruence |].
  exists c2. rewrite E2, E1. apply set_turn_twice.
Qed.

Lemma bind_ret_inv {A B} (m : M A) (k : A -> M B) e v e' :
  bind m k e = (Ret v, e') ->
  exists a e1, m e = (Ret a, e1) /\ k a e1 = (Ret v, e').
Proof.
  unfold bind. destruct (m e) as [[a|] e1]; [eauto | discriminate].
Qed.

Section Balanced.
Context `{lib : ChessLib}.

Lemma pop_push b m : pop (push b m) = b.
Proof. now destruct b. Qed.

(** A pop undoes the push below it whatever happened to the turn since. *)
Lemma pop_after_push b m b' : same_but_turn (push b m) b' -> pop b' = b.
Proof.
  intros [Hs _]. unfold pop. rewrite Hs. simpl. now destruct b.
Qed.

Lemma static_eval_board_same b :
  same_but_turn b (snd (static_eval.evaluate_board b)).
Proof.
  unfold static_eval.evaluate_board.
  destruct (is_checkmate (pos b)); [apply same_but_turn_refl |].
  destruct (is_stalemate (pos b) || is_insufficient_material (pos b));
    [apply same_but_turn_refl |].
  simpl. split; [reflexivity | now exists WHITE].
Qed.

Lemma evaluate_board_same c e v e' :
  evaluate_board c e = (Ret v, e') -> same_but_turn (board e) (board e').
Proof.
  unfold evaluate_board. pose proof (static_eval_board_same (board e)) as H.
  destruct (static_eval.evaluate_board (board e)) as [s b]. intros [= _ <-]. exact H.
Qed.

Lemma quiescence_loop_balanced rec :
  balanced rec ->
  forall moves alpha beta e v e',
    quiescence_loop rec moves alpha beta e = (Ret v, e') -> board e' = board e.
Proof.
  intros Hrec. induction moves as [|move rest IH]; intros alpha beta e v e'; simpl.
  - now intros [= _ <-].
  - destruct (negb (is_capture (pos (board e)) move)); [apply IH |].
    match goal with |- context [if ?c then _ else _] => destruct c end; [apply IH |].
    intros H.
    apply bind_ret_inv in H as ([] & e1 & H1 & H).
    apply bind_ret_inv in H as (r & e2 & H2 & H).
    apply bind_ret_inv in H as ([] & e3 & H3 & H).
    injection H1 as <-. injection H3 as <-.
    apply Hrec in H2. simpl in H2. apply pop_after_push in H2.
    assert (Hb : board (set_board e2 (pop (board e2))) = board e) by (simpl; exact H2).
    destruct (score_leb beta (score_max alpha (score_neg r))).
    + injection H as _ <-. exact Hb.
    + apply IH in H. now rewrite H.
Qed.

Lemma quiescence_balanced limit : balanced (_quiescence limit).
Proof.
  induction limit as [|limit IH]; intros alpha beta e v e'; simpl; [discriminate |].
  intros H.
  apply bind_ret_inv in H as ([] & e1 & H1 & H). injection H1 as <-.
  apply bind_ret_inv in H as (sp & e2 & H2 & H).
  apply evaluate_board_same in H2. simpl in H2.
  destruct (score_leb beta (Fin sp)).
  - injection H as _ <-. exact H2.
  - apply (quiescence_loop_balanced _ IH) in H. now rewrite H.
Qed.

Lemma search_child_balanced rec first lo hi :
  balanced rec -> balanced (search_child rec first lo hi).
Proof.
  intros Hrec alpha beta e v e'. unfold search_child.
  destruct first; [apply Hrec |].
  intros H. apply bind_ret_inv in H as (p & e1 & H1 & H).
  apply Hrec in H1.
  destruct (score_ltb alpha p && score_ltb p beta).
  - apply Hrec in H. eapply same_but_turn_trans; eauto.
  - injection H as _ <-. exact H1.
Qed.

Lemma update_killer_board move e : board (_update_killer move e) = board e.
Proof. unfold _update_killer. now destruct (move_in move (killer_moves e)). Qed.

Lemma record_cutoff_board move depth e : board (record_cutoff move depth e) = board e.
Proof. unfold record_cutoff, _update_history. simpl. apply update_killer_board. Qed.

Lemma max_loop_balanced rec depth :
  balanced rec ->
  forall moves first alpha beta max_eval e v e',
    max_loop rec depth moves first alpha beta max_eval e = (Ret v, e') ->
    board e' = board e.
Proof.
  intros Hrec. induction moves as [|move rest IH];
    intros first alpha beta max_eval e v e'; simpl.
  - now intros [= _ <-].
  - intros H.
    apply bind_ret_inv in H as ([] & e1 & H1 & H). injection H1 as <-.
    apply bind_ret_inv in H as (ev & e2 & H2 & H).
    apply bind_ret_inv in H as ([] & e3 & H3 & H). injection H3 as <-.
    apply (search_child_balanced _ _ _ _ Hrec) in H2. simpl in H2.
    apply pop_after_push in H2.
    destruct (score_leb beta (score_max alpha ev)).
    + injection H as _ <-. fold (record_cutoff move depth (set_board e2 (pop (board e2)))).
      rewrite record_cutoff_board. exact H2.
    + apply IH in H. rewrite H. exact H2.
Qed.

Lemma min_loop_balanced rec depth :
  balanced rec ->
  forall moves first alpha beta min_eval e v e',
    min_loop rec depth moves first alpha beta min_eval e = (Ret v, e') ->
    board e' = board e.
Proof.
  intros Hrec. induction moves as [|move rest IH];
    intros first alpha beta min_eval e v e'; simpl.
  - now intros [= _ <-].
  - intros H.
    apply bind_ret_inv in H as ([] & e1 & H1 & H). injection H1 as <-.
    apply bind_ret_inv in H as (ev & e2 & H2 & H).
    apply bind_ret_inv in H as ([] & e3 & H3 & H). injection H3 as <-.
    apply (search_child_balanced _ _ _ _ Hrec) in H2. simpl in H2.
    apply pop_after_push in H2.
    destruct (score_leb (score_min beta ev) alpha).
    + injection H as _ <-. fold (record_cutoff move depth (set_board e2 (pop (board e2)))).
      rewrite record_cutoff_board. exact H2.
    + apply IH in H. rewrite H. exact H2.
Qed.

Lemma minimax_balanced limit :
  forall depth is_max, balanced (minimax limit depth is_max).
Proof.
  induction limit as [|limit IH]; intros depth is_max alpha beta e v e'; simpl;
    [discriminate |].
  intros H. apply bind_ret_inv in H as ([] & e1 & H1 & H). injection H1 as <-.
  destruct (depth =? 0).
  - apply quiescence_balanced in H. exact H.
  - simpl in H.
    destruct (is_checkmate (pos (board e))).
    { injection H as _ <-. apply same_but_turn_refl. }
    destruct (is_stalemate (pos (board e)) || is_insufficient_material (pos (board e))).
    { injection H as _ <-. apply same_but_turn_refl. }
    destruct (_order_moves _ _ _) as [|m0 ms] eqn:Hm.
    { apply bind_ret_inv in H as (sp & e2 & H2 & H). injection H as _ <-.
      apply evaluate_board_same in H2. exact H2. }
    destruct is_max.
    + apply (max_loop_balanced _ _ (IH _ _)) in H. rewrite H. apply same_but_turn_refl.
    + apply (min_loop_balanced _ _ (IH _ _)) in H. rewrite H. apply same_but_turn_refl.
Qed.

End Balanced.

Section RootBalanced.
Context `{lib : ChessLib}.

Lemma root_max_balanced search :
  balanced search ->
  forall moves alpha beta best e r e',
    root_max search moves alpha beta best e = (Ret r, e') -> board e' = board e.
Proof.
  intros Hs. induction moves as [|move rest IH]; intros alpha beta best e r e'; simpl.
  - now intros [= _ <-].
  - intros H.
    apply bind_ret_inv in H as ([] & e1 & H1 & H). injection H1 as <-.
    apply bind_ret_inv in H as (sc & e2 & H2 & H).
    apply bind_ret_inv in H as ([] & e3 & H3 & H). injection H3 as <-.
    apply Hs in H2. simpl in H2. apply pop_after_push in H2.
    destruct (score_ltb alpha sc); apply IH in H; rewrite H; exact H2.
Qed.

Lemma root_min_balanced search :
  balanced search ->
  forall moves alpha beta best e r e',
    root_min search moves alpha beta best e = (Ret r, e') -> board e' = board e.
Proof.
  intros Hs. induction moves as [|move rest IH]; intros alpha beta best e r e'; simpl.
  - now intros [= _ <-].
  - intros H.
    apply bind_ret_inv in H as ([] & e1 & H1 & H). injection H1 as <-.
    apply bind_ret_inv in H as (sc & e2 & H2 & H).
    apply bind_ret_inv in H as ([] & e3 & H3 & H). injection H3 as <-.
    apply Hs in H2. simpl in H2. apply pop_after_push in H2.
    destruct (score_ltb sc beta); apply IH in H; rewrite H; exact H2.
Qed.

Lemma search_root_board limit depth c e r e' :
  search_root limit depth c e = (Ret r, e') -> board e' = board e.
Proof.
  unfold search_root. destruct c.
  - apply root_min_balanced, minimax_balanced.
  - apply root_max_balanced, minimax_balanced.
Qed.

Lemma search_move_board limit depth c e m e' :
  _search_move limit depth c e = (Ret m, e') -> board e' = board e.
Proof.
  unfold _search_move. intros H.
  apply bind_ret_inv in H as (r & e1 & H1 & H). injection H as _ <-.
  eapply search_root_board; eauto.
Qed.

End RootBalanced.

(* ===================================================================== *)
(** ** Lemmas: move ordering keeps the moves *)
(* ===================================================================== *)

Lemma insert_by_score_In x y l :
  In y (insert_by_score x l) <-> y = x \/ In y l.
Proof.
  induction l as [|z l IH]; simpl.
  - intuition.
  - destruct (fst x <? fst z); simpl; rewrite ?IH; intuition.
Qed.

Lemma sorted_desc_In key m l : In m (sorted_desc key l) <-> In m l.
Proof.
  unfold sorted_desc. rewrite in_map_iff. split.
  - intros ([k m'] & <- & H). simpl. revert H.
    induction l as [|a l IH]; simpl; [tauto |].
    rewrite insert_by_score_In. intros [[= _ ->] | H]; auto.
  - intros H. exists (key m, m). split; [reflexivity |].
    induction l as [|a l IH]; simpl in *; [tauto |].
    rewrite insert_by_score_In. destruct H as [-> | H]; auto.
Qed.

(* ===================================================================== *)
(** ** Lemmas: the search returns within the recursion budget *)
(* ===================================================================== *)

Section Returns.
Context `{lib : ChessLib} (valid : Position -> Prop) {law : Lawful lib valid}.

Lemma small_same_but_turn n b b' : same_but_turn b b' -> small valid n b -> small valid n b'.
Proof.
  intros [_ [c Hc]] [Hv Hn]. unfold small. rewrite Hc.
  split; [now apply valid_set_turn | exact Hn].
Qed.

Lemma small_push n b m :
  small valid n b -> In m (legal_moves (pos b)) -> small valid n (push b m).
Proof.
  intros [Hv Hc] Hm. split; simpl.
  - now apply valid_apply_move.
  - pose proof (apply_move_count _ _ Hv Hm). lia.
Qed.

Lemma small_push_capture n b m :
  small valid (S n) b -> In m (legal_moves (pos b)) -> is_capture (pos b) m = true ->
  small valid n (push b m).
Proof.
  intros [Hv Hc] Hm Hcap. split; simpl.
  - now apply valid_apply_move.
  - pose proof (capture_removes_piece _ _ Hv Hm Hcap). lia.
Qed.

Lemma quiescence_loop_returns rec n :
  balanced rec -> returns_on valid n rec ->
  forall moves alpha beta e,
    small valid (S n) (board e) ->
    (forall m, In m moves -> In m (legal_moves (pos (board e)))) ->
    exists v e', quiescence_loop rec moves alpha beta e = (Ret v, e').
Proof.
  intros Hbal Hret. induction moves as [|move rest IH]; intros alpha beta e Hs Hin; simpl.
  - eauto.
  - assert (Hrest : forall m, In m rest -> In m (legal_moves (pos (board e))))
      by (intros; apply Hin; now right).
    destruct (is_capture (pos (board e)) move) eqn:Hcap; simpl; [| now apply IH].
    match goal with |- context [if ?c then _ else _] => destruct c end; [now apply IH |].
    assert (Hp : small valid n (board (set_board e (push (board e) move)))).
    { simpl. apply small_push_capture; auto. apply Hin. now left. }
    destruct (Hret (score_neg beta) (score_neg alpha) _ Hp) as (r & e2 & H2).
    unfold bind at 1. unfold board_push at 1. unfold bind at 1. rewrite H2.
    unfold bind at 1. unfold board_pop at 1.
    apply Hbal in H2. simpl in H2. apply pop_after_push in H2.
    destruct (score_leb beta (score_max alpha (score_neg r))).
    + unfold ret. eauto.
    + apply IH; simpl; rewrite H2; auto.
Qed.

Lemma evaluate_board_returns c e :
  exists v e', evaluate_board c e = (Ret v, e') /\ same_but_turn (board e) (board e').
Proof.
  unfold evaluate_board.
  pose proof (static_eval_board_same (board e)) as H.
  destruct (static_eval.evaluate_board (board e)) as [s b]. simpl in H.
  eexists _, _. split; [reflexivity | exact H].
Qed.

Lemma quiescence_returns limit : returns_on valid limit (_quiescence (S limit)).
Proof.
  induction limit as [|n IH]; intros alpha beta e Hs.
  - (* no piece can be captured: the loop never recurses *)
    cbn [_quiescence]. unfold bind at 1, count_node at 1.
    destruct (evaluate_board_returns BLACK
                (mkEngine (board e) (transposition_table e) (nodes_searched e + 1)
                          (killer_moves e) (history_table e))) as (sp & e2 & H2 & Hb).
    unfold bind at 1. rewrite H2. simpl in Hb.
    destruct (score_leb beta (Fin sp)); [unfold ret; eauto |].
    assert (Hs2 : small valid 0 (board e2)) by (eapply small_same_but_turn; eauto).
    generalize (score_max alpha (Fin sp)). intros a.
    assert (Hsub : forall m, In m (legal_moves (pos (board e2))) ->
                             In m (legal_moves (pos (board e2)))) by auto.
    revert Hsub. generalize (legal_moves (pos (board e2))) at 1 3.
    intros moves. revert a. induction moves as [|move rest IHm]; intros a Hsub; simpl.
    + unfold ret. eauto.
    + destruct (is_capture (pos (board e2)) move) eqn:Hcap; simpl.
      * exfalso. destruct Hs2 as [Hv Hc].
        pose proof (capture_removes_piece _ _ Hv (Hsub _ (or_introl eq_refl)) Hcap). lia.
      * apply IHm. intros; apply Hsub; now right.
  - cbn [_quiescence]. unfold bind at 1, count_node at 1.
    destruct (evaluate_board_returns BLACK
                (mkEngine (board e) (transposition_table e) (nodes_searched e + 1)
                          (killer_moves e) (history_table e))) as (sp & e2 & H2 & Hb).
    unfold bind at 1. rewrite H2. simpl in Hb.
    destruct (score_leb beta (Fin sp)); [unfold ret; eauto |].
    apply (quiescence_loop_returns _ n (quiescence_balanced _) IH); auto.
    eapply small_same_but_turn; eauto.
Qed.

End Returns.

Section MinimaxReturns.
Context `{lib : ChessLib} (valid : Position -> Prop) {law : Lawful lib valid}.

Lemma search_child_returns rec n first lo hi :
  balanced rec -> returns_on valid n rec -> returns_on valid n (search_child rec first lo hi).
Proof.
  intros Hbal Hret alpha beta e Hs. unfold search_child.
  destruct first; [now apply Hret |].
  destruct (Hret lo hi e Hs) as (p & e1 & H1).
  unfold bind. rewrite H1.
  destruct (score_ltb alpha p && score_ltb p beta).
  - apply Hret. apply Hbal in H1. eapply small_same_but_turn; eauto.
  - unfold ret. eauto.
Qed.

Lemma max_loop_returns rec n depth :
  balanced rec -> returns_on valid n rec ->
  forall moves first alpha beta max_eval e,
    small valid n (board e) ->
    (forall m, In m moves -> In m (legal_moves (pos (board e)))) ->
    exists v e', max_loop rec depth moves first alpha beta max_eval e = (Ret v, e').
Proof.
  intros Hbal Hret. induction moves as [|move rest IH];
    intros first alpha beta max_eval e Hs Hin; simpl.
  - unfold ret. eauto.
  - assert (Hp : small valid n (board (set_board e (push (board e) move)))).
    { simpl. apply small_push; auto. apply Hin. now left. }
    destruct (search_child_returns rec n first alpha (score_add alpha 1) Hbal Hret
                alpha beta _ Hp) as (ev & e2 & H2).
    unfold bind at 1, board_push at 1. unfold bind at 1. rewrite H2.
    unfold bind at 1, board_pop at 1.
    apply (search_child_balanced _ _ _ _ Hbal) in H2. simpl in H2.
    apply pop_after_push in H2.
    destruct (score_leb beta (score_max alpha ev)); [eauto |].
    apply IH; simpl; rewrite H2; auto.
    intros; apply Hin; now right.
Qed.

Lemma min_loop_returns rec n depth :
  balanced rec -> returns_on valid n rec ->
  forall moves first alpha beta min_eval e,
    small valid n (board e) ->
    (forall m, In m moves -> In m (legal_moves (pos (board e)))) ->
    exists v e', min_loop rec depth moves first alpha beta min_eval e = (Ret v, e').
Proof.
  intros Hbal Hret. induction moves as [|move rest IH];
    intros first alpha beta min_eval e Hs Hin; simpl.
  - unfold ret. eauto.
  - assert (Hp : small valid n (board (set_board e (push (board e) move)))).
    { simpl. apply small_push; auto. apply Hin. now left. }
    destruct (search_child_returns rec n first (score_add beta (-1)) beta Hbal Hret
                alpha beta _ Hp) as (ev & e2 & H2).
    unfold bind at 1, board_push at 1. unfold bind at 1. rewrite H2.
    unfold bind at 1, board_pop at 1.
    apply (search_child_balanced _ _ _ _ Hbal) in H2. simpl in H2.
    apply pop_after_push in H2.
    destruct (score_leb (score_min beta ev) alpha); [eauto |].
    apply IH; simpl; rewrite H2; auto.
    intros; apply Hin; now right.
Qed.

(** [minimax] at depth [d >= 0] nests at most [d + 1] calls of its own and
    then at most one quiescence call per piece, plus one. *)
Lemma minimax_returns limit :
  forall depth is_max alpha beta e,
    0 <= depth -> valid (pos (board e)) ->
    (Z.to_nat depth + piece_count (pos (board e)) + 1 < limit)%nat ->
    exists v e', minimax limit depth is_max alpha beta e = (Ret v, e').
Proof.
  induction limit as [|limit IH]; intros depth is_max alpha beta e Hd Hv Hl; [lia |].
  cbn [minimax]. unfold bind at 1, count_node at 1.
  destruct (depth =? 0) eqn:Hd0.
  - destruct limit as [|l]; [lia |].
    apply (quiescence_returns valid). split; simpl; [exact Hv | lia].
  - apply Z.eqb_neq in Hd0. simpl.
    destruct (is_checkmate (pos (board e))); [eauto |].
    destruct (is_stalemate (pos (board e)) || is_insufficient_material (pos (board e)));
      [eauto |].
    set (e1 := mkEngine (board e) (transposition_table e) (nodes_searched e + 1)
                        (killer_moves e) (history_table e)).
    destruct (_order_moves e1 (legal_moves (pos (board e))) is_max) as [|m0 ms] eqn:Hm.
    { destruct (evaluate_board_returns BLACK e1) as (sp & e2 & H2 & _).
      unfold bind. rewrite H2. unfold ret. eauto. }
    assert (Hin : forall m, In m (m0 :: ms) -> In m (legal_moves (pos (board e1)))).
    { intros m Hmm. rewrite <- Hm in Hmm. unfold _order_moves in Hmm.
      now apply sorted_desc_In in Hmm. }
    assert (Hs : small valid (piece_count (pos (board e))) (board e1))
      by (split; simpl; [exact Hv | lia]).
    assert (Hret : forall im, returns_on valid (piece_count (pos (board e)))
                                (minimax limit (depth - 1) im)).
    { intros im a b e' [Hv' Hc']. apply IH; [lia | exact Hv' | lia]. }
    destruct is_max.
    + apply (max_loop_returns _ _ _ (minimax_balanced _ _ _) (Hret false)); auto.
    + apply (min_loop_returns _ _ _ (minimax_balanced _ _ _) (Hret true)); auto.
Qed.

Lemma root_max_returns search n :
  balanced search -> returns_on valid n search ->
  forall moves alpha beta best e,
    small valid n (board e) ->
    (forall m, In m moves -> In m (legal_moves (pos (board e)))) ->
    exists r e', root_max search moves alpha beta best e = (Ret r, e').
Proof.
  intros Hbal Hret. induction moves as [|move rest IH];
    intros alpha beta best e Hs Hin; simpl.
  - unfold ret. eauto.
  - assert (Hp : small valid n (board (set_board e (push (board e) move)))).
    { simpl. apply small_push; auto. apply Hin. now left. }
    destruct (Hret alpha beta _ Hp) as (sc & e2 & H2).
    unfold bind at 1, board_push at 1. unfold bind at 1. rewrite H2.
    unfold bind at 1, board_pop at 1.
    apply Hbal in H2. simpl in H2. apply pop_after_push in H2.
    assert (Hrest : forall m, In m rest -> In m (legal_moves (pos (board e))))
      by (intros; apply Hin; now right).
    destruct (score_ltb alpha sc); apply IH; simpl; rewrite H2; auto.
Qed.

Lemma root_min_returns search n :
  balanced search -> returns_on valid n search ->
  forall moves alpha beta best e,
    small valid n (board e) ->
    (forall m, In m moves -> In m (legal_moves (pos (board e)))) ->
    exists r e', root_min search moves alpha beta best e = (Ret r, e').
Proof.
  intros Hbal Hret. induction moves as [|move rest IH];
    intros alpha beta best e Hs Hin; simpl.
  - unfold ret. eauto.
  - assert (Hp : small valid n (board (set_board e (push (board e) move)))).
    { simpl. apply small_push; auto. apply Hin. now left. }
    destruct (Hret alpha beta _ Hp) as (sc & e2 & H2).
    unfold bind at 1, board_push at 1. unfold bind at 1. rewrite H2.
    unfold bind at 1, board_pop at 1.
    apply Hbal in H2. simpl in H2. apply pop_after_push in H2.
    assert (Hrest : forall m, In m rest -> In m (legal_moves (pos (board e))))
      by (intros; apply Hin; now right).
    destruct (score_ltb sc beta); apply IH; simpl; rewrite H2; auto.
Qed.

Lemma search_move_returns limit depth c e :
  1 <= depth -> valid (pos (board e)) ->
  (Z.to_nat depth + piece_count (pos (board e)) < limit)%nat ->
  exists m e', _search_move limit depth c e = (Ret m, e') /\ board e' = board e.
Proof.
  intros Hd Hv Hl.
  assert (Hret : forall im, returns_on valid (piece_count (pos (board e)))
                              (minimax limit (depth - 1) im)).
  { intros im a b e' [Hv' Hc']. apply minimax_returns; [lia | exact Hv' | lia]. }
  assert (Hs : small valid (piece_count (pos (board e))) (board e)) by (split; auto).
  assert (Hin : forall im m,
             In m (_order_moves e (legal_moves (pos (board e))) im) ->
             In m (legal_moves (pos (board e)))).
  { intros im m Hm. unfold _order_moves in Hm. now apply sorted_desc_In in Hm. }
  assert (Hroot : exists r e', search_root limit depth c e = (Ret r, e')).
  { unfold search_root. destruct c.
    - apply (root_min_returns _ _ (minimax_balanced _ _ _) (Hret true)); auto. apply Hin.
    - apply (root_max_returns _ _ (minimax_balanced _ _ _) (Hret false)); auto. apply Hin. }
  destruct Hroot as (r & e1 & H1).
  unfold _search_move, bind. rewrite H1.
  eexists _, _. split; [reflexivity |].
  eapply search_root_board; eauto.
Qed.

Lemma deepen_returns limit c e :
  valid (pos (board e)) ->
  forall depths best,
    (forall d, In d depths ->
               1 <= d /\ (Z.to_nat d + piece_count (pos (board e)) < limit)%nat) ->
    exists m e', deepen limit c depths best e = (Ret m, e') /\ board e' = board e.
Proof.
  intros Hv depths. revert e Hv.
  induction depths as [|d rest IH]; intros e Hv best Hd; simpl.
  - unfold ret. eauto.
  - destruct (Hd d (or_introl eq_refl)) as [H1 H2].
    destruct (search_move_returns limit d c e H1 Hv H2) as (m & e1 & Hm & Hb).
    rewrite Hm.
    destruct (IH e1) with (best := m) as (m' & e2 & Hm' & Hb').
    + now rewrite Hb.
    + intros d' Hd'. rewrite Hb. apply Hd. now right.
    + exists m', e2. split; [exact Hm' | congruence].
Qed.

Lemma depth_range_In d depth : In d (depth_range depth) -> 1 <= d <= depth.
Proof.
  unfold depth_range. rewrite in_map_iff. intros (n & <- & Hn).
  apply in_seq in Hn. lia.
Qed.

End MinimaxReturns.

(* ===================================================================== *)
(** ** Lemmas: the python-chess rules are lawful *)
(* ===================================================================== *)

Module PyChessFacts.
Import PyChessRules.

Lemma piece_count_cnt p : piece_count p = cnt (pieces p).
Proof. reflexivity. Qed.

Lemma insert_ge (l : list (option Piece)) i v :
  (length l <= i)%nat -> <[i := v]> l = l.
Proof. apply list_insert_ge. Qed.

Lemma cnt_insert (l : list (option Piece)) i v :
  (i < length l)%nat ->
  (cnt (<[i := v]> l) + occb (nth i l None) = cnt l + occb v)%nat.
Proof.
  revert i. induction l as [|x l IH]; intros i Hi; simpl in Hi; [lia |].
  destruct i as [|i].
  - unfold cnt. simpl. destruct x, v; simpl; lia.
  - assert (Hi' : (i < length l)%nat) by lia. specialize (IH i Hi').
    unfold cnt in *. simpl. destruct x; simpl; lia.
Qed.

Lemma nth_insert_same (l : list (option Piece)) i v :
  (i < length l)%nat -> nth i (<[i := v]> l) None = v.
Proof.
  revert i. induction l as [|x l IH]; intros i Hi; simpl in Hi; [lia |].
  destruct i as [|i]; simpl; [reflexivity | apply IH; lia].
Qed.

Lemma nth_insert_other (l : list (option Piece)) i j v :
  i <> j -> nth j (<[i := v]> l) None = nth j l None.
Proof.
  revert i j. induction l as [|x l IH]; intros i j Hij; [reflexivity |].
  destruct i as [|i], j as [|j]; simpl; try reflexivity; try congruence.
  apply IH. congruence.
Qed.

Lemma nth_some_lt (l : list (option Piece)) i pc :
  nth i l None = Some pc -> (i < length l)%nat.
Proof.
  intros H. destruct (Nat.lt_ge_cases i (length l)) as [|Hge]; [assumption |].
  rewrite nth_overflow in H by assumption. discriminate.
Qed.

(** Writing [None] never adds a piece; writing a piece adds at most one. *)
Lemma cnt_insert_none (l : list (option Piece)) i :
  (cnt (<[i := None]> l) <= cnt l)%nat.
Proof.
  destruct (Nat.lt_ge_cases i (length l)) as [Hlt|Hge].
  - pose proof (cnt_insert l i None Hlt). simpl in *. lia.
  - now rewrite insert_ge.
Qed.

Lemma cnt_insert_some (l : list (option Piece)) i pc :
  (cnt (<[i := Some pc]> l) <= S (cnt l))%nat.
Proof.
  destruct (Nat.lt_ge_cases i (length l)) as [Hlt|Hge].
  - pose proof (cnt_insert l i (Some pc) Hlt). simpl in *. lia.
  - rewrite insert_ge by assumption. lia.
Qed.

Lemma cnt_remove (l : list (option Piece)) i pc :
  nth i l None = Some pc -> (S (cnt (<[i := None]> l)) = cnt l)%nat.
Proof.
  intros H. pose proof (cnt_insert l i None (nth_some_lt _ _ _ H)) as E.
  rewrite H in E. simpl in E. lia.
Qed.

Lemma cnt_replace (l : list (option Piece)) i pc pc' :
  nth i l None = Some pc -> cnt (<[i := Some pc']> l) = cnt l.
Proof.
  intros H. pose proof (cnt_insert l i (Some pc') (nth_some_lt _ _ _ H)) as E.
  rewrite H in E. simpl in E. lia.
Qed.

(** [push] never adds a piece, whatever the move. *)
Lemma move_pieces_count p m : (cnt (move_pieces p m) <= cnt (pieces p))%nat.
Proof.
  unfold move_pieces.
  destruct (nth (from_square m) (pieces p) None) as [pc|] eqn:Hfrom; [| lia].
  pose proof (cnt_remove _ _ _ Hfrom) as H1.
  match goal with |- context [if ?c then _ else _] => destruct c eqn:Hc end.
  - apply andb_prop in Hc as [_ Hown]. unfold color_is in Hown.
    match type of Hown with
    | context [nth ?i ?l None] => destruct (nth i l None) as [q|] eqn:Hto; [| discriminate]
    end.
    pose proof (cnt_remove _ _ _ Hto) as H2.
    match goal with |- context [if ?c then _ else _] => destruct c end;
      match goal with |- (cnt (<[?i := Some ?a]> (<[?j := Some ?b]> ?l)) <= _)%nat =>
        pose proof (cnt_insert_some (<[j := Some b]> l) i a);
        pose proof (cnt_insert_some l j b) end; unfold insert in *; lia.
  - match goal with |- (cnt (<[?i := Some ?a]> ?l) <= _)%nat =>
      pose proof (cnt_insert_some l i a) as H3;
      assert (cnt l <= cnt (<[from_square m := None]> (pieces p)))%nat end.
    { destruct (piece_type_eqb (piece_type pc) PAWN && is_en_passant p m); [| lia].
      destruct (ep_square p); [apply cnt_insert_none | lia]. }
    unfold insert in *; lia.
Qed.

Lemma length_move_pieces p m : length (move_pieces p m) = length (pieces p).
Proof.
  unfold move_pieces.
  destruct (nth (from_square m) (pieces p) None) as [pc|]; [| reflexivity].
  repeat match goal with
         | |- context [if ?c then _ else _] => destruct c
         | |- context [match ?c with Some _ => _ | None => _ end] => destruct c
         end;
    now rewrite ?length_insert.
Qed.

Lemma piece_type_eqb_eq a b : piece_type_eqb a b = true <-> a = b.
Proof. destruct a, b; simpl; split; congruence. Qed.

Lemma color_eqb_eq a b : color_eqb a b = true <-> a = b.
Proof. destruct a, b; simpl; split; congruence. Qed.

Lemma color_eqb_opposite a b : color_eqb a b = true -> color_eqb a (opposite b) = false.
Proof. destruct a, b; simpl; congruence. Qed.

Lemma holds_inv ps pt c sq :
  holds ps pt c sq = true ->
  exists pc, nth sq ps None = Some pc /\ piece_type pc = pt /\ color pc = c.
Proof.
  unfold holds. destruct (nth sq ps None) as [pc|]; [| discriminate].
  unfold piece_eqb. simpl. intros H. apply andb_prop in H as [H1 H2].
  apply piece_type_eqb_eq in H1. apply color_eqb_eq in H2. eauto.
Qed.

Lemma color_is_inv ps c sq :
  color_is ps c sq = true -> exists pc, nth sq ps None = Some pc /\ color pc = c.
Proof.
  unfold color_is. destruct (nth sq ps None) as [pc|]; [| discriminate].
  intros H. apply color_eqb_eq in H. eauto.
Qed.

Lemma holds_other_type ps pt pt' c sq pc :
  nth sq ps None = Some pc -> piece_type pc = pt' -> pt' <> pt -> holds ps pt c sq = false.
Proof.
  intros H E Hne. unfold holds, piece_eqb. rewrite H. simpl.
  destruct (piece_type_eqb (piece_type pc) pt) eqn:Ht; [| reflexivity].
  apply piece_type_eqb_eq in Ht. congruence.
Qed.

Lemma insert_desc_In x y l : In y (insert_desc x l) <-> y = x \/ In y l.
Proof.
  induction l as [|z l IH]; simpl.
  - intuition.
  - destruct (z <=? x)%nat; simpl; rewrite ?IH; intuition.
Qed.

Lemma sort_desc_In x l : In x (sort_desc l) <-> In x l.
Proof.
  unfold sort_desc. induction l as [|a l IH]; simpl; [tauto |].
  rewrite insert_desc_In, IH. intuition.
Qed.

Lemma legal_in_pseudo p m :
  In m (generate_legal_moves p) -> In m (pseudo_legal_moves p).
Proof.
  unfold generate_legal_moves. destruct (in_check p).
  - rewrite in_app_iff, !filter_In. tauto.
  - rewrite filter_In. tauto.
Qed.

(** A move of a piece that is not a king is made as written. *)
Lemma target_unless_king ps m pc :
  nth (from_square m) ps None = Some pc -> piece_type pc <> KING ->
  to_chess960_target ps m = to_square m.
Proof.
  intros H Hk. unfold to_chess960_target.
  assert (Hno : forall c sq, sq = from_square m -> holds ps KING c sq = false).
  { intros c sq ->. eapply holds_other_type; eauto. }
  destruct (from_square m =? E1)%nat eqn:E1'.
  - apply Nat.eqb_eq in E1'. rewrite !Hno by congruence. simpl.
    destruct (from_square m =? E8)%nat eqn:E8'; [| reflexivity].
    apply Nat.eqb_eq in E8'. rewrite !Hno by congruence. reflexivity.
  - simpl. destruct (from_square m =? E8)%nat eqn:E8'; [| reflexivity].
    apply Nat.eqb_eq in E8'. rewrite !Hno by congruence. reflexivity.
Qed.

(** A king's step to a neighbouring square is made as written. *)
Lemma target_king_step ps m pc :
  nth (from_square m) ps None = Some pc -> piece_type pc = KING ->
  In (to_square m) (offsets (from_square m) KING_DELTAS) ->
  to_chess960_target ps m = to_square m.
Proof.
  intros H Hk Hin. unfold to_chess960_target.
  destruct (from_square m =? E1)%nat eqn:E1'.
  - apply Nat.eqb_eq in E1'. rewrite E1' in Hin.
    assert (Hne : (to_square m =? G1)%nat = false /\ (to_square m =? C1)%nat = false).
    { revert Hin. generalize (to_square m). intros t Hin. cbv in Hin.
      repeat (destruct Hin as [Hin|Hin]; [rewrite <- Hin; split; reflexivity |]).
      contradiction. }
    destruct Hne as [-> ->]. simpl.
    destruct (_ || _); [reflexivity | rewrite E1'; reflexivity].
  - simpl. destruct (from_square m =? E8)%nat eqn:E8'; [| reflexivity].
    apply Nat.eqb_eq in E8'. rewrite E8' in Hin.
    assert (Hne : (to_square m =? G8)%nat = false /\ (to_square m =? C8)%nat = false).
    { revert Hin. generalize (to_square m). intros t Hin. cbv in Hin.
      repeat (destruct Hin as [Hin|Hin]; [rewrite <- Hin; split; reflexivity |]).
      contradiction. }
    destruct Hne as [-> ->]. simpl. now destruct (_ || _).
Qed.

(** Taking an enemy piece on the target square with an own piece. *)
Lemma capture_on_target p m :
  color_is (pieces p) (turn p) (from_square m) = true ->
  color_is (pieces p) (opposite (turn p)) (to_square m) = true ->
  to_chess960_target (pieces p) m = to_square m ->
  (cnt (move_pieces p m) < cnt (pieces p))%nat.
Proof.
  intros Hown Hopp Htarget.
  apply color_is_inv in Hown as (pc & Hfrom & Hc).
  apply color_is_inv in Hopp as (q & Hto & Hq).
  assert (Hne : from_square m <> to_square m).
  { intros E. rewrite E in Hfrom. rewrite Hfrom in Hto. injection Hto as ->.
    rewrite Hc in Hq. now destruct (turn p). }
  unfold move_pieces. rewrite Hfrom, Htarget.
  pose proof (cnt_remove _ _ _ Hfrom) as H1.
  assert (Hto1 : nth (to_square m) (<[from_square m := None]> (pieces p)) None = Some q)
    by (rewrite nth_insert_other; auto).
  assert (Hflag : color_is (<[from_square m := None]> (pieces p)) (turn p) (to_square m) = false).
  { unfold color_is. rewrite Hto1, Hq. now destruct (turn p). }
  rewrite Hflag, andb_false_r.
  assert (Hep : is_en_passant p m = false).
  { unfold is_en_passant. destruct (ep_square p); [| reflexivity].
    unfold occupied. rewrite Hto. simpl. now rewrite !andb_false_r. }
  rewrite Hep, andb_false_r.
  erewrite cnt_replace by eassumption. unfold insert in *. lia.
Qed.

Lemma not_ep_piece p m pc :
  nth (from_square m) (pieces p) None = Some pc -> piece_type pc <> PAWN ->
  is_en_passant p m = false.
Proof.
  intros H Hp. unfold is_en_passant. destruct (ep_square p); [| reflexivity].
  rewrite !(holds_other_type _ PAWN _ _ _ _ H eq_refl Hp). simpl.
  now rewrite andb_false_r.
Qed.

Lemma not_ep_distance p m :
  Z.abs (Z.of_nat (to_square m) - Z.of_nat (from_square m)) <> 7 ->
  Z.abs (Z.of_nat (to_square m) - Z.of_nat (from_square m)) <> 9 ->
  is_en_passant p m = false.
Proof.
  intros H7 H9. unfold is_en_passant. destruct (ep_square p); [| reflexivity].
  apply Z.eqb_neq in H7, H9. rewrite H7, H9. simpl.
  now rewrite andb_false_r.
Qed.

(** A move of an own piece to an empty square that is not an en-passant
    capture takes nothing. *)
Lemma no_capture p m :
  color_is (pieces p) (turn p) (from_square m) = true ->
  occupied (pieces p) (to_square m) = false ->
  is_en_passant p m = false ->
  capture p m = false.
Proof.
  intros Hown Hempty Hep. unfold capture. rewrite Hep.
  apply color_is_inv in Hown as (pc & Hfrom & Hc).
  unfold color_is, occupied in *. rewrite Hfrom, Hc.
  destruct (nth (to_square m) (pieces p) None); [discriminate |].
  now destruct (turn p).
Qed.

Lemma promotions_of_inv frm to m :
  In m (promotions_of frm to) -> from_square m = frm /\ to_square m = to.
Proof.
  unfold promotions_of. destruct (_ || _); simpl; intuition; subst; auto.
Qed.

Lemma own_pawns_inv p frm :
  In frm (own_pawns p) -> holds (pieces p) PAWN (turn p) frm = true.
Proof. unfold own_pawns. rewrite filter_In. tauto. Qed.

Lemma holds_color_is ps pt c sq : holds ps pt c sq = true -> color_is ps c sq = true.
Proof.
  intros H. apply holds_inv in H as (pc & Hn & _ & Hc).
  unfold color_is. rewrite Hn. now apply color_eqb_eq.
Qed.

Lemma piece_moves_capture p m :
  In m (piece_moves p) -> capture p m = true ->
  (cnt (move_pieces p m) < cnt (pieces p))%nat.
Proof.
  unfold piece_moves. rewrite in_flat_map. intros (frm & _ & H) Hcap.
  destruct (color_is (pieces p) (turn p) frm
            && negb (holds (pieces p) PAWN (turn p) frm)) eqn:Hc; [| contradiction].
  apply andb_prop in Hc as [Hown Hnp]. apply negb_true_iff in Hnp.
  apply in_map_iff in H as (to & <- & Hto).
  apply filter_In in Hto as [Hatt _]. rewrite sort_desc_In in Hatt.
  pose proof Hown as Hown'.
  apply color_is_inv in Hown' as (pc & Hfrom & Hcol).
  assert (Hpt : piece_type pc <> PAWN).
  { intros E. unfold holds, piece_eqb in Hnp. rewrite Hfrom in Hnp. simpl in Hnp.
    rewrite E, Hcol in Hnp. simpl in Hnp. now destruct (turn p). }
  assert (Hep : is_en_passant p (mkMove frm to None) = false)
    by (eapply not_ep_piece; simpl; eauto).
  unfold capture in Hcap. rewrite Hep, orb_false_r in Hcap. simpl in Hcap.
  assert (Hfalse : color_is (pieces p) (opposite (turn p)) frm = false).
  { unfold color_is. rewrite Hfrom, Hcol. now destruct (turn p). }
  rewrite Hfalse in Hcap. simpl in Hcap.
  apply capture_on_target; simpl; auto.
  destruct (piece_type pc) eqn:Ht;
    try (eapply target_unless_king; simpl; eauto; congruence).
  eapply target_king_step; simpl; eauto.
  unfold attacks_from in Hatt. now rewrite Hfrom, Ht in Hatt.
Qed.

Lemma pawn_captures_capture p m :
  In m (pawn_captures p) -> (cnt (move_pieces p m) < cnt (pieces p))%nat.
Proof.
  unfold pawn_captures. rewrite in_flat_map. intros (frm & Hfrm & H).
  apply in_flat_map in H as (to & Hto & Hm).
  apply promotions_of_inv in Hm as [Ef Et].
  apply filter_In in Hto as [_ Hopp]. apply own_pawns_inv in Hfrm.
  apply capture_on_target; rewrite ?Ef, ?Et; auto.
  - eapply holds_color_is; eauto.
  - apply holds_inv in Hfrm as (pc & Hn & Hpt & _).
    rewrite <- Et. eapply target_unless_king; rewrite ?Ef; eauto. congruence.
Qed.

Lemma forward_distance us frm n to :
  forward us frm n = Some to ->
  Z.abs (Z.of_nat to - Z.of_nat frm) = Z.of_nat n.
Proof.
  unfold forward. destruct us.
  - destruct (frm + n <? 64)%nat; intros [= <-]. lia.
  - destruct (n <=? frm)%nat eqn:E; intros [= <-]. apply Nat.leb_le in E. lia.
Qed.

Lemma pawn_single_moves_quiet p m : In m (pawn_single_moves p) -> capture p m = false.
Proof.
  unfold pawn_single_moves. rewrite in_flat_map. intros (frm & Hfrm & H).
  destruct (forward (turn p) frm 8) as [to|] eqn:Hf; [| contradiction].
  destruct (occupied (pieces p) to) eqn:Hocc; [contradiction |].
  apply promotions_of_inv in H as [Ef Et]. apply own_pawns_inv in Hfrm.
  apply forward_distance in Hf.
  apply no_capture; rewrite ?Ef, ?Et; auto.
  - eapply holds_color_is; eauto.
  - apply not_ep_distance; rewrite Ef, Et; lia.
Qed.

Lemma pawn_double_moves_quiet p m : In m (pawn_double_moves p) -> capture p m = false.
Proof.
  unfold pawn_double_moves. rewrite in_flat_map. intros (frm & Hfrm & H).
  destruct (forward (turn p) frm 8) as [mid|]; [| contradiction].
  destruct (forward (turn p) frm 16) as [to|] eqn:Hf; [| contradiction].
  match type of H with In _ (if ?c then _ else _) => destruct c eqn:Hc end;
    [| contradiction].
  destruct H as [<- | []]. simpl.
  apply andb_prop in Hc as [Hc _]. apply andb_prop in Hc as [_ Hocc].
  apply negb_true_iff in Hocc. apply own_pawns_inv in Hfrm.
  apply forward_distance in Hf.
  apply no_capture; simpl; auto.
  - eapply holds_color_is; eauto.
  - apply not_ep_distance; simpl; lia.
Qed.

Lemma castling_side_quiet p (right : bool) e king_to empty king_path attacked m :
  In m (if right
           && forallb (fun s => negb (occupied (pieces p) s)) empty
           && king_path && attacked
        then [mkMove e king_to None] else []) ->
  (right = true -> holds (pieces p) KING (turn p) e = true) ->
  In king_to empty ->
  capture p m = false.
Proof.
  intros H Hking Hin.
  destruct (right && _ && king_path && attacked) eqn:Hc; [| contradiction].
  destruct H as [<- | []].
  apply andb_prop in Hc as [Hc _]. apply andb_prop in Hc as [Hc _].
  apply andb_prop in Hc as [Hr Hempty].
  specialize (Hking Hr).
  rewrite forallb_forall in Hempty. specialize (Hempty _ Hin).
  apply negb_true_iff in Hempty.
  apply no_capture; simpl; auto.
  - eapply holds_color_is; eauto.
  - apply holds_inv in Hking as (pc & Hn & Hpt & _).
    eapply not_ep_piece; simpl; eauto. congruence.
Qed.

Lemma castling_moves_quiet p m : In m (castling_moves p) -> capture p m = false.
Proof.
  unfold castling_moves. cbv zeta. rewrite in_app_iff. intros [H | H].
  - eapply castling_side_quiet; [exact H | | simpl; auto].
    unfold clean_castling_rights. destruct (turn p); simpl; intros Hr;
      repeat (apply andb_prop in Hr as [Hr ?]); assumption.
  - eapply castling_side_quiet; [exact H | | simpl; auto].
    unfold clean_castling_rights. destruct (turn p); simpl; intros Hr;
      repeat (apply andb_prop in Hr as [Hr ?]); assumption.
Qed.

Lemma ep_geometry :
  forallb (fun ep => ep_geometry_ok WHITE ep && ep_geometry_ok BLACK ep) SQUARES = true.
Proof. vm_compute. reflexivity. Qed.

Lemma ep_moves_capture p m :
  validb p = true -> In m (ep_moves p) -> capture p m = true ->
  (cnt (move_pieces p m) < cnt (pieces p))%nat.
Proof.
  intros Hv Hin Hcap. unfold ep_moves in Hin.
  destruct (ep_square p) as [ep|] eqn:Hep; [| contradiction].
  destruct (occupied (pieces p) ep) eqn:Hocc; [contradiction |].
  apply in_map_iff in Hin as (frm & <- & Hfrm).
  apply filter_In in Hfrm as [Hpawn Hgeo].
  apply andb_prop in Hgeo as [Hrank Hatt].
  apply existsb_exists in Hatt as (x & Hx & Ex). apply Nat.eqb_eq in Ex. subst x.
  apply own_pawns_inv in Hpawn.
  (* validity: the captured pawn is there *)
  unfold validb in Hv. rewrite Hep in Hv.
  apply andb_prop in Hv as [_ Hv]. apply andb_prop in Hv as [Hv H2].
  apply andb_prop in Hv as [Hlt H5]. apply Nat.ltb_lt in Hlt.
  pose proof ep_geometry as G. rewrite forallb_forall in G.
  assert (Hsq : In ep SQUARES) by (apply in_seq; lia).
  specialize (G _ Hsq). apply andb_prop in G as [GW GB].
  set (cap := match turn p with WHITE => (ep - 8)%nat | BLACK => (ep + 8)%nat end).
  assert (Hcapsq : occupied (pieces p) cap = true /\ frm <> cap /\ frm <> ep).
  { unfold cap. destruct (turn p).
    - unfold ep_geometry_ok in GW. rewrite forallb_forall in GW.
      specialize (GW _ Hx). rewrite Hrank in GW. simpl in GW.
      apply andb_prop in GW as [GW Hne2]. apply andb_prop in GW as [Hr5 Hne1].
      rewrite Hr5 in H5. simpl in H5.
      apply negb_true_iff, Nat.eqb_neq in Hne1, Hne2. auto.
    - unfold ep_geometry_ok in GB. rewrite forallb_forall in GB.
      specialize (GB _ Hx). rewrite Hrank in GB. simpl in GB.
      apply andb_prop in GB as [GB Hne2]. apply andb_prop in GB as [Hr2 Hne1].
      rewrite Hr2 in H2. simpl in H2.
      apply negb_true_iff, Nat.eqb_neq in Hne1, Hne2. auto. }
  destruct Hcapsq as (Hcapocc & Hne1 & Hne2).
  (* the move is an en-passant capture *)
  assert (Hown : color_is (pieces p) (turn p) frm = true)
    by (eapply holds_color_is; eauto).
  assert (Hisep : is_en_passant p (mkMove frm ep None) = true).
  { unfold capture in Hcap. simpl in Hcap.
    apply color_is_inv in Hown as (pc & Hn & Hc).
    unfold color_is, occupied in Hcap, Hocc. rewrite Hn, Hc in Hcap.
    destruct (nth ep (pieces p) None); [discriminate |].
    destruct (turn p); simpl in Hcap; exact Hcap. }
  apply holds_inv in Hpawn as (pc & Hfrom & Hpt & Hcol).
  unfold move_pieces. simpl from_square.
  rewrite Hfrom.
  rewrite (target_unless_king (pieces p) (mkMove frm ep None) pc Hfrom)
    by (rewrite Hpt; discriminate).
  rewrite Hpt, Hisep, Hep. simpl.
  fold cap.
  pose proof (cnt_remove _ _ _ Hfrom) as H1.
  unfold occupied in Hcapocc.
  destruct (nth cap (pieces p) None) as [q|] eqn:Hq; [| discriminate].
  assert (Hq1 : nth cap (<[frm := None]> (pieces p)) None = Some q)
    by (rewrite nth_insert_other; auto).
  pose proof (cnt_remove _ _ _ Hq1) as H3.
  match goal with |- (cnt (<[?i := Some ?a]> ?l) < _)%nat =>
    pose proof (cnt_insert_some l i a) end.
  unfold insert in *. lia.
Qed.

(** Every capture the generator produces removes a piece. *)
Lemma capture_count p m :
  validb p = true -> In m (generate_legal_moves p) -> capture p m = true ->
  (cnt (move_pieces p m) < cnt (pieces p))%nat.
Proof.
  intros Hv Hin Hcap. apply legal_in_pseudo in Hin.
  unfold pseudo_legal_moves in Hin. rewrite !in_app_iff in Hin.
  destruct Hin as [H | [H | [H | [H | [H | H]]]]].
  - now apply piece_moves_capture.
  - apply castling_moves_quiet in H. congruence.
  - now apply pawn_captures_capture.
  - apply pawn_single_moves_quiet in H. congruence.
  - apply pawn_double_moves_quiet in H. congruence.
  - now apply ep_moves_capture.
Qed.

(** A double pawn advance leaves the pawn behind the new en-passant square. *)
Lemma validb_push_position p m : validb p = true -> validb (push_position p m) = true.
Proof.
  intros Hv. unfold validb in *. apply andb_prop in Hv as [Hlen _].
  apply Nat.eqb_eq in Hlen.
  unfold push_position. cbn [pieces ep_square].
  rewrite length_move_pieces, Hlen. simpl andb.
  destruct (nth (from_square m) (pieces p) None) as [pc|] eqn:Hfrom; [| reflexivity].
  destruct (piece_type_eqb (piece_type pc) PAWN) eqn:Hpt; [| reflexivity].
  apply piece_type_eqb_eq in Hpt.
  assert (Hocc : (to_square m < 64)%nat ->
                 occupied (move_pieces p m) (to_square m) = true).
  { intros Hlt. unfold move_pieces. rewrite Hfrom.
    rewrite (target_unless_king (pieces p) m pc Hfrom) by (rewrite Hpt; discriminate).
    rewrite Hpt. simpl.
    unfold occupied. rewrite nth_insert_same; [reflexivity |].
    destruct (is_en_passant p m); [destruct (ep_square p) |];
      rewrite ?length_insert; lia. }
  assert (Hfl : (from_square m < 64)%nat)
    by (rewrite <- Hlen; eapply nth_some_lt; eauto).
  unfold square_rank.
  destruct ((Z.of_nat (to_square m) - Z.of_nat (from_square m) =? 16)
            && (from_square m / 8 =? 1)%nat) eqn:Hup.
  - apply andb_prop in Hup as [Hd Hr]. apply Z.eqb_eq in Hd. apply Nat.eqb_eq in Hr.
    pose proof (Nat.div_mod_eq (from_square m) 8) as Hdm.
    pose proof (Nat.mod_upper_bound (from_square m) 8 ltac:(lia)) as Hmb.
    assert (Hrk : ((from_square m + 8) / 8 = 2)%nat).
    { symmetry. apply (Nat.div_unique _ 8 2 (from_square m mod 8)); lia. }
    rewrite Hrk. simpl.
    replace (from_square m + 8 + 8)%nat with (to_square m) by lia.
    rewrite Hocc by lia. simpl. rewrite ?andb_true_r. apply Nat.ltb_lt. lia.
  - destruct ((Z.of_nat (to_square m) - Z.of_nat (from_square m) =? -16)
              && (from_square m / 8 =? 6)%nat) eqn:Hdown; [| reflexivity].
    apply andb_prop in Hdown as [Hd Hr]. apply Z.eqb_eq in Hd. apply Nat.eqb_eq in Hr.
    pose proof (Nat.div_mod_eq (from_square m) 8) as Hdm.
    pose proof (Nat.mod_upper_bound (from_square m) 8 ltac:(lia)) as Hmb.
    assert (Hrk : ((from_square m - 8) / 8 = 5)%nat).
    { symmetry. apply (Nat.div_unique _ 8 5 (from_square m mod 8)); lia. }
    rewrite Hrk. simpl.
    replace (from_square m - 8 - 8)%nat with (to_square m) by lia.
    rewrite Hocc by lia. simpl. rewrite ?andb_true_r. apply Nat.ltb_lt. lia.
Qed.

(** The rules of [PyChess] satisfy what the engine assumes. *)
Lemma pychess_lawful : Lawful PyChess (fun p => validb p = true).
Proof.
  constructor; simpl.
  - intros p m Hv _. now apply validb_push_position.
  - intros p c Hv. exact Hv.
  - intros p m _ _. apply move_pieces_count.
  - intros p m Hv Hin Hcap. now apply capture_count.
Qed.

(** The generator reproduces the published move counts of the standard
    test positions (castling, en passant, pins, promotions). *)
Lemma perft_reference_counts :
  perft 2 (Fen.parse "rnbqkbnr/pppppppp/8/8/8/8/PPPPPPPP/RNBQKBNR w KQkq - 0 1") = 400%nat
  /\ perft 2 (Fen.parse "r3k2r/p1ppqpb1/bn2pnp1/3PN3/1p2P3/2N2Q1p/PPPBBPPP/R3K2R w KQkq - 0 1")
     = 2039%nat
  /\ perft 3 (Fen.parse "8/2p5/3p4/KP5r/1R3p1k/8/4P1P1/8 w - - 0 1") = 2812%nat
  /\ perft 2 (Fen.parse "r3k2r/Pppp1ppp/1b3nbN/nP6/BBP1P3/q4N2/Pp1P2PP/R2Q1RK1 w kq - 0 1")
     = 264%nat
  /\ perft 2 (Fen.parse "rnbq1k1r/pp1Pbppp/2p5/8/2B5/8/PPP1NnPP/RNBQK2R w KQ - 1 8")
     = 1486%nat.
Proof.
  do 4 (split; [vm_compute; reflexivity |]). vm_compute; reflexivity.
Qed.

End PyChessFacts.

(* ===================================================================== *)
(** ** Quiescence search: window and termination *)
(* ===================================================================== *)

Section QuiescenceWindow.
Context `{lib : ChessLib}.

Lemma quiescence_loop_window rec :
  forall moves alpha beta e v e',
    score_ltb alpha beta = true ->
    quiescence_loop rec moves alpha beta e = (Ret v, e') ->
    v = beta \/ (score_leb alpha v = true /\ score_ltb v beta = true).
Proof.
  induction moves as [|move rest IH]; intros alpha beta e v e' Hab; simpl.
  - intros [= <- _]. right. split; [apply score_leb_refl | exact Hab].
  - destruct (negb (is_capture (pos (board e)) move)); [now apply IH |].
    match goal with |- context [if ?c then _ else _] => destruct c end; [now apply IH |].
    intros H.
    apply bind_ret_inv in H as ([] & e1 & _ & H).
    apply bind_ret_inv in H as (r & e2 & _ & H).
    apply bind_ret_inv in H as ([] & e3 & _ & H).
    destruct (score_leb beta (score_max alpha (score_neg r))) eqn:Hcut.
    + injection H as <- _. now left.
    + apply score_leb_false_ltb in Hcut.
      apply IH in H; [| exact Hcut].
      destruct H as [-> | [Hle Hlt]]; [now left | right].
      split; [| exact Hlt].
      eapply score_leb_trans; [apply score_max_ge_l | exact Hle].
Qed.

(** The value [_quiescence] returns, against the window it was given and
    the stand-pat score of the position. *)
Lemma quiescence_window limit alpha beta e v e' :
  score_ltb alpha beta = true ->
  _quiescence limit alpha beta e = (Ret v, e') ->
  let stand_pat := Fin (- fst (static_eval.evaluate_board (board e))) in
  (score_leb beta stand_pat = true -> v = beta)
  /\ (v = beta
      \/ (score_leb alpha v = true /\ score_leb stand_pat v = true
          /\ score_ltb v beta = true)).
Proof.
  intros Hab. destruct limit as [|limit]; simpl; [discriminate |].
  intros H.
  apply bind_ret_inv in H as ([] & e1 & H1 & H). injection H1 as <-.
  apply bind_ret_inv in H as (sp & e2 & H2 & H).
  unfold evaluate_board in H2. simpl in H2.
  destruct (static_eval.evaluate_board (board e)) as [s b]. injection H2 as <- <-. simpl.
  destruct (score_leb beta (Fin (- s))) eqn:Hsp.
  - injection H as <- _. split; auto.
  - split; [discriminate |].
    apply score_leb_false_ltb in Hsp.
    apply quiescence_loop_window in H; [| now apply score_max_lt].
    destruct H as [-> | [Hle Hlt]]; [now left | right].
    repeat split; auto.
    + eapply score_leb_trans; [apply score_max_ge_l | exact Hle].
    + eapply score_leb_trans; [apply score_max_ge_r | exact Hle].
Qed.

End QuiescenceWindow.

(* ===================================================================== *)
(** ** The capture search and its cutoffs *)
(* ===================================================================== *)

Ltac score_crush :=
  unfold clamp, score_max, score_min, score_leb, score_ltb, score_neg in *;
  repeat match goal with
         | s : Score |- _ => destruct s
         end;
  simpl in *;
  repeat (match goal with
          | |- context [?x <? ?y] => destruct (Z.ltb_spec x y)
          | H : context [?x <? ?y] |- _ => destruct (Z.ltb_spec x y)
          end; simpl in *);
  try congruence; try (f_equal; lia); try lia.

Lemma score_max_assoc a b c : score_max (score_max a b) c = score_max a (score_max b c).
Proof. score_crush. Qed.

Lemma clamp_step a beta v :
  score_ltb a beta = true ->
  let a' := score_max a (score_neg (clamp (score_neg beta) (score_neg a) v)) in
  (score_leb beta a' = true -> score_leb beta (score_max a (score_neg v)) = true)
  /\ (score_leb beta a' = false -> a' = score_max a (score_neg v)).
Proof. intros H. cbv zeta. split; intros H'; score_crush. Qed.

Lemma score_neg_window a beta :
  score_ltb a beta = true -> score_ltb (score_neg beta) (score_neg a) = true.
Proof. score_crush. Qed.

Lemma clamp_max alpha beta v :
  score_ltb alpha beta = true ->
  (if score_leb beta (score_max alpha v) then beta else score_max alpha v)
  = clamp alpha beta v.
Proof. score_crush. Qed.

Lemma score_leb_max beta a s :
  score_leb beta (score_max a s) = true
  <-> score_leb beta a = true \/ score_leb beta s = true.
Proof.
  unfold score_max. destruct (score_ltb a s) eqn:E.
  - split; [auto | intros [H | H]; [| exact H]].
    eapply score_leb_trans; [exact H | now apply score_ltb_leb].
  - split; [auto | intros [H | H]; [exact H |]].
    eapply score_leb_trans; [exact H |]. unfold score_leb. now rewrite E.
Qed.

Lemma fold_max_reaches beta :
  forall l a,
    score_leb beta (fold_left score_max l a) = true
    <-> score_leb beta a = true \/ Exists (score_le beta) l.
Proof.
  induction l as [|s l IH]; intros a; simpl.
  - split; [auto | intros [H | H]; [exact H | inversion H]].
  - rewrite IH, score_leb_max. split.
    + intros [[H | H] | H]; auto.
    + intros [H | H]; [auto |].
      inversion H; subst; auto.
Qed.

Lemma fold_max_from alpha :
  forall l x,
    fold_left score_max l (score_max alpha x) = score_max alpha (fold_left score_max l x).
Proof.
  induction l as [|s l IH]; intros x; simpl; [reflexivity |].
  now rewrite score_max_assoc, IH.
Qed.

Section CaptureSearch.
Context `{lib : ChessLib}.

Lemma capture_loop_ge rec b :
  forall moves best w, capture_loop rec b moves best = Some w -> score_leb best w = true.
Proof.
  induction moves as [|m rest IH]; intros best w; simpl.
  - intros [= <-]. apply score_leb_refl.
  - destruct (searched_capture (pos b) m); [| apply IH].
    destruct (rec (push b m)) as [v|]; [| discriminate].
    intros H. apply IH in H.
    eapply score_leb_trans; [apply score_max_ge_l | exact H].
Qed.

Lemma capture_loop_max rec b alpha :
  forall moves best,
    capture_loop rec b moves (score_max alpha best)
    = option_map (score_max alpha) (capture_loop rec b moves best).
Proof.
  induction moves as [|m rest IH]; intros best; simpl; [reflexivity |].
  destruct (searched_capture (pos b) m); [| apply IH].
  destruct (rec (push b m)) as [v|]; [| reflexivity].
  rewrite score_max_assoc. apply IH.
Qed.

(** The loop of [_quiescence] against the loop without cutoffs. *)
Lemma quiescence_loop_sound (rec : Score -> Score -> M Score)
    (ref : Board -> option Score) (b : Board) (beta : Score) :
  balanced rec ->
  (forall alpha beta e v,
      score_ltb alpha beta = true -> ref (board e) = Some v ->
      exists e', rec alpha beta e = (Ret (clamp alpha beta v), e')) ->
  forall moves a e w,
    board e = b -> score_ltb a beta = true ->
    capture_loop ref b moves a = Some w ->
    exists e', quiescence_loop rec moves a beta e
               = (Ret (if score_leb beta w then beta else w), e').
Proof.
  intros Hbal Hrec. induction moves as [|move rest IH]; intros a e w Hb Ha; simpl.
  - intros [= <-]. unfold ret, score_leb. rewrite Ha. simpl. eauto.
  - rewrite Hb. unfold searched_capture.
    destruct (is_capture (pos b) move); simpl; [| now apply IH].
    match goal with |- context [if negb ?c then _ else _] => destruct c end; simpl;
      [now apply IH |].
    destruct (ref (push b move)) as [v|] eqn:Hv; [| discriminate].
    intros Hw.
    destruct (Hrec (score_neg beta) (score_neg a) (set_board e (push (board e) move)) v)
      as (e2 & H2).
    { now apply score_neg_window. }
    { simpl. now rewrite Hb. }
    unfold bind at 1. unfold board_push at 1. unfold bind at 1. rewrite H2.
    unfold bind at 1. unfold board_pop at 1.
    apply Hbal in H2. simpl in H2. apply pop_after_push in H2.
    destruct (clamp_step a beta v Ha) as [Hcut Hgo].
    destruct (score_leb beta
                (score_max a (score_neg (clamp (score_neg beta) (score_neg a) v)))) eqn:Hc.
    + apply capture_loop_ge in Hw.
      rewrite (score_leb_trans _ _ _ (Hcut eq_refl) Hw). unfold ret. eauto.
    + rewrite (Hgo eq_refl). apply IH; [simpl; congruence | | exact Hw].
      rewrite <- (Hgo eq_refl). now apply score_leb_false_ltb.
Qed.

Lemma quiescence_sound limit :
  forall alpha beta e v,
    score_ltb alpha beta = true -> capture_search limit (board e) = Some v ->
    exists e', _quiescence limit alpha beta e = (Ret (clamp alpha beta v), e').
Proof.
  induction limit as [|limit IH]; intros alpha beta e v Hab; [discriminate |].
  cbn [capture_search _quiescence].
  unfold bind at 1, count_node at 1. unfold bind at 1, evaluate_board at 1.
  cbn [board].
  destruct (static_eval.evaluate_board (board e)) as [score b1].
  intros Hv.
  destruct (score_leb beta (Fin (- score))) eqn:Hsp.
  - apply capture_loop_ge in Hv. unfold ret, clamp.
    rewrite (score_leb_trans _ _ _ Hsp Hv). eauto.
  - assert (Ha : score_ltb (score_max alpha (Fin (- score))) beta = true).
    { apply score_max_lt; [exact Hab | now apply score_leb_false_ltb]. }
    rewrite <- (clamp_max alpha beta v Hab).
    cbn [board set_board].
    eapply (quiescence_loop_sound (_quiescence limit) (capture_search limit) b1 beta
              (quiescence_balanced limit) IH); [reflexivity | exact Ha |].
    rewrite capture_loop_max, Hv. reflexivity.
Qed.

Lemma capture_loop_scores rec b :
  forall moves best w,
    capture_loop rec b moves best = Some w ->
    w = fold_left score_max (capture_scores rec b moves) best
    /\ length (capture_scores rec b moves)
       = length (List.filter (searched_capture (pos b)) moves).
Proof.
  induction moves as [|m rest IH]; intros best w; simpl.
  - intros [= <-]. auto.
  - destruct (searched_capture (pos b) m); [| apply IH].
    destruct (rec (push b m)) as [v|]; [| discriminate].
    intros H. apply IH in H as [-> Hlen]. simpl. split; [reflexivity | now rewrite Hlen].
Qed.

End CaptureSearch.

Section CaptureSearchTotal.
Context `{lib : ChessLib} (valid : Position -> Prop) {law : Lawful lib valid}.

Lemma capture_loop_total rec b :
  forall moves x,
    (forall m, In m moves -> is_capture (pos b) m = true ->
               exists z, rec (push b m) = Some (Fin z)) ->
    exists z, capture_loop rec b moves (Fin x) = Some (Fin z).
Proof.
  induction moves as [|m rest IH]; intros x Hrec; simpl; [eauto |].
  assert (Hrest : forall m', In m' rest -> is_capture (pos b) m' = true ->
                             exists z, rec (push b m') = Some (Fin z))
    by (intros; apply Hrec; [now right | assumption]).
  unfold searched_capture. destruct (is_capture (pos b) m) eqn:Hcap; simpl; [| now apply IH].
  match goal with |- context [if negb ?c then _ else _] => destruct c end; simpl;
    [now apply IH |].
  destruct (Hrec m (or_introl eq_refl) Hcap) as [z ->]. simpl.
  unfold score_max, score_ltb. destruct (x <? - z); now apply IH.
Qed.

Lemma capture_search_total n :
  forall b, small valid n b -> exists z, capture_search (S n) b = Some (Fin z).
Proof.
  induction n as [|n IH]; intros b Hs; cbn [capture_search];
    pose proof (static_eval_board_same b) as Hsame;
    destruct (static_eval.evaluate_board b) as [score b1]; cbn [snd] in Hsame;
    apply (small_same_but_turn valid _ _ _ Hsame) in Hs;
    apply capture_loop_total; intros m Hin Hcap.
  - exfalso. destruct Hs as [Hv Hc].
    pose proof (capture_removes_piece _ _ Hv Hin Hcap). lia.
  - apply IH. now apply (small_push_capture valid).
Qed.

End CaptureSearchTotal.

(** C6. Called with [alpha < beta] on a valid position and within the
    recursion budget, [_quiescence] returns a value [v] with
    [alpha <= v <= beta].  The score of a searched capture is the negated
    value of the capture search at the position after it
    ([capture_scores]; there is one for every searched capture).  The
    value returned is exactly [beta] when the stand-pat score or the score
    of a searched capture reaches [beta]; otherwise it is the running alpha,
    the maximum of the original alpha, the stand-pat score and the scores of
    the searched captures, and it is strictly below [beta]. *)
Theorem quiescence_within_window `{lib : ChessLib} (valid : Position -> Prop)
    {law : Lawful lib valid} (limit : nat) (alpha beta : Score) (e : Engine) :
  score_lt alpha beta ->
  valid (pos (board e)) ->
  (piece_count (pos (board e)) < limit)%nat ->
  let stand_pat := Fin (- fst (static_eval.evaluate_board (board e))) in
  let b := snd (static_eval.evaluate_board (board e)) in
  let scores := capture_scores (capture_search (pred limit)) b (legal_moves (pos b)) in
  exists v e',
    _quiescence limit alpha beta e = (Ret v, e')
    /\ score_le alpha v /\ score_le v beta
    /\ (score_le beta stand_pat -> v = beta)
    /\ (v <> beta -> score_le stand_pat v /\ score_lt v beta)
    /\ length scores = length (List.filter (searched_capture (pos b)) (legal_moves (pos b)))
    /\ (score_le beta stand_pat \/ Exists (score_le beta) scores -> v = beta)
    /\ (~ (score_le beta stand_pat \/ Exists (score_le beta) scores) ->
        v = fold_left score_max scores (score_max alpha stand_pat)
        /\ score_lt v beta).
Proof.
  intros Hab Hv Hl stand_pat b scores. destruct limit as [|limit]; [lia |].
  destruct (capture_search_total valid limit (board e)) as [z Hz].
  { split; [exact Hv | lia]. }
  destruct (quiescence_sound (S limit) alpha beta e (Fin z) Hab Hz) as [e' H].
  exists (clamp alpha beta (Fin z)), e'. split; [exact H |].
  destruct (quiescence_window _ _ _ _ _ _ Hab H) as [Hsp Hcases].
  cbn [capture_search] in Hz. subst stand_pat b scores. cbn [pred].
  destruct (static_eval.evaluate_board (board e)) as [s b1]. cbn [fst snd] in *.
  apply capture_loop_scores in Hz as [Hz Hlen].
  assert (Hreach : score_leb beta (Fin z) = true
                   <-> score_le beta (Fin (- s))
                       \/ Exists (score_le beta)
                            (capture_scores (capture_search limit) b1 (legal_moves (pos b1)))).
  { rewrite Hz. apply fold_max_reaches. }
  unfold score_le, score_lt in *.
  assert (Hwin : score_leb alpha (clamp alpha beta (Fin z)) = true
                 /\ score_leb (clamp alpha beta (Fin z)) beta = true).
  { destruct Hcases as [-> | (Ha & Hs & Hb)].
    - split; [now apply score_ltb_leb | apply score_leb_refl].
    - split; [exact Ha | now apply score_ltb_leb]. }
  destruct Hwin as [Hw1 Hw2].
  split; [exact Hw1 |]. split; [exact Hw2 |]. split; [exact Hsp |].
  split.
  { intros Hne. destruct Hcases as [E | (Ha & Hs & Hb)]; [contradiction | now split]. }
  split; [exact Hlen |].
  split.
  { intros Hr. apply Hreach in Hr. unfold clamp. now rewrite Hr. }
  intros Hn. unfold clamp.
  destruct (score_leb beta (Fin z)) eqn:E; [exfalso; apply Hn; now apply Hreach |].
  split.
  - rewrite fold_max_from. now rewrite <- Hz.
  - apply score_max_lt; [exact Hab | now apply score_leb_false_ltb].
Qed.

Lemma quiescence_within_window_witness :
  let e := new_engine (Fen.board "k7/8/8/3p4/2P1P3/8/8/K7 w - - 0 1") in
  (let stand_pat := Fin (- fst (static_eval.evaluate_board (lib := PyChess) (board e))) in
   let b := snd (static_eval.evaluate_board (lib := PyChess) (board e)) in
   let scores :=
     capture_scores (lib := PyChess) (capture_search (lib := PyChess) (pred 40)) b
                    (legal_moves (ChessLib := PyChess) (pos b)) in
   exists v e',
     _quiescence (lib := PyChess) 40 (Fin (-2000)) (Fin 2000) e = (Ret v, e')
     /\ score_le (Fin (-2000)) v /\ score_le v (Fin 2000)
     /\ (score_le (Fin 2000) stand_pat -> v = Fin 2000)
     /\ (v <> Fin 2000 -> score_le stand_pat v /\ score_lt v (Fin 2000))
     /\ length scores
        = length (List.filter (searched_capture (lib := PyChess) (pos b))
                              (legal_moves (ChessLib := PyChess) (pos b)))
     /\ (score_le (Fin 2000) stand_pat \/ Exists (score_le (Fin 2000)) scores ->
         v = Fin 2000)
     /\ (~ (score_le (Fin 2000) stand_pat \/ Exists (score_le (Fin 2000)) scores) ->
         v = fold_left score_max scores (score_max (Fin (-2000)) stand_pat)
         /\ score_lt v (Fin 2000)))
  /\ capture_scores (lib := PyChess) (capture_search (lib := PyChess) 39)
       (snd (static_eval.evaluate_board (lib := PyChess) (board e)))
       (legal_moves (ChessLib := PyChess)
          (pos (snd (static_eval.evaluate_board (lib := PyChess) (board e)))))
     = [Fin 130; Fin 145]
  /\ fst (_quiescence (lib := PyChess) 40 (Fin (-2000)) (Fin 2000) e) = Ret (Fin 145)
  /\ fst (_quiescence (lib := PyChess) 40 (Fin (-50)) (Fin 50) e) = Ret (Fin 50).
Proof.
  intros e. split.
  - apply (quiescence_within_window (lib := PyChess) _ (law := PyChessFacts.pychess_lawful)
             40 (Fin (-2000)) (Fin 2000) e).
    + reflexivity.
    + vm_compute. reflexivity.
    + vm_compute. lia.
  - split; [vm_compute; reflexivity |].
    split; vm_compute; reflexivity.
Defined.

(** C10. [_quiescence] terminates on every valid position: it recurses only
    through captures, each of which leaves one piece fewer on the board, so
    a budget of one nested call more than there are pieces is never
    exhausted. *)
Theorem quiescence_terminates `{lib : ChessLib} (valid : Position -> Prop)
    {law : Lawful lib valid} (limit : nat) (alpha beta : Score) (e : Engine) :
  valid (pos (board e)) ->
  (piece_count (pos (board e)) < limit)%nat ->
  exists v e', _quiescence limit alpha beta e = (Ret v, e').
Proof.
  intros Hv Hl. destruct limit as [|limit]; [lia |].
  apply (quiescence_returns valid). split; [exact Hv | lia].
Qed.

Lemma quiescence_terminates_witness :
  exists v e',
    _quiescence (lib := PyChess) 5 NegInf PosInf
      (new_engine (Fen.board "k7/8/8/3q4/4P3/8/8/K7 w - - 0 1")) = (Ret v, e').
Proof.
  apply (quiescence_terminates (lib := PyChess) _ (law := PyChessFacts.pychess_lawful)
           5 NegInf PosInf
           (new_engine (Fen.board "k7/8/8/3q4/4P3/8/8/K7 w - - 0 1"))).
  - vm_compute. reflexivity.
  - vm_compute. lia.
Defined.

(* ===================================================================== *)
(** ** Killer and history tables *)
(* ===================================================================== *)

Lemma move_in_spec move l : move_in move l = true <-> In (Some move) l.
Proof.
  unfold move_in. rewrite existsb_exists. split.
  - intros (k & Hk & E). apply bool_decide_eq_true in E. now subst.
  - intros H. exists (Some move). split; [exact H | now apply bool_decide_eq_true].
Qed.

Lemma killer_entries_In move l : In move (killer_entries l) <-> In (Some move) l.
Proof.
  unfold killer_entries. induction l as [|[k|] l IH]; simpl.
  - tauto.
  - rewrite IH. split; intros [H | H]; auto; left; congruence.
  - rewrite IH. split; [auto | intros [H | H]; [discriminate | auto]].
Qed.

Lemma killer_entries_app l l' :
  killer_entries (l ++ l') = killer_entries l ++ killer_entries l'.
Proof. unfold killer_entries. apply omap_app. Qed.

Lemma killer_entries_removelast l :
  List.NoDup (killer_entries l) -> List.NoDup (killer_entries (removelast l)).
Proof.
  destruct l as [|x l]; [auto |].
  intros H. rewrite (app_removelast_last None (l := x :: l)) in H by discriminate.
  rewrite killer_entries_app in H. now apply NoDup_app_remove_r in H.
Qed.

Lemma length_removelast {A} (l : list A) : length (removelast l) = pred (length l).
Proof.
  destruct l as [|x l]; [reflexivity |].
  destruct (exists_last (l := x :: l)) as (l' & a & E); [discriminate |].
  rewrite E, removelast_last, length_app. simpl. lia.
Qed.

Lemma update_killer_ok move e :
  killer_ok (killer_moves e) -> killer_ok (killer_moves (_update_killer move e)).
Proof.
  intros [Hlen Hnd]. unfold _update_killer.
  destruct (move_in move (killer_moves e)) eqn:Hin; [now split |].
  assert (Hfresh : ~ In move (killer_entries (killer_moves e))).
  { rewrite killer_entries_In, <- move_in_spec. congruence. }
  assert (Hnd' : List.NoDup (killer_entries (Some move :: killer_moves e)))
    by (simpl; now constructor).
  cbn [killer_moves].
  destruct (2 <? length (Some move :: killer_moves e))%nat eqn:Hl.
  - split; [| now apply killer_entries_removelast].
    rewrite length_removelast. simpl. lia.
  - apply Nat.ltb_ge in Hl. now split.
Qed.

Lemma update_killer_records move e :
  In (Some move) (killer_moves (_update_killer move e))
  /\ (~ In (Some move) (killer_moves e) ->
      head (killer_moves (_update_killer move e)) = Some (Some move)).
Proof.
  unfold _update_killer.
  destruct (move_in move (killer_moves e)) eqn:Hin.
  - apply move_in_spec in Hin. split; [exact Hin | tauto].
  - cbn [killer_moves].
    destruct (killer_moves e) as [|k l]; [simpl; auto |].
    destruct (2 <? length (Some move :: k :: l))%nat; simpl; auto.
Qed.

Lemma update_killer_history move e :
  history_table (_update_killer move e) = history_table e.
Proof. unfold _update_killer. now destruct (move_in move (killer_moves e)). Qed.

Lemma record_cutoff_killers move depth e :
  killer_moves (record_cutoff move depth e) = killer_moves (_update_killer move e).
Proof. reflexivity. Qed.

Lemma record_cutoff_history_same move depth e :
  history_value (record_cutoff move depth e) (from_square move, to_square move)
  = history_value e (from_square move, to_square move) + depth * depth.
Proof.
  unfold history_value, record_cutoff, _update_history. cbn [history_table].
  rewrite lookup_insert_eq. simpl. now rewrite update_killer_history.
Qed.

Lemma record_cutoff_history_other move depth e key :
  key <> (from_square move, to_square move) ->
  history_value (record_cutoff move depth e) key = history_value e key.
Proof.
  intros Hne. unfold history_value, record_cutoff, _update_history. cbn [history_table].
  rewrite lookup_insert_ne by congruence. now rewrite update_killer_history.
Qed.

Lemma tables_grow_refl e : tables_grow e e.
Proof. split; [auto | intros; lia]. Qed.

Lemma tables_grow_trans e1 e2 e3 :
  tables_grow e1 e2 -> tables_grow e2 e3 -> tables_grow e1 e3.
Proof.
  intros [K1 H1] [K2 H2]. split; [auto |].
  intros key. specialize (H1 key). specialize (H2 key). lia.
Qed.

Lemma tables_grow_same e e' :
  killer_moves e' = killer_moves e -> history_table e' = history_table e ->
  tables_grow e e'.
Proof.
  intros Hk Hh. split; [now rewrite Hk |].
  intros key. unfold history_value. rewrite Hh. lia.
Qed.

Lemma record_cutoff_grows move depth e : tables_grow e (record_cutoff move depth e).
Proof.
  split.
  - rewrite record_cutoff_killers. apply update_killer_ok.
  - intros key. destruct (decide (key = (from_square move, to_square move))) as [-> | Hne].
    + rewrite record_cutoff_history_same. pose proof (Z.square_nonneg depth). lia.
    + rewrite record_cutoff_history_other by assumption. lia.
Qed.

Lemma run_cutoffs_grows events e : tables_grow e (run_cutoffs events e).
Proof.
  revert e. induction events as [|[m d] events IH]; intros e; simpl.
  - apply tables_grow_refl.
  - eapply tables_grow_trans; [apply record_cutoff_grows | apply IH].
Qed.

Section TablesInSearch.
Context `{lib : ChessLib}.

Lemma grows_ret {A} (a : A) : grows (ret a).
Proof. intros e out e' [= _ <-]. apply tables_grow_refl. Qed.

Lemma grows_raise {A} : grows (@raise A).
Proof. intros e out e' [= _ <-]. apply tables_grow_refl. Qed.

Lemma grows_bind {A B} (m : M A) (k : A -> M B) :
  grows m -> (forall a, grows (k a)) -> grows (bind m k).
Proof.
  intros Hm Hk e out e'. unfold bind.
  destruct (m e) as [[a|] e1] eqn:E.
  - intros H. eapply tables_grow_trans; [eapply Hm | eapply Hk]; eauto.
  - intros [= _ <-]. eapply Hm; eauto.
Qed.

Lemma grows_count_node : grows count_node.
Proof. intros e out e' [= _ <-]. now apply tables_grow_same. Qed.

Lemma grows_board_push move : grows (board_push move).
Proof. intros e out e' [= _ <-]. now apply tables_grow_same. Qed.

Lemma grows_board_pop : grows board_pop.
Proof. intros e out e' [= _ <-]. now apply tables_grow_same. Qed.

Lemma grows_evaluate_board c : grows (evaluate_board c).
Proof.
  intros e out e'. unfold evaluate_board.
  destruct (static_eval.evaluate_board (board e)). intros [= _ <-].
  now apply tables_grow_same.
Qed.

Lemma grows_clear_transposition_table : grows clear_transposition_table.
Proof. intros e out e' [= _ <-]. now apply tables_grow_same. Qed.

Lemma grows_fun {A} (f : Engine -> M A) : (forall e0, grows (f e0)) -> grows (fun e => f e e).
Proof. intros H e out e' E. eapply H; eauto. Qed.

Lemma grows_quiescence_loop rec :
  (forall a b, grows (rec a b)) ->
  forall moves alpha beta, grows (quiescence_loop rec moves alpha beta).
Proof.
  intros Hrec. induction moves as [|move rest IH]; intros alpha beta.
  - apply grows_ret.
  - intros e out e'. simpl.
    destruct (negb (is_capture (pos (board e)) move)); [apply IH |].
    match goal with |- context [if ?c then _ else _] => destruct c end; [apply IH |].
    revert e out e'.
    apply grows_bind; [apply grows_board_push | intros _].
    apply grows_bind; [apply Hrec | intros r].
    apply grows_bind; [apply grows_board_pop | intros _].
    destruct (score_leb beta (score_max alpha (score_neg r)));
      [apply grows_ret | apply IH].
Qed.

Lemma grows_quiescence limit : forall alpha beta, grows (_quiescence limit alpha beta).
Proof.
  induction limit as [|limit IH]; intros alpha beta; simpl; [apply grows_raise |].
  apply grows_bind; [apply grows_count_node | intros _].
  apply grows_bind; [apply grows_evaluate_board | intros sp].
  destruct (score_leb beta (Fin sp)); [apply grows_ret |].
  intros e out e'. now apply grows_quiescence_loop.
Qed.

Lemma grows_search_child rec first lo hi alpha beta :
  (forall a b, grows (rec a b)) -> grows (search_child rec first lo hi alpha beta).
Proof.
  intros Hrec. unfold search_child. destruct first; [apply Hrec |].
  apply grows_bind; [apply Hrec | intros p].
  destruct (score_ltb alpha p && score_ltb p beta); [apply Hrec | apply grows_ret].
Qed.

Lemma grows_record_cutoff {A} (a : A) move depth :
  grows (fun e => (Ret a, _update_history move depth (_update_killer move e))).
Proof. intros e out e' [= _ <-]. apply record_cutoff_grows. Qed.

Lemma grows_max_loop rec depth :
  (forall a b, grows (rec a b)) ->
  forall moves first alpha beta max_eval,
    grows (max_loop rec depth moves first alpha beta max_eval).
Proof.
  intros Hrec. induction moves as [|move rest IH]; intros first alpha beta max_eval; simpl.
  - apply grows_ret.
  - apply grows_bind; [apply grows_board_push | intros _].
    apply grows_bind; [now apply grows_search_child | intros ev].
    apply grows_bind; [apply grows_board_pop | intros _].
    destruct (score_leb beta (score_max alpha ev)); [apply grows_record_cutoff | apply IH].
Qed.

Lemma grows_min_loop rec depth :
  (forall a b, grows (rec a b)) ->
  forall moves first alpha beta min_eval,
    grows (min_loop rec depth moves first alpha beta min_eval).
Proof.
  intros Hrec. induction moves as [|move rest IH]; intros first alpha beta min_eval; simpl.
  - apply grows_ret.
  - apply grows_bind; [apply grows_board_push | intros _].
    apply grows_bind; [now apply grows_search_child | intros ev].
    apply grows_bind; [apply grows_board_pop | intros _].
    destruct (score_leb (score_min beta ev) alpha); [apply grows_record_cutoff | apply IH].
Qed.

Lemma grows_minimax limit :
  forall depth is_max alpha beta, grows (minimax limit depth is_max alpha beta).
Proof.
  induction limit as [|limit IH]; intros depth is_max alpha beta; simpl;
    [apply grows_raise |].
  apply grows_bind; [apply grows_count_node | intros _].
  destruct (depth =? 0); [apply grows_quiescence |].
  intros e out e'.
  destruct (is_checkmate (pos (board e))); [apply grows_ret |].
  destruct (is_stalemate (pos (board e)) || is_insufficient_material (pos (board e)));
    [apply grows_ret |].
  destruct (_order_moves e (legal_moves (pos (board e))) is_max) as [|m0 ms].
  - apply grows_bind; [apply grows_evaluate_board | intros; apply grows_ret].
  - destruct is_max; [apply grows_max_loop | apply grows_min_loop]; intros; apply IH.
Qed.

Lemma grows_root_max search :
  (forall a b, grows (search a b)) ->
  forall moves alpha beta best, grows (root_max search moves alpha beta best).
Proof.
  intros Hs. induction moves as [|move rest IH]; intros alpha beta best; simpl.
  - apply grows_ret.
  - apply grows_bind; [apply grows_board_push | intros _].
    apply grows_bind; [apply Hs | intros sc].
    apply grows_bind; [apply grows_board_pop | intros _].
    destruct (score_ltb alpha sc); apply IH.
Qed.

Lemma grows_root_min search :
  (forall a b, grows (search a b)) ->
  forall moves alpha beta best, grows (root_min search moves alpha beta best).
Proof.
  intros Hs. induction moves as [|move rest IH]; intros alpha beta best; simpl.
  - apply grows_ret.
  - apply grows_bind; [apply grows_board_push | intros _].
    apply grows_bind; [apply Hs | intros sc].
    apply grows_bind; [apply grows_board_pop | intros _].
    destruct (score_ltb sc beta); apply IH.
Qed.

Lemma grows_search_move limit depth c : grows (_search_move limit depth c).
Proof.
  unfold _search_move. apply grows_bind.
  - intros e out e'. unfold search_root. destruct c.
    + apply grows_root_min. intros; apply grows_minimax.
    + apply grows_root_max. intros; apply grows_minimax.
  - intros r e out e' [= _ <-]. apply tables_grow_refl.
Qed.

Lemma grows_deepen limit c depths : forall best, grows (deepen limit c depths best).
Proof.
  induction depths as [|d rest IH]; intros best; simpl; [apply grows_ret |].
  intros e out e'.
  destruct (_search_move limit d c e) as [[m|] e1] eqn:E.
  - intros H. eapply tables_grow_trans; [eapply grows_search_move | eapply IH]; eauto.
  - intros [= _ <-]. eapply grows_search_move; eauto.
Qed.

Lemma grows_get_best_move limit depth c id : grows (get_best_move limit depth c id).
Proof.
  unfold get_best_move.
  apply grows_bind; [apply grows_clear_transposition_table | intros _].
  destruct id; [apply grows_deepen | apply grows_search_move].
Qed.

End TablesInSearch.

Lemma update_killer_present move e :
  In (Some move) (killer_moves e) -> killer_moves (_update_killer move e) = killer_moves e.
Proof.
  intros H. unfold _update_killer.
  apply move_in_spec in H. now rewrite H.
Qed.

Lemma update_killer_fresh move e :
  (length (killer_moves e) <= 2)%nat ->
  ~ In (Some move) (killer_moves e) ->
  killer_moves (_update_killer move e) = firstn 2 (Some move :: killer_moves e).
Proof.
  intros Hlen H. unfold _update_killer.
  destruct (move_in move (killer_moves e)) eqn:E;
    [apply move_in_spec in E; contradiction |].
  cbn [killer_moves].
  destruct (killer_moves e) as [|k1 [|k2 [|k3 l]]]; simpl in *; try reflexivity; lia.
Qed.

(** C8, as the code has it. Within a search run the killer table never
    holds more than two entries nor the same move twice, and no history
    entry decreases: this holds across a whole best-move request and across
    any sequence of cutoff updates.  One cutoff update by [move] at
    remaining depth [depth] leaves [move] in the killer table: a move not
    yet in the table is put in front, the older entries move back and what
    no longer fits in two slots is dropped; a move already in the table
    leaves the table as it is.  The update adds exactly [depth * depth] to
    the history entry of the move's (from, to) pair and leaves the other
    entries alone. *)
Theorem killer_history_invariants `{lib : ChessLib} (e0 : Engine)
    (events : list (Move * Z)) :
  killer_ok (killer_moves e0) ->
  let e := run_cutoffs events e0 in
  killer_ok (killer_moves e)
  /\ (forall key, history_value e0 key <= history_value e key)
  /\ (forall limit depth c id out e',
        get_best_move limit depth c id e0 = (out, e') ->
        killer_ok (killer_moves e')
        /\ forall key, history_value e0 key <= history_value e' key)
  /\ forall move depth,
       let e' := record_cutoff move depth e in
       killer_ok (killer_moves e')
       /\ In (Some move) (killer_moves e')
       /\ (~ In (Some move) (killer_moves e) ->
           head (killer_moves e') = Some (Some move))
       /\ (~ In (Some move) (killer_moves e) ->
           killer_moves e' = firstn 2 (Some move :: killer_moves e))
       /\ (In (Some move) (killer_moves e) -> killer_moves e' = killer_moves e)
       /\ history_value e' (from_square move, to_square move)
          = history_value e (from_square move, to_square move) + depth * depth
       /\ (forall key, key <> (from_square move, to_square move) ->
                       history_value e' key = history_value e key).
Proof.
  intros Hok e.
  destruct (run_cutoffs_grows events e0) as [Hk Hh]. fold e in Hk, Hh.
  split; [auto |]. split; [exact Hh |]. split.
  - intros limit depth c id out e' H.
    destruct (grows_get_best_move limit depth c id _ _ _ H) as [Hk' Hh']. auto.
  - intros move depth e'. subst e'.
    destruct (update_killer_records move e) as [Hin Hhead].
    split; [apply (record_cutoff_grows move depth e); auto |].
    split; [exact Hin |].
    split; [exact Hhead |].
    split.
    { intros Hn. rewrite record_cutoff_killers.
      apply update_killer_fresh; [apply (Hk Hok) | exact Hn]. }
    split.
    { intros Hp. rewrite record_cutoff_killers. now apply update_killer_present. }
    split; [apply record_cutoff_history_same |].
    intros key Hne. now apply record_cutoff_history_other.
Qed.

Lemma killer_history_invariants_witness :
  let e0 := new_engine (Fen.board "k7/8/8/8/8/7P/8/7K b - - 0 1") in
  let events := [(mkMove 7%nat 15%nat None, 3); (mkMove 23%nat 31%nat None, 2); (mkMove 7%nat 15%nat None, 1);
                 (mkMove 7%nat 6%nat None, 2)] in
  killer_ok (killer_moves e0)
  /\ killer_ok (killer_moves (run_cutoffs events e0))
  /\ forall key, history_value e0 key <= history_value (run_cutoffs events e0) key.
Proof.
  intros e0 events.
  assert (H0 : killer_ok (killer_moves e0)).
  { split; [simpl; lia | simpl; constructor]. }
  destruct (killer_history_invariants (lib := PyChess) e0 events H0) as (A & B & _).
  split; [exact H0 | split; [exact A | exact B]].
Defined.

(** C8, as stated, fails: the most recent cutoff move is not always first.
    A cutoff by a move that is already in the table changes nothing
    ([if move not in self.killer_moves]), so after cutoffs by Kh2, h4 and
    Kh2 again the table is [h4; Kh2]. *)
Lemma repeated_killer_stays_second :
  let h1h2 := mkMove 7%nat 15%nat None in
  let h3h4 := mkMove 23%nat 31%nat None in
  let e := run_cutoffs [(h1h2, 3); (h3h4, 2); (h1h2, 1)]
             (new_engine (Fen.board "k7/8/8/8/8/7P/8/7K b - - 0 1")) in
  killer_moves e = [Some h3h4; Some h1h2]
  /\ head (killer_moves e) <> Some (Some h1h2).
Proof.
  intros h1h2 h3h4 e.
  assert (H : killer_moves e = [Some h3h4; Some h1h2]) by (vm_compute; reflexivity).
  split; [exact H |]. rewrite H. simpl. intros E. discriminate.
Qed.

(* ===================================================================== *)
(** ** Iterative deepening and failures *)
(* ===================================================================== *)

Section Deepening.
Context `{lib : ChessLib}.

Lemma deepen_completed limit c e0 j e b :
  completed limit c e0 j e b ->
  forall n,
    deepen limit c (map Z.of_nat (seq 1 (j + n))) None e0
    = deepen limit c (map Z.of_nat (seq (S j) n)) b e.
Proof.
  induction 1 as [|j e b m e' Hc IH Hs]; intros n.
  - reflexivity.
  - replace (S j + n)%nat with (j + S n)%nat by lia.
    rewrite IH. cbn [seq map deepen]. now rewrite Hs.
Qed.

End Deepening.

(* ===================================================================== *)
(** ** The search leaves the caller's position as it found it *)
(* ===================================================================== *)





(** C9. With iterative deepening, when the iterations at depths 1 to
    [k - 1] returned and the one at depth [k <= depth] raises,
    [get_best_move] returns normally, and what it returns is the move of
    iteration [k - 1] (no move when [k = 1]). *)
Theorem deepening_keeps_last_completed `{lib : ChessLib} (limit : nat)
    (player_color : Color) (depth : Z) (k : nat) (e e_k e_x : Engine)
    (best : option Move) :
  (1 <= k)%nat ->
  Z.of_nat k <= depth ->
  completed limit player_color (snd (clear_transposition_table e)) (k - 1) e_k best ->
  _search_move limit (Z.of_nat k) player_color e_k = (Raised, e_x) ->
  get_best_move limit depth player_color true e = (Ret best, e_x).
Proof.
  intros Hk Hd Hc Hraise.
  unfold get_best_move, bind. simpl. unfold depth_range.
  replace (Z.to_nat depth) with ((k - 1) + S (Z.to_nat depth - k))%nat by lia.
  simpl in Hc. rewrite (deepen_completed _ _ _ _ _ _ Hc).
  replace (S (k - 1)) with k by lia.
  cbn [seq map deepen]. now rewrite Hraise.
Qed.

Lemma deepening_keeps_last_completed_witness :
  let e := new_engine (Fen.board "k7/8/8/8/8/7P/8/7K b - - 0 1") in
  fst (_search_move (lib := PyChess) 2 1 BLACK (snd (clear_transposition_table e)))
  = Ret (Some (mkMove 56%nat 57%nat None))
  /\ fst (get_best_move (lib := PyChess) 2 3 BLACK true e) = Ret (Some (mkMove 56%nat 57%nat None)).
Proof.
  intros e.
  set (e0 := snd (clear_transposition_table e)).
  assert (H1 : _search_move (lib := PyChess) 2 1 BLACK e0
               = (Ret (Some (mkMove 56%nat 57%nat None)), snd (_search_move (lib := PyChess) 2 1 BLACK e0))).
  { vm_compute. reflexivity. }
  set (e1 := snd (_search_move (lib := PyChess) 2 1 BLACK e0)) in *.
  assert (H2 : _search_move (lib := PyChess) 2 2 BLACK e1
               = (Raised, snd (_search_move (lib := PyChess) 2 2 BLACK e1))).
  { vm_compute. reflexivity. }
  split; [now rewrite H1 |].
  rewrite (deepening_keeps_last_completed (lib := PyChess) 2 BLACK 3 2 e e1
             (snd (_search_move (lib := PyChess) 2 2 BLACK e1))
             (Some (mkMove 56%nat 57%nat None))).
  - reflexivity.
  - lia.
  - lia.
  - apply (completed_next 2 BLACK e0 0 e0 None); [constructor | exact H1].
  - exact H2.
Defined.

(* ===================================================================== *)
(** ** Resetting the search state *)
(* ===================================================================== *)

(** C2, as the code has it. When the game is not over, a move request through
    the wrapper's [make_engine_move] searches from the initial search state:
    empty killer table, empty history table, node counter zero.  Whatever
    the tables held before has no influence: the request goes as on a
    freshly built engine on the same board. *)
Theorem make_engine_move_resets `{lib : ChessLib} (limit : nat) (w : ChessEngine) :
  is_game_over (board (engine w)) = false ->
  killer_moves (clear_search_state (engine w)) = [None; None]
  /\ history_table (clear_search_state (engine w)) = ∅
  /\ nodes_searched (clear_search_state (engine w)) = 0
  /\ make_engine_move limit w
     = make_engine_move limit
         (mkChessEngine (new_engine (board (engine w))) (depth_setting w)).
Proof.
  intros Hover. repeat split.
  unfold make_engine_move. simpl. rewrite Hover. reflexivity.
Qed.

Lemma make_engine_move_resets_witness :
  let w := mkChessEngine
             (mkEngine (Fen.board "k7/8/8/8/8/7P/8/7K b - - 0 1") ∅ 1000
                       [Some (mkMove 56%nat 57%nat None); None]
                       {[ (56%nat, 57%nat) := 9 ]})
             1 in
  make_engine_move (lib := PyChess) 40 w
  = make_engine_move (lib := PyChess) 40
      (mkChessEngine (new_engine (Fen.board "k7/8/8/8/8/7P/8/7K b - - 0 1")) 1).
Proof.
  intros w.
  apply (make_engine_move_resets (lib := PyChess) 40 w).
  vm_compute. reflexivity.
Defined.

(** C2, as stated, fails: [get_best_move] itself only clears the
    transposition table.  Called on an engine whose tables are not empty,
    it searches with the old killer and history tables in place and goes on
    counting nodes from the old count. *)
Lemma get_best_move_keeps_tables :
  let b := Fen.board "k7/8/8/8/8/7P/8/7K b - - 0 1" in
  let used := mkEngine b ∅ 1000 [Some (mkMove 56%nat 57%nat None); None]
                       {[ (56%nat, 57%nat) := 9 ]} in
  let after_used := snd (get_best_move (lib := PyChess) 40 1 BLACK true used) in
  let after_fresh := snd (get_best_move (lib := PyChess) 40 1 BLACK true (new_engine b)) in
  nodes_searched after_fresh = 6
  /\ nodes_searched after_used = 1006
  /\ killer_moves after_used = [Some (mkMove 56%nat 57%nat None); None]
  /\ history_table after_used !! (56%nat, 57%nat) = Some 9.
Proof. vm_compute. repeat split; reflexivity. Qed.

(* ===================================================================== *)
(** ** The evaluation and the side to move *)
(* ===================================================================== *)

(** C3, what the code does. Evaluating a position that is not terminal
    leaves White to move, whoever was to move before: the mobility term
    assigns the turn to Black and then to White, not back to what it was. *)
Theorem evaluation_leaves_white_to_move `{lib : ChessLib} (player_color : Color)
    (e : Engine) :
  is_checkmate (pos (board e)) = false ->
  is_stalemate (pos (board e)) = false ->
  is_insufficient_material (pos (board e)) = false ->
  turn (pos (board (snd (evaluate_board player_color e)))) = WHITE
  /\ board (snd (evaluate_board player_color e)) = assign_turn (board e) WHITE.
Proof.
  intros H1 H2 H3. unfold evaluate_board, static_eval.evaluate_board.
  rewrite H1, H2, H3. simpl. split; reflexivity.
Qed.

Lemma evaluation_leaves_white_to_move_witness :
  let e := new_engine
             (Fen.board "rnbqkbnr/pppppppp/8/8/4P3/8/PPPP1PPP/RNBQKBNR b KQkq e3 0 1") in
  turn (pos (board e)) = BLACK
  /\ turn (pos (board (snd (evaluate_board (lib := PyChess) BLACK e)))) = WHITE.
Proof.
  intros e. split; [reflexivity |].
  apply (evaluation_leaves_white_to_move (lib := PyChess) BLACK e);
    vm_compute; reflexivity.
Defined.

(* ===================================================================== *)
(** ** King safety *)
(* ===================================================================== *)

(** C4, what the code does. With both kings on the board, neither on a1,
    the king-safety term is the castled-square bonus alone: the 10 taken
    from White when the side to move is in check is given back in the
    branch for Black, under the same test. *)
Theorem king_safety_ignores_check `{lib : ChessLib} (p : Position) :
  square_truthy (king p WHITE) = true ->
  square_truthy (king p BLACK) = true ->
  _evaluate_king_safety p
  = (if square_in (king p WHITE) [G1; C1] then 20 else 0)
    - (if square_in (king p BLACK) [G8; C8] then 20 else 0).
Proof.
  intros HW HB. unfold _evaluate_king_safety. rewrite HW, HB.
  destruct (square_in (king p WHITE) [G1; C1]), (square_in (king p BLACK) [G8; C8]),
    (is_check p); reflexivity.
Qed.

Lemma king_safety_ignores_check_witness :
  let in_check := Fen.parse "4k3/8/8/8/4r3/8/8/4K3 w - - 0 1" in
  let no_check := Fen.parse "4k3/8/8/8/3r4/8/8/4K3 w - - 0 1" in
  is_check (ChessLib := PyChess) in_check = true
  /\ is_check (ChessLib := PyChess) no_check = false
  /\ _evaluate_king_safety (lib := PyChess) in_check = 0
  /\ _evaluate_king_safety (lib := PyChess) no_check = 0.
Proof.
  intros in_check no_check.
  split; [vm_compute; reflexivity |]. split; [vm_compute; reflexivity |].
  split.
  - rewrite (king_safety_ignores_check (lib := PyChess) in_check);
      vm_compute; reflexivity.
  - vm_compute. reflexivity.
Defined.

(* ===================================================================== *)
(** ** Mate in one *)
(* ===================================================================== *)

(** C5, at a position where it fails. Black to move mates at once with
    Rd8xd1.  At depth 1 the search returns b4xa3 instead, with the score
    99999: after b4xa3 White mates by Rd1xd8, and the quiescence search
    negates the score of that position, which the evaluation had already
    stated from Black's side.  b4xa3 is ordered first and Rd8xd1 cannot
    score higher. *)
Theorem mate_in_one_missed :
  let e := new_engine (Fen.board "3r2k1/5ppp/8/8/1p6/N7/6PP/3R3K b - - 0 1") in
  let p := pos (board e) in
  let Rd8xd1 := mkMove 59%nat 3%nat None in
  let b4xa3 := mkMove 25%nat 16%nat None in
  let Rd1xd8 := mkMove 3%nat 59%nat None in
  In Rd8xd1 (legal_moves (ChessLib := PyChess) p)
  /\ is_checkmate (lib := PyChess) (apply_move (ChessLib := PyChess) p Rd8xd1) = true
  /\ fst (get_best_move (lib := PyChess) 40 1 BLACK true e) = Ret (Some b4xa3)
  /\ fst (get_best_move (lib := PyChess) 40 1 BLACK false e) = Ret (Some b4xa3)
  /\ fst (search_root (lib := PyChess) 40 1 BLACK e) = Ret (Fin 99999, Some b4xa3)
  /\ is_checkmate (lib := PyChess) (apply_move (ChessLib := PyChess) p b4xa3) = false
  /\ is_checkmate (lib := PyChess)
       (apply_move (ChessLib := PyChess) (apply_move (ChessLib := PyChess) p b4xa3) Rd1xd8)
     = true.
Proof.
  intros e p Rd8xd1 b4xa3 Rd1xd8.
  split; [vm_compute; tauto |].
  do 5 (split; [vm_compute; reflexivity |]).
  vm_compute; reflexivity.
Qed.

(* ===================================================================== *)
(** ** Pruned search against full-width search *)
(* ===================================================================== *)

(** C1, at positions where it fails. At depth 2 with Black to move the
    leaves have Black to move.  A leaf probed with a null window and then
    searched again is evaluated twice without a pop in between; the first
    evaluation has left White to move, so the second one scores a different
    position (other mobility term).  On the first position the pruned root
    search settles on the score -41 where the full-width search has -35; on
    the second both the move and the score differ. *)
Theorem pruned_search_differs :
  let pawn := new_engine (Fen.board "k7/8/8/8/8/7P/8/7K b - - 0 1") in
  let rook := new_engine (Fen.board "k7/8/8/8/8/8/7R/7K b - - 0 1") in
  let Kb8 := mkMove 56%nat 57%nat None in
  let Ka7 := mkMove 56%nat 48%nat None in
  fst (search_root (lib := PyChess) 40 2 BLACK pawn) = Ret (Fin (-41), Some Kb8)
  /\ fst (full_search_root (lib := PyChess) 40 2 BLACK pawn) = Ret (Fin (-35), Some Kb8)
  /\ fst (search_root (lib := PyChess) 40 2 BLACK rook) = Ret (Fin (-455), Some Ka7)
  /\ fst (full_search_root (lib := PyChess) 40 2 BLACK rook) = Ret (Fin (-445), Some Kb8)
  /\ fst (_search_move (lib := PyChess) 40 2 BLACK rook) = Ret (Some Ka7).
Proof.
  intros pawn rook Kb8 Ka7.
  do 4 (split; [vm_compute; reflexivity |]).
  vm_compute; reflexivity.
Qed.

(* ##################################################################### *)
(** * Further properties of the code *)
(* ##################################################################### *)

(* ===================================================================== *)
(** ** Move ordering *)
(* ===================================================================== *)

Section Ordering.
Variable key : Move -> Z.

Let by_score (a b : Z * Move) : Prop := fst b <= fst a.
Let keyed (p : Z * Move) : Prop := fst p = key (snd p).

Lemma insert_by_score_perm x l : Permutation (insert_by_score x l) (x :: l).
Proof.
  induction l as [|y l IH]; simpl; [reflexivity |].
  destruct (fst x <? fst y); [| reflexivity].
  rewrite IH. apply perm_swap.
Qed.

Lemma insert_by_score_sorted x l :
  StronglySorted by_score l -> StronglySorted by_score (insert_by_score x l).
Proof.
  induction l as [|y l IH]; intros Hs; simpl.
  - constructor; [constructor | constructor].
  - inversion Hs as [|? ? Hs' Hall]; subst.
    destruct (fst x <? fst y) eqn:E.
    + apply Z.ltb_lt in E. constructor; [now apply IH |].
      rewrite List.Forall_forall in *. intros z Hz.
      apply (Permutation_in _ (insert_by_score_perm x l)) in Hz.
      destruct Hz as [<- | Hz]; [unfold by_score; lia | now apply Hall].
    + apply Z.ltb_ge in E. constructor; [exact Hs |].
      constructor; [exact E |].
      rewrite List.Forall_forall in *. intros z Hz. specialize (Hall z Hz).
      unfold by_score in *. lia.
Qed.

Lemma insert_by_score_filter k x l :
  List.filter (fun p : Z * Move => fst p =? k) (insert_by_score x l)
  = List.filter (fun p : Z * Move => fst p =? k) (x :: l).
Proof.
  induction l as [|y l IH]; [reflexivity |].
  cbn [insert_by_score]. destruct (fst x <? fst y) eqn:E; [| reflexivity].
  apply Z.ltb_lt in E. cbn [List.filter] in *. rewrite IH.
  destruct (fst x =? k) eqn:Ex, (fst y =? k) eqn:Ey; try reflexivity.
  apply Z.eqb_eq in Ex, Ey. lia.
Qed.

Lemma sorted_pairs_perm ps : Permutation (fold_right insert_by_score [] ps) ps.
Proof.
  induction ps as [|x ps IH]; simpl; [reflexivity |].
  rewrite insert_by_score_perm. now constructor.
Qed.

Lemma sorted_pairs_sorted ps : StronglySorted by_score (fold_right insert_by_score [] ps).
Proof.
  induction ps as [|x ps IH]; simpl; [constructor | now apply insert_by_score_sorted].
Qed.

Lemma sorted_pairs_filter k ps :
  List.filter (fun p : Z * Move => fst p =? k) (fold_right insert_by_score [] ps)
  = List.filter (fun p : Z * Move => fst p =? k) ps.
Proof.
  induction ps as [|x ps IH]; [reflexivity |].
  cbn [fold_right]. rewrite insert_by_score_filter. cbn [List.filter]. now rewrite IH.
Qed.

Lemma keyed_map_filter k ps :
  Forall keyed ps ->
  map snd (List.filter (fun p : Z * Move => fst p =? k) ps)
  = List.filter (fun m => key m =? k) (map snd ps).
Proof.
  induction 1 as [|p ps Hp _ IH]; [reflexivity |].
  cbn [List.filter map]. rewrite <- Hp.
  destruct (fst p =? k); cbn [map]; now rewrite IH.
Qed.

Lemma keyed_map_sorted ps :
  Forall keyed ps -> StronglySorted by_score ps ->
  StronglySorted (fun m1 m2 => key m2 <= key m1) (map snd ps).
Proof.
  intros Hk Hs. induction Hs as [|p ps Hs IH Hall]; [constructor |].
  inversion Hk as [|? ? Hp Hk']; subst.
  cbn [map]. constructor; [now apply IH |].
  rewrite List.Forall_forall in *. intros m Hm.
  apply in_map_iff in Hm as (q & <- & Hq).
  specialize (Hall q Hq). rewrite <- (Hk' q Hq), <- Hp. exact Hall.
Qed.

Lemma sorted_desc_spec moves :
  Permutation (sorted_desc key moves) moves
  /\ StronglySorted (fun m1 m2 => key m2 <= key m1) (sorted_desc key moves)
  /\ forall k, List.filter (fun m => key m =? k) (sorted_desc key moves)
               = List.filter (fun m => key m =? k) moves.
Proof.
  unfold sorted_desc.
  set (ps := map (fun m => (key m, m)) moves).
  assert (Hsnd : map snd ps = moves).
  { unfold ps. rewrite map_map. simpl. apply map_id. }
  assert (Hk : Forall keyed ps).
  { unfold ps. rewrite List.Forall_forall. intros p Hp.
    apply in_map_iff in Hp as (m & <- & _). reflexivity. }
  assert (Hk' : Forall keyed (fold_right insert_by_score [] ps)).
  { rewrite List.Forall_forall in *. intros p Hp. apply Hk.
    now apply (Permutation_in _ (sorted_pairs_perm ps)). }
  split; [| split].
  - etransitivity; [apply Permutation_map, sorted_pairs_perm | now rewrite Hsnd].
  - apply keyed_map_sorted; [exact Hk' | apply sorted_pairs_sorted].
  - intros k. rewrite <- keyed_map_filter by exact Hk'.
    rewrite sorted_pairs_filter, keyed_map_filter by exact Hk. now rewrite Hsnd.
Qed.

End Ordering.

(** X1. [_order_moves] returns the moves it was given, each as often as it
    came in, highest score first, and moves of equal score in the order in
    which they were generated. *)
Theorem order_moves_sorted_stable `{lib : ChessLib} (e : Engine) (moves : list Move)
    (is_maximizing : bool) :
  Permutation (_order_moves e moves is_maximizing) moves
  /\ StronglySorted (fun m1 m2 => move_score e m2 <= move_score e m1)
       (_order_moves e moves is_maximizing)
  /\ forall k,
       List.filter (fun m => move_score e m =? k) (_order_moves e moves is_maximizing)
       = List.filter (fun m => move_score e m =? k) moves.
Proof. apply sorted_desc_spec. Qed.

(* ===================================================================== *)
(** ** The move a request returns *)
(* ===================================================================== *)

Section Answer.
Context `{lib : ChessLib}.

Lemma root_max_best search :
  forall moves alpha beta best e s b e',
    root_max search moves alpha beta best e = (Ret (s, b), e') ->
    b = best \/ exists m, b = Some m /\ In m moves.
Proof.
  induction moves as [|move rest IH]; intros alpha beta best e s b e'; simpl.
  - intros [= _ <- _]. now left.
  - intros H.
    apply bind_ret_inv in H as ([] & e1 & _ & H).
    apply bind_ret_inv in H as (sc & e2 & _ & H).
    apply bind_ret_inv in H as ([] & e3 & _ & H).
    destruct (score_ltb alpha sc); apply IH in H.
    + destruct H as [-> | (m & -> & Hm)]; right; eauto.
    + destruct H as [-> | (m & -> & Hm)]; [now left | right; eauto].
Qed.

Lemma root_min_best search :
  forall moves alpha beta best e s b e',
    root_min search moves alpha beta best e = (Ret (s, b), e') ->
    b = best \/ exists m, b = Some m /\ In m moves.
Proof.
  induction moves as [|move rest IH]; intros alpha beta best e s b e'; simpl.
  - intros [= _ <- _]. now left.
  - intros H.
    apply bind_ret_inv in H as ([] & e1 & _ & H).
    apply bind_ret_inv in H as (sc & e2 & _ & H).
    apply bind_ret_inv in H as ([] & e3 & _ & H).
    destruct (score_ltb sc beta); apply IH in H.
    + destruct H as [-> | (m & -> & Hm)]; right; eauto.
    + destruct H as [-> | (m & -> & Hm)]; [now left | right; eauto].
Qed.

Lemma search_root_best limit depth c e s b e' :
  search_root limit depth c e = (Ret (s, b), e') ->
  b = None \/ exists m, b = Some m /\ In m (legal_moves (pos (board e))).
Proof.
  unfold search_root. intros H.
  assert (Hb : b = None \/ exists m, b = Some m
                 /\ In m (_order_moves e (legal_moves (pos (board e)))
                            (match c with BLACK => true | WHITE => false end))).
  { destruct c; [eapply root_min_best | eapply root_max_best]; eauto. }
  destruct Hb as [-> | (m & -> & Hm)]; [now left | right].
  exists m. split; [reflexivity |]. unfold _order_moves in Hm.
  now apply sorted_desc_In in Hm.
Qed.

Lemma fallback_move_legal p b :
  (b = None \/ exists m, b = Some m /\ In m (legal_moves p)) ->
  legal_answer p (fallback_move b p).
Proof.
  unfold legal_answer, fallback_move. intros Hb.
  destruct (legal_moves p) as [|m0 ms] eqn:E.
  - destruct Hb as [-> | (m & -> & [])]. reflexivity.
  - destruct Hb as [-> | (m & -> & Hm)].
    + exists m0. simpl. auto.
    + destruct (move_truthy m); [eauto |]. exists m0. simpl. auto.
Qed.

Lemma search_move_legal limit depth c e r e' :
  _search_move limit depth c e = (Ret r, e') -> legal_answer (pos (board e)) r.
Proof.
  unfold _search_move. intros H.
  apply bind_ret_inv in H as ([s b] & e1 & H1 & H). injection H as <- <-.
  pose proof (search_root_board _ _ _ _ _ _ H1) as Hb. rewrite Hb.
  apply fallback_move_legal. simpl. eapply search_root_best; eauto.
Qed.

Lemma deepen_last limit c :
  forall depths best e r e',
    deepen limit c depths best e = (Ret r, e') ->
    (forall d e1, In d depths -> board e1 = board e ->
                  exists m e2, _search_move limit d c e1 = (Ret m, e2)) ->
    match depths with
    | [] => r = best
    | _ :: _ => legal_answer (pos (board e)) r
    end.
Proof.
  induction depths as [|d rest IH]; intros best e r e'; simpl.
  - now intros [= <- _].
  - intros H Hall.
    destruct (Hall d e (or_introl eq_refl) eq_refl) as (m & e2 & Hm).
    rewrite Hm in H.
    pose proof (search_move_board _ _ _ _ _ _ Hm) as Hb.
    pose proof (search_move_legal _ _ _ _ _ _ Hm) as Hl.
    apply IH in H.
    + destruct rest; [now subst | now rewrite Hb in H].
    + intros d' e1 Hd' Hb'. apply Hall; [now right | congruence].
Qed.

End Answer.

(** X2. Within the recursion budget, a best-move request at depth [>= 1]
    on a valid position returns a move that is legal in the caller's
    position whenever there is one, and no move only when there is none. *)
Theorem best_move_is_legal `{lib : ChessLib} (valid : Position -> Prop)
    {law : Lawful lib valid} (limit : nat) (depth : Z) (player_color : Color)
    (iterative_deepening : bool) (e : Engine) :
  valid (pos (board e)) ->
  1 <= depth ->
  (Z.to_nat depth + piece_count (pos (board e)) < limit)%nat ->
  exists r e',
    get_best_move limit depth player_color iterative_deepening e = (Ret r, e')
    /\ legal_answer (pos (board e)) r.
Proof.
  intros Hv Hd Hl.
  unfold get_best_move, bind, clear_transposition_table.
  set (e1 := mkEngine (board e) ∅ (nodes_searched e) (killer_moves e) (history_table e)).
  change (board e) with (board e1).
  destruct iterative_deepening.
  - destruct (deepen_returns valid limit player_color e1 Hv (depth_range depth) None)
      as (r & e' & H & _).
    { intros d Hin. apply depth_range_In in Hin. simpl. split; lia. }
    exists r, e'. split; [exact H |].
    apply deepen_last in H.
    + unfold depth_range in H.
      destruct (Z.to_nat depth) as [|n] eqn:En; [lia | exact H].
    + intros d e2 Hin Hb. apply depth_range_In in Hin.
      destruct (search_move_returns valid limit d player_color e2) as (m & e3 & Hm & _);
        [lia | now rewrite Hb | rewrite Hb; simpl; lia | eauto].
  - destruct (search_move_returns valid limit depth player_color e1 Hd Hv Hl)
      as (r & e' & H & _).
    exists r, e'. split; [exact H | eapply search_move_legal; eauto].
Qed.

Lemma best_move_is_legal_witness :
  exists r e',
    get_best_move (lib := PyChess) 9 2 BLACK true
      (new_engine (Fen.board "k7/8/8/8/8/7P/8/7K b - - 0 1")) = (Ret r, e')
    /\ legal_answer (lib := PyChess) (Fen.parse "k7/8/8/8/8/7P/8/7K b - - 0 1") r.
Proof.
  apply (best_move_is_legal (lib := PyChess) _ (law := PyChessFacts.pychess_lawful)
           9 2 BLACK true (new_engine (Fen.board "k7/8/8/8/8/7P/8/7K b - - 0 1"))).
  - vm_compute. reflexivity.
  - lia.
  - vm_compute. lia.
Defined.

(** X3. Through the wrapper, a depth setting below 1 makes the engine
    report that there are no legal moves and leave the board alone, whatever
    moves the position has: the driver's loop over [range(1, depth + 1)] is
    empty and its initial [None] comes back. *)
Theorem make_engine_move_without_depth `{lib : ChessLib} (limit : nat) (w : ChessEngine) :
  is_game_over (board (engine w)) = false ->
  depth_setting w <= 0 ->
  fst (make_engine_move limit w) = Ret (None, "No legal moves"%string)
  /\ board (engine (snd (make_engine_move limit w))) = board (engine w)
  /\ forall c e, get_best_move limit (depth_setting w) c true e
                 = (Ret None, snd (clear_transposition_table e)).
Proof.
  intros Hover Hd.
  assert (Hr : depth_range (depth_setting w) = []).
  { unfold depth_range. now replace (Z.to_nat (depth_setting w)) with 0%nat by lia. }
  assert (Hg : forall c e, get_best_move limit (depth_setting w) c true e
                           = (Ret None, snd (clear_transposition_table e))).
  { intros c e. unfold get_best_move, bind. simpl. now rewrite Hr. }
  unfold make_engine_move. rewrite Hover, Hg. simpl. auto.
Qed.

Lemma make_engine_move_without_depth_witness :
  let w := mkChessEngine (new_engine (Fen.board "k7/8/8/8/8/7P/8/7K b - - 0 1")) 0 in
  legal_moves (ChessLib := PyChess) (pos (board (engine w))) <> []
  /\ fst (make_engine_move (lib := PyChess) 40 w) = Ret (None, "No legal moves"%string).
Proof.
  intros w. split; [vm_compute; discriminate |].
  apply (make_engine_move_without_depth (lib := PyChess) 40 w); [vm_compute; reflexivity | simpl; lia].
Defined.



(** X5. With iterative deepening, when the iterations at all depths from 1
    to [depth] return, the request returns the move of the deepest one. *)
Theorem deepening_returns_deepest `{lib : ChessLib} (limit : nat)
    (player_color : Color) (depth : Z) (e e_d : Engine) (best : option Move) :
  completed limit player_color (snd (clear_transposition_table e))
            (Z.to_nat depth) e_d best ->
  get_best_move limit depth player_color true e = (Ret best, e_d).
Proof.
  intros Hc. unfold get_best_move, bind. simpl. unfold depth_range.
  replace (Z.to_nat depth) with (Z.to_nat depth + 0)%nat at 1 by lia.
  simpl in Hc. rewrite (deepen_completed _ _ _ _ _ _ Hc). reflexivity.
Qed.

Lemma deepening_returns_deepest_witness :
  let e := new_engine (Fen.board "k7/8/8/8/8/7P/8/7K b - - 0 1") in
  fst (get_best_move (lib := PyChess) 9 2 BLACK true e) = Ret (Some (mkMove 56%nat 57%nat None)).
Proof.
  intros e.
  set (e0 := snd (clear_transposition_table e)).
  set (e1 := snd (_search_move (lib := PyChess) 9 1 BLACK e0)).
  assert (H1 : _search_move (lib := PyChess) 9 1 BLACK e0
               = (Ret (Some (mkMove 56%nat 57%nat None)), e1)).
  { vm_compute. reflexivity. }
  assert (H2 : _search_move (lib := PyChess) 9 (Z.of_nat 2) BLACK e1
               = (Ret (Some (mkMove 56%nat 57%nat None)),
                  snd (_search_move (lib := PyChess) 9 (Z.of_nat 2) BLACK e1))).
  { vm_compute. reflexivity. }
  rewrite (deepening_returns_deepest (lib := PyChess) 9 BLACK 2 e
             (snd (_search_move (lib := PyChess) 9 (Z.of_nat 2) BLACK e1))
             (Some (mkMove 56%nat 57%nat None))).
  - reflexivity.
  - apply (completed_next 9 BLACK e0 1 e1 (Some (mkMove 56%nat 57%nat None))).
    + apply (completed_next 9 BLACK e0 0 e0 None); [constructor | exact H1].
    + exact H2.
Defined.

(* ===================================================================== *)
(** ** What the search does to the node counter and to the cache *)
(* ===================================================================== *)

Section Kept.
Context `{lib : ChessLib}.
Variable R : Engine -> Engine -> Prop.
Hypothesis R_refl : forall e, R e e.
Hypothesis R_trans : forall e1 e2 e3, R e1 e2 -> R e2 e3 -> R e1 e3.
Hypothesis R_board : forall e b, R e (set_board e b).
Hypothesis R_count : forall e, R e (snd (count_node e)).
Hypothesis R_cutoff : forall move depth e, R e (record_cutoff move depth e).

Lemma keeps_ret {A} (a : A) : keeps R (ret a).
Proof. intros e out e' [= _ <-]. apply R_refl. Qed.

Lemma keeps_raise {A} : keeps R (@raise A).
Proof. intros e out e' [= _ <-]. apply R_refl. Qed.

Lemma keeps_bind {A B} (m : M A) (k : A -> M B) :
  keeps R m -> (forall a, keeps R (k a)) -> keeps R (bind m k).
Proof.
  intros Hm Hk e out e'. unfold bind.
  destruct (m e) as [[a|] e1] eqn:E.
  - intros H. eapply R_trans; [eapply Hm | eapply Hk]; eauto.
  - intros [= _ <-]. eapply Hm; eauto.
Qed.

Lemma keeps_count_node : keeps R count_node.
Proof. intros e out e' H. rewrite (surjective_pairing (count_node e)) in H.
  injection H as _ <-. apply R_count. Qed.

Lemma keeps_board_push move : keeps R (board_push move).
Proof. intros e out e' [= _ <-]. apply R_board. Qed.

Lemma keeps_board_pop : keeps R board_pop.
Proof. intros e out e' [= _ <-]. apply R_board. Qed.

Lemma keeps_evaluate_board c : keeps R (evaluate_board c).
Proof.
  intros e out e'. unfold evaluate_board.
  destruct (static_eval.evaluate_board (board e)). intros [= _ <-]. apply R_board.
Qed.

Lemma keeps_quiescence_loop rec :
  (forall a b, keeps R (rec a b)) ->
  forall moves alpha beta, keeps R (quiescence_loop rec moves alpha beta).
Proof.
  intros Hrec. induction moves as [|move rest IH]; intros alpha beta.
  - apply keeps_ret.
  - intros e out e'. simpl.
    destruct (negb (is_capture (pos (board e)) move)); [apply IH |].
    match goal with |- context [if ?c then _ else _] => destruct c end; [apply IH |].
    revert e out e'.
    apply keeps_bind; [apply keeps_board_push | intros _].
    apply keeps_bind; [apply Hrec | intros r].
    apply keeps_bind; [apply keeps_board_pop | intros _].
    destruct (score_leb beta (score_max alpha (score_neg r)));
      [apply keeps_ret | apply IH].
Qed.

Lemma keeps_quiescence limit : forall alpha beta, keeps R (_quiescence limit alpha beta).
Proof.
  induction limit as [|limit IH]; intros alpha beta; simpl; [apply keeps_raise |].
  apply keeps_bind; [apply keeps_count_node | intros _].
  apply keeps_bind; [apply keeps_evaluate_board | intros sp].
  destruct (score_leb beta (Fin sp)); [apply keeps_ret |].
  intros e out e'. now apply keeps_quiescence_loop.
Qed.

Lemma keeps_search_child rec first lo hi alpha beta :
  (forall a b, keeps R (rec a b)) -> keeps R (search_child rec first lo hi alpha beta).
Proof.
  intros Hrec. unfold search_child. destruct first; [apply Hrec |].
  apply keeps_bind; [apply Hrec | intros p].
  destruct (score_ltb alpha p && score_ltb p beta); [apply Hrec | apply keeps_ret].
Qed.

Lemma keeps_record_cutoff {A} (a : A) move depth :
  keeps R (fun e => (Ret a, _update_history move depth (_update_killer move e))).
Proof. intros e out e' [= _ <-]. apply R_cutoff. Qed.

Lemma keeps_max_loop rec depth :
  (forall a b, keeps R (rec a b)) ->
  forall moves first alpha beta max_eval,
    keeps R (max_loop rec depth moves first alpha beta max_eval).
Proof.
  intros Hrec. induction moves as [|move rest IH]; intros first alpha beta max_eval; simpl.
  - apply keeps_ret.
  - apply keeps_bind; [apply keeps_board_push | intros _].
    apply keeps_bind; [now apply keeps_search_child | intros ev].
    apply keeps_bind; [apply keeps_board_pop | intros _].
    destruct (score_leb beta (score_max alpha ev)); [apply keeps_record_cutoff | apply IH].
Qed.

Lemma keeps_min_loop rec depth :
  (forall a b, keeps R (rec a b)) ->
  forall moves first alpha beta min_eval,
    keeps R (min_loop rec depth moves first alpha beta min_eval).
Proof.
  intros Hrec. induction moves as [|move rest IH]; intros first alpha beta min_eval; simpl.
  - apply keeps_ret.
  - apply keeps_bind; [apply keeps_board_push | intros _].
    apply keeps_bind; [now apply keeps_search_child | intros ev].
    apply keeps_bind; [apply keeps_board_pop | intros _].
    destruct (score_leb (score_min beta ev) alpha); [apply keeps_record_cutoff | apply IH].
Qed.

Lemma keeps_minimax limit :
  forall depth is_max alpha beta, keeps R (minimax limit depth is_max alpha beta).
Proof.
  induction limit as [|limit IH]; intros depth is_max alpha beta; simpl;
    [apply keeps_raise |].
  apply keeps_bind; [apply keeps_count_node | intros _].
  destruct (depth =? 0); [apply keeps_quiescence |].
  intros e out e'.
  destruct (is_checkmate (pos (board e))); [apply keeps_ret |].
  destruct (is_stalemate (pos (board e)) || is_insufficient_material (pos (board e)));
    [apply keeps_ret |].
  destruct (_order_moves e (legal_moves (pos (board e))) is_max) as [|m0 ms].
  - apply keeps_bind; [apply keeps_evaluate_board | intros; apply keeps_ret].
  - destruct is_max; [apply keeps_max_loop | apply keeps_min_loop]; intros; apply IH.
Qed.

Lemma keeps_root_max search :
  (forall a b, keeps R (search a b)) ->
  forall moves alpha beta best, keeps R (root_max search moves alpha beta best).
Proof.
  intros Hs. induction moves as [|move rest IH]; intros alpha beta best; simpl.
  - apply keeps_ret.
  - apply keeps_bind; [apply keeps_board_push | intros _].
    apply keeps_bind; [apply Hs | intros sc].
    apply keeps_bind; [apply keeps_board_pop | intros _].
    destruct (score_ltb alpha sc); apply IH.
Qed.

Lemma keeps_root_min search :
  (forall a b, keeps R (search a b)) ->
  forall moves alpha beta best, keeps R (root_min search moves alpha beta best).
Proof.
  intros Hs. induction moves as [|move rest IH]; intros alpha beta best; simpl.
  - apply keeps_ret.
  - apply keeps_bind; [apply keeps_board_push | intros _].
    apply keeps_bind; [apply Hs | intros sc].
    apply keeps_bind; [apply keeps_board_pop | intros _].
    destruct (score_ltb sc beta); apply IH.
Qed.

Lemma keeps_search_move limit depth c : keeps R (_search_move limit depth c).
Proof.
  unfold _search_move. apply keeps_bind.
  - intros e out e'. unfold search_root. destruct c.
    + apply keeps_root_min. intros; apply keeps_minimax.
    + apply keeps_root_max. intros; apply keeps_minimax.
  - intros r e out e' [= _ <-]. apply R_refl.
Qed.

Lemma keeps_deepen limit c depths : forall best, keeps R (deepen limit c depths best).
Proof.
  induction depths as [|d rest IH]; intros best; simpl; [apply keeps_ret |].
  intros e out e'.
  destruct (_search_move limit d c e) as [[m|] e1] eqn:E.
  - intros H. eapply R_trans; [eapply keeps_search_move | eapply IH]; eauto.
  - intros [= _ <-]. eapply keeps_search_move; eauto.
Qed.

End Kept.

(** X6. A best-move request never lowers the node counter (it is not
    reset, and every call counts), and it leaves the transposition table
    empty whatever it held: the table is cleared at the start and nothing
    in the search writes to it. *)
Theorem request_counts_nodes_and_empties_cache `{lib : ChessLib} (limit : nat)
    (depth : Z) (player_color : Color) (iterative_deepening : bool)
    (e : Engine) (out : Outcome (option Move)) (e' : Engine) :
  get_best_move limit depth player_color iterative_deepening e = (out, e') ->
  nodes_searched e <= nodes_searched e' /\ transposition_table e' = ∅.
Proof.
  unfold get_best_move, bind, clear_transposition_table.
  set (e1 := mkEngine (board e) ∅ (nodes_searched e) (killer_moves e) (history_table e)).
  set (R := fun a b : Engine =>
              nodes_searched a <= nodes_searched b
              /\ transposition_table b = transposition_table a).
  assert (Hk : forall out e',
             (if iterative_deepening
              then deepen limit player_color (depth_range depth) None
              else _search_move limit depth player_color) e1 = (out, e') -> R e1 e').
  { assert (R_refl : forall a, R a a) by (intros a; split; [lia | reflexivity]).
    assert (R_trans : forall a b c, R a b -> R b c -> R a c).
    { intros a b c [H1 H2] [H3 H4]. split; [lia | congruence]. }
    assert (R_board : forall a b, R a (set_board a b)) by (intros; split; simpl; [lia | reflexivity]).
    assert (R_count : forall a, R a (snd (count_node a))) by (intros; split; simpl; [lia | reflexivity]).
    assert (R_cutoff : forall move d a, R a (record_cutoff move d a)).
    { intros move d a. unfold record_cutoff, _update_history, _update_killer.
      destruct (move_in move (killer_moves a)); split; simpl; try lia; reflexivity. }
    intros o e2. destruct iterative_deepening.
    - apply (keeps_deepen R R_refl R_trans R_board R_count R_cutoff).
    - apply (keeps_search_move R R_refl R_trans R_board R_count R_cutoff). }
  intros H. apply Hk in H. destruct H as [H1 H2]. simpl in H1, H2. auto.
Qed.

Lemma request_counts_nodes_and_empties_cache_witness :
  let e := mkEngine (Fen.board "k7/8/8/8/8/7P/8/7K b - - 0 1") {[ "key"%string := 5 ]} 1000
                    [None; None] ∅ in
  let e' := snd (get_best_move (lib := PyChess) 9 1 BLACK true e) in
  1000 <= nodes_searched e' /\ transposition_table e' = ∅.
Proof.
  intros e e'.
  apply (request_counts_nodes_and_empties_cache (lib := PyChess) 9 1 BLACK true e
           (fst (get_best_move (lib := PyChess) 9 1 BLACK true e)) e').
  unfold e'. now destruct (get_best_move (lib := PyChess) 9 1 BLACK true e).
Defined.

(* ===================================================================== *)
(** ** The history table as a sum *)
(* ===================================================================== *)

Lemma run_cutoffs_history key :
  forall events e,
    history_value (run_cutoffs events e) key = history_value e key + cutoff_bonus key events.
Proof.
  induction events as [|[m d] events IH]; intros e; simpl.
  - lia.
  - fold (run_cutoffs events (record_cutoff m d e)). rewrite IH.
    destruct (bool_decide ((from_square m, to_square m) = key)) eqn:E.
    + apply bool_decide_eq_true in E. subst key.
      rewrite record_cutoff_history_same. lia.
    + apply bool_decide_eq_false in E.
      rewrite record_cutoff_history_other by congruence. lia.
Qed.

Lemma cutoff_bonus_perm key events events' :
  Permutation events events' -> cutoff_bonus key events = cutoff_bonus key events'.
Proof.
  induction 1 as [| x l l' _ IH | x y l | l1 l2 l3 _ IH1 _ IH2]; simpl.
  - reflexivity.
  - now rewrite IH.
  - repeat destruct (bool_decide _); lia.
  - congruence.
Qed.

(** X7. After any run of cutoffs, the history entry of a (from, to) pair is
    what it was plus the sum of [depth * depth] over the cutoffs by moves
    with that pair; the order in which the cutoffs happened does not
    matter, and two moves that differ only in the promotion piece share
    one entry. *)
Theorem history_is_sum_of_squares (e : Engine) (events events' : list (Move * Z))
    (key : Square * Square) :
  history_value (run_cutoffs events e) key = history_value e key + cutoff_bonus key events
  /\ (Permutation events events' ->
      history_value (run_cutoffs events' e) key = history_value (run_cutoffs events e) key)
  /\ forall frm to q q' d,
       history_value (record_cutoff (mkMove frm to q) d e) (frm, to)
       = history_value (record_cutoff (mkMove frm to q') d e) (frm, to).
Proof.
  split; [apply run_cutoffs_history | split].
  - intros Hp. rewrite !run_cutoffs_history. now rewrite (cutoff_bonus_perm _ _ _ Hp).
  - intros frm to q q' d.
    rewrite (record_cutoff_history_same (mkMove frm to q)).
    now rewrite (record_cutoff_history_same (mkMove frm to q')).
Qed.

(* ===================================================================== *)
(** ** The static evaluation seen from the other side *)
(* ===================================================================== *)

Lemma fold_left_Zsum {A} (F : Z -> A -> Z) (g : A -> Z) :
  (forall s x, F s x = s + g x) ->
  forall l a, fold_left F l a = a + Zsum (map g l).
Proof.
  intros HF. induction l as [|x l IH]; intros a; simpl; [lia |].
  rewrite IH, HF. lia.
Qed.

Lemma Zsum_app l1 l2 : Zsum (l1 ++ l2) = Zsum l1 + Zsum l2.
Proof. induction l1; simpl; lia. Qed.

Lemma Zsum_rev l : Zsum (rev l) = Zsum l.
Proof. induction l; simpl; [reflexivity |]. rewrite Zsum_app. simpl. lia. Qed.

Lemma Zsum_map_ext_in {A} (f g : A -> Z) l :
  (forall x, In x l -> f x = g x) -> Zsum (map f l) = Zsum (map g l).
Proof. intros H. f_equal. now apply map_ext_in. Qed.

Lemma Zsum_map_opp {A} (f : A -> Z) l : Zsum (map (fun x => - f x) l) = - Zsum (map f l).
Proof. induction l; simpl; lia. Qed.

Lemma turned_SQUARES : map (fun i : Square => (63 - i)%nat : Square) SQUARES = rev SQUARES.
Proof. reflexivity. Qed.

Lemma In_SQUARES i : In i SQUARES <-> (i < 64)%nat.
Proof. unfold SQUARES. rewrite in_seq. lia. Qed.

(** Sums, counts and searches over all squares can be read backwards. *)
Lemma Zsum_turned (g : Square -> Z) :
  Zsum (map (fun i : Square => g (63 - i)%nat) SQUARES) = Zsum (map g SQUARES).
Proof.
  rewrite <- (map_map (fun i : Square => (63 - i)%nat : Square) g), turned_SQUARES, map_rev.
  apply Zsum_rev.
Qed.

Lemma filter_map_length {A B} (h : B -> bool) (r : A -> B) l :
  length (List.filter (fun x => h (r x)) l) = length (List.filter h (map r l)).
Proof. induction l as [|x l IH]; simpl; [reflexivity |]. destruct (h (r x)); simpl; lia. Qed.

Lemma filter_rev_length {A} (h : A -> bool) l :
  length (List.filter h (rev l)) = length (List.filter h l).
Proof.
  induction l as [|x l IH]; simpl; [reflexivity |].
  rewrite List.filter_app, length_app, IH. simpl. destruct (h x); simpl; lia.
Qed.

Lemma count_turned (h : Square -> bool) :
  length (List.filter (fun i : Square => h (63 - i)%nat) SQUARES) = length (List.filter h SQUARES).
Proof.
  rewrite (filter_map_length h (fun i : Square => (63 - i)%nat : Square)), turned_SQUARES.
  apply filter_rev_length.
Qed.

Lemma existsb_of_map {A B} (h : B -> bool) (r : A -> B) l :
  existsb h (map r l) = existsb (fun x => h (r x)) l.
Proof. induction l as [|x l IH]; simpl; [reflexivity | now rewrite IH]. Qed.

Lemma existsb_of_rev {A} (h : A -> bool) l : existsb h (rev l) = existsb h l.
Proof.
  induction l as [|x l IH]; simpl; [reflexivity |].
  rewrite existsb_app, IH. simpl. destruct (h x), (existsb h l); reflexivity.
Qed.

Lemma existsb_turned (h : Square -> bool) :
  existsb (fun i : Square => h (63 - i)%nat) SQUARES = existsb h SQUARES.
Proof.
  rewrite <- (existsb_of_map h (fun i : Square => (63 - i)%nat : Square)), turned_SQUARES.
  apply existsb_of_rev.
Qed.

Lemma existsb_ext_on {A} (f g : A -> bool) l :
  (forall x, In x l -> f x = g x) -> existsb f l = existsb g l.
Proof.
  induction l as [|x l IH]; intros H; simpl; [reflexivity |].
  rewrite H by now left. rewrite IH; [reflexivity |]. intros y Hy. apply H. now right.
Qed.

Lemma piece_at_reversed p i :
  (i < 64)%nat -> piece_at (reversed p) i = option_map swap_color (piece_at p (63 - i)%nat).
Proof.
  intros Hi. unfold piece_at at 1, reversed. cbn [pieces].
  rewrite (nth_indep _ None (option_map swap_color (piece_at p (63 - 0)%nat)))
    by (rewrite length_map; unfold SQUARES; rewrite length_seq; lia).
  rewrite (map_nth (fun i : nat => option_map swap_color (piece_at p (63 - i)%nat)) SQUARES 0%nat i).
  unfold SQUARES. rewrite seq_nth by lia. reflexivity.
Qed.

Lemma has_piece_reversed p pt c i :
  (i < 64)%nat -> has_piece (reversed p) pt c i = has_piece p pt (opposite c) (63 - i)%nat.
Proof.
  intros Hi. unfold has_piece. rewrite piece_at_reversed by assumption.
  destruct (piece_at p (63 - i)%nat) as [[t k]|]; cbn [option_map]; [| reflexivity].
  destruct t, k, pt, c; reflexivity.
Qed.

Lemma count_pieces_reversed p pt c :
  count_pieces (reversed p) pt c = count_pieces p pt (opposite c).
Proof.
  unfold count_pieces. apply (f_equal Z.of_nat).
  rewrite <- (count_turned (has_piece p pt (opposite c))).
  apply (f_equal (@length _)). apply List.filter_ext_in. intros i Hi. apply has_piece_reversed.
  now apply In_SQUARES.
Qed.

Lemma flip_table_nth table i :
  (i < 64)%nat -> nth i (_flip_table table) 0 = nth (63 - i)%nat table 0.
Proof.
  intros Hi. unfold _flip_table.
  rewrite (nth_indep _ 0 (nth (63 - 0)%nat table 0)) by (rewrite length_map, length_seq; lia).
  rewrite (map_nth (fun i : nat => nth (63 - i)%nat table 0) (seq 0 64) 0%nat i).
  rewrite seq_nth by lia. reflexivity.
Qed.

Lemma flip_table_length table : length (_flip_table table) = 64%nat.
Proof. unfold _flip_table. now rewrite length_map, length_seq. Qed.

Lemma square_value_swap pc i eg :
  (i < 64)%nat ->
  _get_piece_square_value (swap_color pc) i eg = _get_piece_square_value pc (63 - i)%nat eg.
Proof.
  intros Hi. unfold _get_piece_square_value, swap_color.
  destruct pc as [t [|]]; cbn [piece_type color opposite].
  - apply flip_table_nth; assumption.
  - rewrite flip_table_nth by lia. f_equal. lia.
Qed.

Lemma evaluate_position_sum p eg :
  _evaluate_position p eg
  = Zsum (map (fun sq => match piece_at p sq with
                         | Some piece => _get_piece_square_value piece sq eg
                         | None => 0
                         end) SQUARES).
Proof.
  unfold _evaluate_position.
  rewrite (fold_left_Zsum _ (fun sq => match piece_at p sq with
                         | Some piece => _get_piece_square_value piece sq eg
                         | None => 0
                         end)); [lia |].
  intros s x. destruct (piece_at p x); lia.
Qed.

Lemma evaluate_position_reversed p eg :
  _evaluate_position (reversed p) eg = _evaluate_position p eg.
Proof.
  rewrite !evaluate_position_sum.
  rewrite <- (Zsum_turned (fun sq => match piece_at p sq with
                         | Some piece => _get_piece_square_value piece sq eg
                         | None => 0
                         end)).
  apply Zsum_map_ext_in. intros i Hi. apply In_SQUARES in Hi.
  rewrite piece_at_reversed by assumption.
  destruct (piece_at p (63 - i)%nat); cbn [option_map]; [| reflexivity].
  now apply square_value_swap.
Qed.

Lemma evaluate_material_reversed p :
  _evaluate_material (reversed p) = - _evaluate_material p.
Proof.
  unfold _evaluate_material. cbn [fold_left].
  rewrite !count_pieces_reversed. cbn [opposite]. lia.
Qed.

Lemma is_endgame_reversed p : _is_endgame (reversed p) = _is_endgame p.
Proof.
  unfold _is_endgame. rewrite !count_pieces_reversed. cbn [opposite].
  generalize (count_pieces p QUEEN BLACK) (count_pieces p QUEEN WHITE)
             (count_pieces p ROOK BLACK) (count_pieces p ROOK WHITE).
  intros qb qw rb rw. now rewrite (Z.add_comm qb), (Z.add_comm rb).
Qed.

Lemma square_file_turned i :
  (i < 64)%nat -> square_file (63 - i)%nat = (7 - square_file i)%nat.
Proof.
  intros Hi. unfold square_file.
  assert (H : forallb (fun i => ((63 - i) mod 8 =? 7 - i mod 8)%nat) (seq 0 64) = true)
    by reflexivity.
  rewrite forallb_forall in H. apply Nat.eqb_eq, H, in_seq. lia.
Qed.

Lemma square_file_lt i : (square_file i < 8)%nat.
Proof. unfold square_file. apply Nat.mod_upper_bound. lia. Qed.

Lemma pawns_on_file_reversed p c f :
  (f < 8)%nat -> pawns_on_file (reversed p) c f = pawns_on_file p (opposite c) (7 - f)%nat.
Proof.
  intros Hf. unfold pawns_on_file. apply (f_equal Z.of_nat).
  rewrite <- (count_turned (fun sq => (square_file sq =? 7 - f)%nat
                                      && has_piece p PAWN (opposite c) sq)).
  apply (f_equal (@length _)). apply List.filter_ext_in. intros i Hi. apply In_SQUARES in Hi.
  rewrite has_piece_reversed, square_file_turned by assumption. f_equal.
  pose proof (square_file_lt i).
  destruct (Nat.eqb_spec (square_file i) f), (Nat.eqb_spec (7 - square_file i) (7 - f))%nat;
    try reflexivity; lia.
Qed.

Lemma pawn_on_file_reversed p c a :
  existsb (fun sq => (Z.of_nat (square_file sq) =? a) && has_piece (reversed p) PAWN c sq) SQUARES
  = existsb (fun sq => (Z.of_nat (square_file sq) =? 7 - a)
                       && has_piece p PAWN (opposite c) sq) SQUARES.
Proof.
  rewrite <- (existsb_turned (fun sq => (Z.of_nat (square_file sq) =? 7 - a)
                       && has_piece p PAWN (opposite c) sq)).
  apply existsb_ext_on. intros i Hi. apply In_SQUARES in Hi.
  rewrite has_piece_reversed, square_file_turned by assumption. f_equal.
  pose proof (square_file_lt i).
  destruct (Z.eqb_spec (Z.of_nat (square_file i)) a),
           (Z.eqb_spec (Z.of_nat (7 - square_file i)) (7 - a)); try reflexivity; lia.
Qed.

Lemma is_isolated_reversed p c f :
  (f < 8)%nat -> is_isolated (reversed p) c f = is_isolated p (opposite c) (7 - f)%nat.
Proof.
  intros Hf. unfold is_isolated. f_equal. cbn [existsb].
  rewrite !pawn_on_file_reversed, !orb_false_r.
  replace (7 - (Z.of_nat f - 1)) with (Z.of_nat (7 - f) + 1) by lia.
  replace (7 - (Z.of_nat f + 1)) with (Z.of_nat (7 - f) - 1) by lia.
  rewrite orb_comm. f_equal; f_equal.
  - destruct (Z.leb_spec 0 (Z.of_nat f + 1)), (Z.ltb_spec (Z.of_nat f + 1) 8),
      (Z.leb_spec 0 (Z.of_nat (7 - f) - 1)), (Z.ltb_spec (Z.of_nat (7 - f) - 1) 8);
      try reflexivity; lia.
  - destruct (Z.leb_spec 0 (Z.of_nat f - 1)), (Z.ltb_spec (Z.of_nat f - 1) 8),
      (Z.leb_spec 0 (Z.of_nat (7 - f) + 1)), (Z.ltb_spec (Z.of_nat (7 - f) + 1) 8);
      try reflexivity; lia.
Qed.

Lemma evaluate_pawn_structure_sum p :
  _evaluate_pawn_structure p
  = Zsum (map (doubled_term p) (seq 0 8)) + Zsum (map (isolated_term p) SQUARES).
Proof.
  unfold _evaluate_pawn_structure.
  rewrite (fold_left_Zsum _ (isolated_term p)).
  - f_equal. rewrite (fold_left_Zsum _ (doubled_term p)); [lia |].
    intros s f. unfold doubled_term.
    destruct (1 <? pawns_on_file p WHITE f), (1 <? pawns_on_file p BLACK f); lia.
  - intros s x. unfold isolated_term.
    destruct (piece_at p x) as [[t k]|]; cbn [piece_type color]; [| lia].
    destruct t; try lia.
    destruct (is_isolated p k (square_file x)), k; lia.
Qed.

Lemma files_turned : map (fun f => (7 - f)%nat) (seq 0 8) = rev (seq 0 8).
Proof. reflexivity. Qed.

Lemma evaluate_pawn_structure_reversed p :
  _evaluate_pawn_structure (reversed p) = - _evaluate_pawn_structure p.
Proof.
  rewrite !evaluate_pawn_structure_sum.
  assert (Hd : Zsum (map (doubled_term (reversed p)) (seq 0 8))
               = - Zsum (map (doubled_term p) (seq 0 8))).
  { rewrite <- (Zsum_rev (map (doubled_term p) (seq 0 8))), <- map_rev, <- files_turned.
    rewrite map_map, <- Zsum_map_opp.
    apply Zsum_map_ext_in. intros f Hf. apply in_seq in Hf.
    unfold doubled_term. rewrite !pawns_on_file_reversed by lia. cbn [opposite].
    destruct (1 <? pawns_on_file p BLACK (7 - f)), (1 <? pawns_on_file p WHITE (7 - f)); lia. }
  assert (Hi : Zsum (map (isolated_term (reversed p)) SQUARES)
               = - Zsum (map (isolated_term p) SQUARES)).
  { rewrite <- (Zsum_turned (isolated_term p)), <- Zsum_map_opp.
    apply Zsum_map_ext_in. intros i Hi. apply In_SQUARES in Hi.
    unfold isolated_term. rewrite piece_at_reversed by assumption.
    destruct (piece_at p (63 - i)%nat) as [[t k]|];
      cbn [option_map swap_color piece_type color]; [| reflexivity].
    destruct t; try reflexivity.
    rewrite is_isolated_reversed by apply square_file_lt.
    rewrite square_file_turned by assumption.
    replace (7 - (7 - square_file i))%nat with (square_file i)
      by (pose proof (square_file_lt i); lia).
    destruct k; cbn [opposite];
      match goal with |- context [is_isolated p ?c ?f] => destruct (is_isolated p c f) end;
      lia. }
  lia.
Qed.



(** X8. Exchange the colours and turn the board by 180 degrees: the
    material balance and the pawn-structure term change sign, as a score
    from White's point of view should, but the piece-square term keeps
    its value (the table values of Black's pieces are added, not
    subtracted); the endgame flag is the same. *)
Theorem evaluation_under_colour_reversal (p : Position) (is_endgame : bool) :
  _evaluate_material (reversed p) = - _evaluate_material p
  /\ _evaluate_pawn_structure (reversed p) = - _evaluate_pawn_structure p
  /\ _evaluate_position (reversed p) is_endgame = _evaluate_position p is_endgame
  /\ _is_endgame (reversed p) = _is_endgame p.
Proof.
  split; [apply evaluate_material_reversed |].
  split; [apply evaluate_pawn_structure_reversed |].
  split; [apply evaluate_position_reversed | apply is_endgame_reversed].
Qed.

(** X9. Flipping a 64-entry table twice gives the table back, and a Black
    piece on square [s] gets the value a White piece of the same type gets
    on square [63 - s]. *)
Theorem black_reads_tables_backwards (table : list Z) (pt : PieceType)
    (square : Square) (is_endgame : bool) :
  length table = 64%nat -> (square < 64)%nat ->
  _flip_table (_flip_table table) = table
  /\ _get_piece_square_value (mkPiece pt BLACK) square is_endgame
     = _get_piece_square_value (mkPiece pt WHITE) (63 - square)%nat is_endgame.
Proof.
  intros Hlen Hsq. split.
  - apply (nth_ext _ _ 0 0).
    + now rewrite flip_table_length.
    + intros i Hi. rewrite flip_table_length in Hi.
      rewrite !flip_table_nth by lia. f_equal. lia.
  - unfold _get_piece_square_value. cbn [piece_type color].
    now apply flip_table_nth.
Qed.

Lemma black_reads_tables_backwards_witness :
  _flip_table (_flip_table QUEEN_TABLE) = QUEEN_TABLE
  /\ _get_piece_square_value (mkPiece QUEEN BLACK) 24%nat false
     = _get_piece_square_value (mkPiece QUEEN WHITE) (63 - 24)%nat false.
Proof.
  apply (black_reads_tables_backwards QUEEN_TABLE QUEEN 24%nat false); [reflexivity | lia].
Defined.

Lemma pawn_structure_pieces p q :
  pieces p = pieces q -> _evaluate_pawn_structure p = _evaluate_pawn_structure q.
Proof.
  intros H.
  unfold _evaluate_pawn_structure, is_isolated, pawns_on_file, has_piece, piece_at.
  now rewrite H.
Qed.

(** X10. With Black to move the mobility term is zero: both counts are
    taken with Black to move.  The evaluation of such a position that is
    not terminal is then material, piece-square, pawn-structure and
    king-safety terms only, the last taken with White to move. *)
Theorem black_to_move_has_no_mobility `{lib : ChessLib} (b : Board) :
  turn (pos b) = BLACK ->
  fst (_evaluate_mobility b) = 0
  /\ (is_checkmate (pos b) = false ->
      is_stalemate (pos b) || is_insufficient_material (pos b) = false ->
      fst (static_eval.evaluate_board b)
      = _evaluate_material (pos b) + _evaluate_position (pos b) (_is_endgame (pos b))
        + _evaluate_pawn_structure (pos b)
        + _evaluate_king_safety (set_turn (pos b) WHITE)).
Proof.
  intros Hturn.
  assert (Hm : fst (_evaluate_mobility b) = 0).
  { unfold _evaluate_mobility, assign_turn. cbn [fst pos].
    rewrite <- Hturn, set_turn_same. lia. }
  split; [exact Hm |].
  intros Hmate Hdraw. unfold static_eval.evaluate_board.
  rewrite Hmate, Hdraw.
  destruct (_evaluate_mobility b) as [mob b1] eqn:E.
  assert (Hb1 : pos b1 = set_turn (pos b) WHITE).
  { unfold _evaluate_mobility in E. injection E as _ <-. reflexivity. }
  cbn [fst] in *. subst mob. rewrite Hb1.
  rewrite (pawn_structure_pieces (set_turn (pos b) WHITE) (pos b)) by reflexivity.
  lia.
Qed.

Lemma black_to_move_has_no_mobility_witness :
  let b := Fen.board "k7/8/8/8/8/7P/8/7K b - - 0 1" in
  fst (_evaluate_mobility (lib := PyChess) b) = 0
  /\ fst (static_eval.evaluate_board (lib := PyChess) b)
     = _evaluate_material (pos b) + _evaluate_position (pos b) (_is_endgame (pos b))
       + _evaluate_pawn_structure (pos b)
       + _evaluate_king_safety (lib := PyChess) (set_turn (pos b) WHITE).
Proof.
  intros b.
  destruct (black_to_move_has_no_mobility (lib := PyChess) b) as [H1 H2];
    [vm_compute; reflexivity |].
  split; [exact H1 | apply H2; vm_compute; reflexivity].
Defined.


(* ===================================================================== *)
(** ** The viewer: from pixels to squares and back *)
(* ===================================================================== *)

Lemma viewer_square_file sq : Viewer.square_file sq = sq mod 8.
Proof. unfold Viewer.square_file. change 7 with (Z.ones 3). now rewrite Z.land_ones. Qed.

Lemma viewer_square_rank sq : Viewer.square_rank sq = sq / 8.
Proof. unfold Viewer.square_rank. now rewrite Z.shiftr_div_pow2. Qed.

(** X11. A click inside the window is rejected exactly when it falls on
    the status bar; otherwise it selects a square of the board, the one
    whose tile is drawn under the pointer, and with the board flipped the
    same click selects the square opposite ([63 - sq]). *)
Theorem click_selects_the_square_drawn_there (mx my : Z) (flipped : bool) :
  0 <= mx < fst Viewer.WINDOW_SIZE -> 0 <= my < snd Viewer.WINDOW_SIZE ->
  match Viewer.square_at (mx, my) flipped with
  | None => Viewer.BOARD_SIZE <= my
  | Some sq =>
      0 <= sq < 64
      /\ Viewer.on_tile (Viewer.sq_to_xy sq flipped) (mx, my)
      /\ Viewer.square_at (mx, my) (negb flipped) = Some (63 - sq)
  end.
Proof.
  unfold Viewer.WINDOW_SIZE, Viewer.BOARD_SIZE, Viewer.STATUS_BAR_H, Viewer.TILE_SIZE.
  cbn [fst snd]. intros Hx Hy.
  unfold Viewer.square_at, Viewer.BOARD_SIZE, Viewer.TILE_SIZE.
  destruct (Z.geb_spec my (80 * 8)) as [Hge | Hlt]; [lia |].
  unfold Viewer.on_tile, Viewer.sq_to_xy, Viewer.square, Viewer.TILE_SIZE.
  rewrite viewer_square_file, viewer_square_rank.
  destruct (Z.geb_spec my (80 * 8)) as [Hge' | _]; [lia |].
  destruct flipped; cbn [negb fst snd].
  all: split; [| split; [| f_equal]].
  all: Z.to_euclidean_division_equations; lia.
Qed.

Lemma click_selects_the_square_drawn_there_witness :
  match Viewer.square_at (330, 500) false with
  | None => Viewer.BOARD_SIZE <= 500
  | Some sq =>
      0 <= sq < 64
      /\ Viewer.on_tile (Viewer.sq_to_xy sq false) (330, 500)
      /\ Viewer.square_at (330, 500) (negb false) = Some (63 - sq)
  end.
Proof.
  apply (click_selects_the_square_drawn_there 330 500 false); vm_compute; split; congruence.
Defined.

(** X12. Round trip: every point of the tile drawn for a square selects
    that square, flipped or not. *)
Theorem drawn_tile_selects_its_square (sq : Z) (flipped : bool) (mouse_pos : Z * Z) :
  0 <= sq < 64 ->
  Viewer.on_tile (Viewer.sq_to_xy sq flipped) mouse_pos ->
  Viewer.square_at mouse_pos flipped = Some sq.
Proof.
  destruct mouse_pos as [mx my].
  unfold Viewer.on_tile, Viewer.sq_to_xy, Viewer.square_at, Viewer.square,
    Viewer.BOARD_SIZE, Viewer.TILE_SIZE.
  rewrite viewer_square_file, viewer_square_rank. cbn [fst snd].
  intros Hsq [Hx Hy].
  destruct (Z.geb_spec my (80 * 8)) as [Hge | Hlt].
  - exfalso. destruct flipped; Z.to_euclidean_division_equations; lia.
  - f_equal. destruct flipped; Z.to_euclidean_division_equations; lia.
Qed.

Lemma drawn_tile_selects_its_square_witness :
  Viewer.square_at (255, 150) true = Some 12.
Proof.
  apply (drawn_tile_selects_its_square 12 true (255, 150)).
  - lia.
  - vm_compute. repeat split; congruence.
Defined.

(* ===================================================================== *)
(** ** The root search at depth 1 *)
(* ===================================================================== *)

Section DepthOne.
Context `{lib : ChessLib}.

Lemma clamp_open z : clamp NegInf PosInf (Fin z) = Fin z.
Proof. reflexivity. Qed.

Lemma minimax_leaf limit is_max alpha beta e v :
  score_ltb alpha beta = true -> capture_search limit (board e) = Some v ->
  exists e', minimax (S limit) 0 is_max alpha beta e = (Ret (clamp alpha beta v), e')
             /\ same_but_turn (board e) (board e').
Proof.
  intros Hab Hv.
  destruct (quiescence_sound limit alpha beta (snd (count_node e)) v Hab Hv) as [e' H].
  exists e'. assert (Hm : minimax (S limit) 0 is_max alpha beta e
                          = (Ret (clamp alpha beta v), e')) by exact H.
  split; [exact Hm |]. exact (minimax_balanced _ _ _ _ _ _ _ _ Hm).
Qed.

Lemma full_minimax_leaf limit is_max e z :
  capture_search limit (board e) = Some (Fin z) ->
  exists e', full_minimax (S limit) 0 is_max e = (Ret (Fin z), e')
             /\ same_but_turn (board e) (board e').
Proof.
  intros Hv.
  destruct (quiescence_sound limit NegInf PosInf (snd (count_node e)) _ eq_refl Hv)
    as [e' H].
  exists e'. split; [exact H |].
  exact (quiescence_balanced _ _ _ _ _ _ H).
Qed.

Lemma root_max_exact limit b :
  forall moves alpha best e1 e2,
    board e1 = b -> board e2 = b -> score_ltb alpha PosInf = true ->
    (forall m, In m moves -> exists z, capture_search limit (push b m) = Some (Fin z)) ->
    exists r e1' e2',
      root_max (minimax (S limit) 0 false) moves alpha PosInf best e1 = (Ret r, e1')
      /\ full_root (full_minimax (S limit) 0 false) true moves alpha best e2 = (Ret r, e2').
Proof.
  induction moves as [|m rest IH]; intros alpha best e1 e2 Hb1 Hb2 Ha Hall;
    cbn [root_max full_root].
  - unfold ret. eauto.
  - destruct (Hall m (or_introl eq_refl)) as [z Hz].
    assert (Hrest : forall m', In m' rest ->
                     exists z, capture_search limit (push b m') = Some (Fin z))
      by (intros; apply Hall; now right).
    destruct (minimax_leaf limit false alpha PosInf
                (set_board e1 (push (board e1) m)) (Fin z) Ha) as (e1a & H1 & S1).
    { simpl. now rewrite Hb1. }
    destruct (full_minimax_leaf limit false (set_board e2 (push (board e2) m)) z)
      as (e2a & H2 & S2).
    { simpl. now rewrite Hb2. }
    unfold bind at 1. unfold board_push at 1. unfold bind at 1. rewrite H1.
    unfold bind at 1. unfold board_pop at 1.
    unfold bind at 1. unfold board_push at 1. unfold bind at 1. rewrite H2.
    unfold bind at 1. unfold board_pop at 1.
    simpl in S1, S2. apply pop_after_push in S1, S2.
    assert (Hc : clamp alpha PosInf (Fin z) = score_max alpha (Fin z))
      by (destruct alpha; reflexivity).
    rewrite Hc.
    assert (Hlt : score_ltb alpha (score_max alpha (Fin z)) = score_ltb alpha (Fin z)).
    { unfold score_max. destruct (score_ltb alpha (Fin z)) eqn:E; [exact E |].
      apply score_ltb_irrefl. }
    rewrite Hlt. destruct (score_ltb alpha (Fin z)) eqn:E.
    + unfold score_max. rewrite E.
      apply IH; [simpl; congruence | simpl; congruence | reflexivity | exact Hrest].
    + apply IH; [simpl; congruence | simpl; congruence | exact Ha | exact Hrest].
Qed.

Lemma root_min_exact limit b :
  forall moves beta best e1 e2,
    board e1 = b -> board e2 = b -> score_ltb NegInf beta = true ->
    (forall m, In m moves -> exists z, capture_search limit (push b m) = Some (Fin z)) ->
    exists r e1' e2',
      root_min (minimax (S limit) 0 true) moves NegInf beta best e1 = (Ret r, e1')
      /\ full_root (full_minimax (S limit) 0 true) false moves beta best e2 = (Ret r, e2').
Proof.
  induction moves as [|m rest IH]; intros beta best e1 e2 Hb1 Hb2 Ha Hall;
    cbn [root_min full_root].
  - unfold ret. eauto.
  - destruct (Hall m (or_introl eq_refl)) as [z Hz].
    assert (Hrest : forall m', In m' rest ->
                     exists z, capture_search limit (push b m') = Some (Fin z))
      by (intros; apply Hall; now right).
    destruct (minimax_leaf limit true NegInf beta
                (set_board e1 (push (board e1) m)) (Fin z) Ha) as (e1a & H1 & S1).
    { simpl. now rewrite Hb1. }
    destruct (full_minimax_leaf limit true (set_board e2 (push (board e2) m)) z)
      as (e2a & H2 & S2).
    { simpl. now rewrite Hb2. }
    unfold bind at 1. unfold board_push at 1. unfold bind at 1. rewrite H1.
    unfold bind at 1. unfold board_pop at 1.
    unfold bind at 1. unfold board_push at 1. unfold bind at 1. rewrite H2.
    unfold bind at 1. unfold board_pop at 1.
    simpl in S1, S2. apply pop_after_push in S1, S2.
    unfold clamp. destruct (score_leb beta (Fin z)) eqn:E.
    + rewrite score_ltb_irrefl.
      assert (E' : score_ltb (Fin z) beta = false).
      { unfold score_leb in E. now apply negb_true_iff in E. }
      rewrite E'.
      apply IH; [simpl; congruence | simpl; congruence | exact Ha | exact Hrest].
    + assert (E' : score_ltb (Fin z) beta = true) by now apply score_leb_false_ltb.
      change (score_max NegInf (Fin z)) with (Fin z). rewrite E'.
      apply IH; [simpl; congruence | simpl; congruence | reflexivity | exact Hrest].
Qed.

End DepthOne.

(** X13. The cutoffs of [_quiescence] are sound.  On a valid position,
    with a recursion budget above the number of pieces, the capture search
    without window or cutoffs has a value [v], and [_quiescence] called
    with any window [alpha < beta] returns [v] cut to the window: [beta]
    when [beta <= v], else the larger of [alpha] and [v]. *)
Theorem quiescence_cutoffs_are_sound `{lib : ChessLib} (valid : Position -> Prop)
    {law : Lawful lib valid} (limit : nat) (e : Engine) :
  valid (pos (board e)) ->
  (piece_count (pos (board e)) < limit)%nat ->
  exists v,
    capture_search limit (board e) = Some v
    /\ forall alpha beta,
         score_lt alpha beta ->
         exists e', _quiescence limit alpha beta e = (Ret (clamp alpha beta v), e').
Proof.
  intros Hv Hl. destruct limit as [|n]; [lia |].
  destruct (capture_search_total valid n (board e)) as [z Hz].
  { split; [exact Hv | lia]. }
  exists (Fin z). split; [exact Hz |].
  intros alpha beta Hab. now apply quiescence_sound.
Qed.

Lemma quiescence_cutoffs_are_sound_witness :
  exists v,
    capture_search (lib := PyChess) 40 (Fen.board "k7/8/8/3q4/4P3/8/8/K7 w - - 0 1") = Some v
    /\ forall alpha beta,
         score_lt alpha beta ->
         exists e', _quiescence (lib := PyChess) 40 alpha beta
                      (new_engine (Fen.board "k7/8/8/3q4/4P3/8/8/K7 w - - 0 1"))
                    = (Ret (clamp alpha beta v), e').
Proof.
  apply (quiescence_cutoffs_are_sound (lib := PyChess) _ (law := PyChessFacts.pychess_lawful)
           40 (new_engine (Fen.board "k7/8/8/3q4/4P3/8/8/K7 w - - 0 1"))).
  - vm_compute. reflexivity.
  - vm_compute. lia.
Defined.

(** X14. At depth 1 the pruned root search is exact: on a valid position,
    with a recursion budget of two more than the number of pieces,
    [_search_move]'s root loop and the full-width search both return, with
    the same score and the same move. *)
Theorem depth_one_search_is_exact `{lib : ChessLib} (valid : Position -> Prop)
    {law : Lawful lib valid} (limit : nat) (player_color : Color) (e : Engine) :
  valid (pos (board e)) ->
  (piece_count (pos (board e)) + 2 <= limit)%nat ->
  exists r e1 e2,
    search_root limit 1 player_color e = (Ret r, e1)
    /\ full_search_root limit 1 player_color e = (Ret r, e2).
Proof.
  intros Hv Hl. destruct limit as [|[|n]]; try lia.
  assert (Hs : small valid n (board e)) by (split; [exact Hv | lia]).
  assert (Hall : forall is_max m,
             In m (_order_moves e (legal_moves (pos (board e))) is_max) ->
             exists z, capture_search (S n) (push (board e) m) = Some (Fin z)).
  { intros is_max m Hin. apply (capture_search_total valid).
    apply (small_push valid); [exact Hs |].
    unfold _order_moves in Hin. now apply sorted_desc_In in Hin. }
  unfold search_root, full_search_root. change (1 - 1) with 0.
  destruct player_color.
  - apply (root_min_exact (S n) (board e)); [reflexivity .. | apply Hall].
  - apply (root_max_exact (S n) (board e)); [reflexivity .. | apply Hall].
Qed.

Lemma depth_one_search_is_exact_witness :
  exists r e1 e2,
    search_root (lib := PyChess) 5 1 BLACK
      (new_engine (Fen.board "k7/8/8/8/8/7P/8/7K b - - 0 1")) = (Ret r, e1)
    /\ full_search_root (lib := PyChess) 5 1 BLACK
         (new_engine (Fen.board "k7/8/8/8/8/7P/8/7K b - - 0 1")) = (Ret r, e2).
Proof.
  apply (depth_one_search_is_exact (lib := PyChess) _ (law := PyChessFacts.pychess_lawful)
           5 BLACK (new_engine (Fen.board "k7/8/8/8/8/7P/8/7K b - - 0 1"))).
  - vm_compute. reflexivity.
  - vm_compute. lia.
Defined.

(* ===================================================================== *)
(** ** The viewer: what a click can do *)
(* ===================================================================== *)

(** X15. Whatever the rules library and the answer to the promotion
    prompt, a click either leaves the board and the last move as they were,
    or plays exactly one move: from the selected square to the clicked one,
    accepted by [is_legal], recorded as the last move, with the selection
    cleared.  That move carries a promotion only if it is the prompt's
    answer for a pawn whose move without promotion [is_legal] accepts as
    well. *)
Theorem click_plays_only_legal_moves `{lib : ChessLib}
    (is_legal : Position -> Move -> bool) (prompt : option PieceType)
    (mouse_pos : Z * Z) (flipped : bool) (b : Board) (s : Selection) :
  let r := on_click is_legal prompt mouse_pos flipped b s in
  (fst r = b /\ last_move (snd r) = last_move s)
  \/ exists z sel m,
       Viewer.square_at mouse_pos flipped = Some z
       /\ selected_sq s = Some sel
       /\ from_square m = sel /\ to_square m = Z.to_nat z
       /\ is_legal (pos b) m = true
       /\ r = (push b m, mkSelection None [] (Some m))
       /\ (promotion m = None
           \/ (promotion m = prompt
               /\ is_legal (pos b) (mkMove sel (Z.to_nat z) None) = true
               /\ pawn_at (pos b) sel = true)).
Proof.
  cbv zeta. unfold on_click.
  destruct (Viewer.square_at mouse_pos flipped) as [z|]; [| now left].
  destruct (selected_sq s) as [sel|].
  2:{ left. destruct (own_piece (pos b) (Z.to_nat z)); split; reflexivity. }
  set (bare := mkMove sel (Z.to_nat z) None).
  assert (Hask : forall m, m = ask_promotion is_legal prompt (pos b) bare ->
             from_square m = sel /\ to_square m = Z.to_nat z
             /\ (promotion m = None
                 \/ promotion m = prompt /\ is_legal (pos b) bare = true)).
  { intros m ->. unfold ask_promotion.
    destruct (is_legal (pos b) bare) eqn:E; [| simpl; auto].
    destruct prompt as [pt|]; simpl; auto. }
  match goal with
  | |- context [is_legal (pos b) ?mv] => set (move := mv)
  end.
  assert (Hmove : from_square move = sel /\ to_square move = Z.to_nat z
                  /\ (promotion move = None
                      \/ promotion move = prompt /\ is_legal (pos b) bare = true
                         /\ pawn_at (pos b) sel = true)).
  { subst move.
    destruct ((square_rank sel =? 6)%nat && (square_rank (Z.to_nat z) =? 7)%nat
              && pawn_at (pos b) sel && color_eqb (turn (pos b)) WHITE) eqn:E1.
    - destruct (Hask _ eq_refl) as (H1 & H2 & [H3 | [H3 H4]]); auto.
      repeat split; auto. right. repeat split; auto.
      apply andb_true_iff in E1 as [E1 _]. now apply andb_true_iff in E1 as [_ E1].
    - destruct ((square_rank sel =? 1)%nat && (square_rank (Z.to_nat z) =? 0)%nat
                && pawn_at (pos b) sel && color_eqb (turn (pos b)) BLACK) eqn:E2.
      + destruct (Hask _ eq_refl) as (H1 & H2 & [H3 | [H3 H4]]); auto.
        repeat split; auto. right. repeat split; auto.
        apply andb_true_iff in E2 as [E2 _]. now apply andb_true_iff in E2 as [_ E2].
      + simpl. auto. }
  clearbody move.
  destruct (is_legal (pos b) move) eqn:Hl.
  - right. exists z, sel, move. destruct Hmove as (H1 & H2 & H3). repeat split; auto.
  - left. destruct (own_piece (pos b) (Z.to_nat z)); split; reflexivity.
Qed.

(** X16. A click keeps the display consistent with the board: afterwards
    a selected square, if there is one, holds a piece of the side to move
    and the highlighted targets are exactly the targets of the legal moves
    from it. *)
Theorem click_keeps_selection_consistent `{lib : ChessLib}
    (is_legal : Position -> Move -> bool) (prompt : option PieceType)
    (mouse_pos : Z * Z) (flipped : bool) (b : Board) (s : Selection) :
  selection_ok b s ->
  selection_ok (fst (on_click is_legal prompt mouse_pos flipped b s))
               (snd (on_click is_legal prompt mouse_pos flipped b s)).
Proof.
  intros Hok. unfold on_click.
  destruct (Viewer.square_at mouse_pos flipped) as [z|]; [| exact Hok].
  destruct (selected_sq s) as [sel|] eqn:Hsel.
  - match goal with
    | |- context [is_legal (pos b) ?mv] => generalize mv
    end.
    intros move. destruct (is_legal (pos b) move); [exact I |].
    destruct (own_piece (pos b) (Z.to_nat z)) eqn:Ho; [| exact I].
    unfold selection_ok. simpl. auto.
  - destruct (own_piece (pos b) (Z.to_nat z)) eqn:Ho; [| exact Hok].
    unfold selection_ok. simpl. auto.
Qed.

Lemma click_keeps_selection_consistent_witness :
  let is_legal := fun p m => bool_decide (m ∈ legal_moves (ChessLib := PyChess) p) in
  let b := Fen.board "rnbqkbnr/pppppppp/8/8/8/8/PPPPPPPP/RNBQKBNR w KQkq - 0 1" in
  let s := mkSelection (Some 12%nat) [20%nat; 28%nat] None in
  selection_ok (lib := PyChess)
    (fst (on_click (lib := PyChess) is_legal None (330, 330) false b s))
    (snd (on_click (lib := PyChess) is_legal None (330, 330) false b s))
  /\ on_click (lib := PyChess) is_legal None (330, 330) false b s
     = (push (lib := PyChess) b (mkMove 12%nat 28%nat None),
        mkSelection None [] (Some (mkMove 12%nat 28%nat None))).
Proof.
  intros is_legal b s. split.
  - apply (click_keeps_selection_consistent (lib := PyChess) is_legal None
             (330, 330) false b s).
    split; vm_compute; reflexivity.
  - vm_compute. reflexivity.
Defined.

(* ===================================================================== *)
(** ** What the search does not read *)
(* ===================================================================== *)

Section Blind.
Context `{lib : ChessLib}.

Lemma blind_ret {A} (a : A) : blind (ret a).
Proof. intros e1 e2 H. split; [reflexivity | exact H]. Qed.

Lemma blind_raise {A} : blind (@raise A).
Proof. intros e1 e2 H. split; [reflexivity | exact H]. Qed.

Lemma blind_bind {A B} (m : M A) (k : A -> M B) :
  blind m -> (forall a, blind (k a)) -> blind (bind m k).
Proof.
  intros Hm Hk e1 e2 H. unfold bind.
  destruct (Hm e1 e2 H) as [Ho Hs].
  destruct (m e1) as [[a1|] e1'], (m e2) as [[a2|] e2']; simpl in Ho, Hs;
    try discriminate.
  - injection Ho as <-. now apply Hk.
  - split; [reflexivity | exact Hs].
Qed.

Lemma blind_count_node : blind count_node.
Proof. intros e1 e2 (Hb & Hk & Hh). repeat split; assumption. Qed.

Lemma blind_board_push move : blind (board_push move).
Proof.
  intros e1 e2 (Hb & Hk & Hh). unfold board_push, same_inputs. simpl.
  rewrite Hb. repeat split; assumption.
Qed.

Lemma blind_board_pop : blind board_pop.
Proof.
  intros e1 e2 (Hb & Hk & Hh). unfold board_pop, same_inputs. simpl.
  rewrite Hb. repeat split; assumption.
Qed.

Lemma blind_evaluate_board c : blind (evaluate_board c).
Proof.
  intros e1 e2 (Hb & Hk & Hh). unfold evaluate_board. rewrite Hb.
  destruct (static_eval.evaluate_board (board e2)) as [s b].
  unfold same_inputs. simpl. repeat split; assumption.
Qed.

Lemma blind_clear_transposition_table : blind clear_transposition_table.
Proof. intros e1 e2 (Hb & Hk & Hh). repeat split; assumption. Qed.

Lemma blind_record_cutoff {A} (a : A) move depth :
  blind (fun e => (Ret a, _update_history move depth (_update_killer move e))).
Proof.
  intros e1 e2 (Hb & Hk & Hh). split; [reflexivity |].
  unfold _update_history, _update_killer. rewrite Hk.
  destruct (move_in move (killer_moves e2)); unfold same_inputs; simpl;
    rewrite Hh; repeat split; assumption.
Qed.

Lemma move_score_same e1 e2 move :
  same_inputs e1 e2 -> move_score e1 move = move_score e2 move.
Proof. intros (Hb & Hk & Hh). unfold move_score. now rewrite Hb, Hk, Hh. Qed.

Lemma order_moves_same e1 e2 moves is_max :
  same_inputs e1 e2 -> _order_moves e1 moves is_max = _order_moves e2 moves is_max.
Proof.
  intros H. unfold _order_moves, sorted_desc. do 2 f_equal.
  apply map_ext. intros m. now rewrite (move_score_same e1 e2 m H).
Qed.

Lemma blind_quiescence_loop rec :
  (forall a b, blind (rec a b)) ->
  forall moves alpha beta, blind (quiescence_loop rec moves alpha beta).
Proof.
  intros Hrec. induction moves as [|move rest IH]; intros alpha beta.
  - apply blind_ret.
  - intros e1 e2 H. pose proof H as (Hb & _ & _). cbn [quiescence_loop]. rewrite Hb.
    destruct (negb (is_capture (pos (board e2)) move)); [now apply IH |].
    match goal with |- context [if ?c then _ else _] => destruct c end; [now apply IH |].
    clear Hb. revert e1 e2 H.
    apply blind_bind; [apply blind_board_push | intros _].
    apply blind_bind; [apply Hrec | intros r].
    apply blind_bind; [apply blind_board_pop | intros _].
    destruct (score_leb beta (score_max alpha (score_neg r)));
      [apply blind_ret | apply IH].
Qed.

Lemma blind_quiescence limit : forall alpha beta, blind (_quiescence limit alpha beta).
Proof.
  induction limit as [|limit IH]; intros alpha beta; cbn [_quiescence];
    [apply blind_raise |].
  apply blind_bind; [apply blind_count_node | intros _].
  apply blind_bind; [apply blind_evaluate_board | intros sp].
  destruct (score_leb beta (Fin sp)); [apply blind_ret |].
  intros e1 e2 H. pose proof H as (Hb & _ & _). rewrite Hb.
  now apply blind_quiescence_loop.
Qed.

Lemma blind_search_child rec first lo hi alpha beta :
  (forall a b, blind (rec a b)) -> blind (search_child rec first lo hi alpha beta).
Proof.
  intros Hrec. unfold search_child. destruct first; [apply Hrec |].
  apply blind_bind; [apply Hrec | intros p].
  destruct (score_ltb alpha p && score_ltb p beta); [apply Hrec | apply blind_ret].
Qed.

Lemma blind_max_loop rec depth :
  (forall a b, blind (rec a b)) ->
  forall moves first alpha beta max_eval,
    blind (max_loop rec depth moves first alpha beta max_eval).
Proof.
  intros Hrec. induction moves as [|move rest IH]; intros first alpha beta max_eval;
    cbn [max_loop].
  - apply blind_ret.
  - apply blind_bind; [apply blind_board_push | intros _].
    apply blind_bind; [now apply blind_search_child | intros ev].
    apply blind_bind; [apply blind_board_pop | intros _].
    destruct (score_leb beta (score_max alpha ev)); [apply blind_record_cutoff | apply IH].
Qed.

Lemma blind_min_loop rec depth :
  (forall a b, blind (rec a b)) ->
  forall moves first alpha beta min_eval,
    blind (min_loop rec depth moves first alpha beta min_eval).
Proof.
  intros Hrec. induction moves as [|move rest IH]; intros first alpha beta min_eval;
    cbn [min_loop].
  - apply blind_ret.
  - apply blind_bind; [apply blind_board_push | intros _].
    apply blind_bind; [now apply blind_search_child | intros ev].
    apply blind_bind; [apply blind_board_pop | intros _].
    destruct (score_leb (score_min beta ev) alpha); [apply blind_record_cutoff | apply IH].
Qed.

Lemma blind_minimax limit :
  forall depth is_max alpha beta, blind (minimax limit depth is_max alpha beta).
Proof.
  induction limit as [|limit IH]; intros depth is_max alpha beta; cbn [minimax];
    [apply blind_raise |].
  apply blind_bind; [apply blind_count_node | intros _].
  destruct (depth =? 0); [apply blind_quiescence |].
  intros e1 e2 H. pose proof H as (Hb & _ & _).
  rewrite (order_moves_same e1 e2 _ _ H), Hb.
  destruct (is_checkmate (pos (board e2))); [split; [reflexivity | exact H] |].
  destruct (is_stalemate (pos (board e2)) || is_insufficient_material (pos (board e2)));
    [split; [reflexivity | exact H] |].
  destruct (_order_moves e2 (legal_moves (pos (board e2))) is_max) as [|m0 ms].
  - clear Hb. revert e1 e2 H.
    apply blind_bind; [apply blind_evaluate_board | intros; apply blind_ret].
  - clear Hb. revert e1 e2 H.
    destruct is_max; [apply blind_max_loop | apply blind_min_loop]; intros; apply IH.
Qed.

Lemma blind_root_max search :
  (forall a b, blind (search a b)) ->
  forall moves alpha beta best, blind (root_max search moves alpha beta best).
Proof.
  intros Hs. induction moves as [|move rest IH]; intros alpha beta best; cbn [root_max].
  - apply blind_ret.
  - apply blind_bind; [apply blind_board_push | intros _].
    apply blind_bind; [apply Hs | intros sc].
    apply blind_bind; [apply blind_board_pop | intros _].
    destruct (score_ltb alpha sc); apply IH.
Qed.

Lemma blind_root_min search :
  (forall a b, blind (search a b)) ->
  forall moves alpha beta best, blind (root_min search moves alpha beta best).
Proof.
  intros Hs. induction moves as [|move rest IH]; intros alpha beta best; cbn [root_min].
  - apply blind_ret.
  - apply blind_bind; [apply blind_board_push | intros _].
    apply blind_bind; [apply Hs | intros sc].
    apply blind_bind; [apply blind_board_pop | intros _].
    destruct (score_ltb sc beta); apply IH.
Qed.

Lemma blind_search_move limit depth c : blind (_search_move limit depth c).
Proof.
  unfold _search_move. apply blind_bind.
  - intros e1 e2 H. pose proof H as (Hb & _ & _). unfold search_root. destruct c.
    + rewrite (order_moves_same e1 e2 _ _ H), Hb.
      generalize (_order_moves e2 (legal_moves (pos (board e2))) false).
      intros moves. clear Hb. revert e1 e2 H.
      apply blind_root_min. intros; apply blind_minimax.
    + rewrite (order_moves_same e1 e2 _ _ H), Hb.
      generalize (_order_moves e2 (legal_moves (pos (board e2))) true).
      intros moves. clear Hb. revert e1 e2 H.
      apply blind_root_max. intros; apply blind_minimax.
  - intros r e1 e2 H. pose proof H as (Hb & _ & _). cbn [fst snd].
    rewrite Hb. split; [reflexivity | exact H].
Qed.

Lemma blind_deepen limit c depths : forall best, blind (deepen limit c depths best).
Proof.
  induction depths as [|d rest IH]; intros best; cbn [deepen]; [apply blind_ret |].
  intros e1 e2 H.
  destruct (blind_search_move limit d c e1 e2 H) as [Ho Hs].
  destruct (_search_move limit d c e1) as [[m1|] e1'],
           (_search_move limit d c e2) as [[m2|] e2']; simpl in Ho, Hs;
    try discriminate.
  - injection Ho as <-. now apply IH.
  - split; [reflexivity | exact Hs].
Qed.

Lemma blind_get_best_move limit depth c id : blind (get_best_move limit depth c id).
Proof.
  unfold get_best_move.
  apply blind_bind; [apply blind_clear_transposition_table | intros _].
  destruct id; [apply blind_deepen | apply blind_search_move].
Qed.

End Blind.

(** X17. The node counter and the transposition table have no influence
    on the search: two engines that agree on the board, the killer moves
    and the history table get the same answer to the same request (the
    same move, or both raise), and agree on the three again afterwards. *)
Theorem search_ignores_counter_and_cache `{lib : ChessLib} (limit : nat) (depth : Z)
    (player_color : Color) (iterative_deepening : bool) (e1 e2 : Engine) :
  same_inputs e1 e2 ->
  fst (get_best_move limit depth player_color iterative_deepening e1)
  = fst (get_best_move limit depth player_color iterative_deepening e2)
  /\ same_inputs (snd (get_best_move limit depth player_color iterative_deepening e1))
                 (snd (get_best_move limit depth player_color iterative_deepening e2)).
Proof. intros H. now apply blind_get_best_move. Qed.

Lemma search_ignores_counter_and_cache_witness :
  let b := Fen.board "k7/8/8/8/8/7P/8/7K b - - 0 1" in
  let e1 := new_engine b in
  let e2 := mkEngine b {[ "key"%string := 5 ]} 1000 [None; None] ∅ in
  fst (get_best_move (lib := PyChess) 9 2 BLACK true e1)
  = fst (get_best_move (lib := PyChess) 9 2 BLACK true e2)
  /\ same_inputs (snd (get_best_move (lib := PyChess) 9 2 BLACK true e1))
                 (snd (get_best_move (lib := PyChess) 9 2 BLACK true e2)).
Proof.
  intros b e1 e2.
  apply (search_ignores_counter_and_cache (lib := PyChess) 9 2 BLACK true e1 e2).
  split; [reflexivity | split; reflexivity].
Defined.

(* ===================================================================== *)
(** ** Which way round the tables are read *)
(* ===================================================================== *)

Lemma pawn_values_checked :
  forallb (fun sq =>
    forallb (fun c =>
      let v := _get_piece_square_value (mkPiece PAWN c) sq false in
      if (square_rank sq =? home_rank c)%nat then v =? 50 else v <=? 30)
      [WHITE; BLACK]) SQUARES = true.
Proof. vm_compute. reflexivity. Qed.

(** X18. The pawn table is read with square a1 first: a pawn scores 50 on
    the rank it starts from (the second, seen from its own side) and at
    most 30 on any other square, for either colour and in either phase. *)
Theorem pawn_table_favours_home_rank (c : Color) (square : Square) (is_endgame : bool) :
  (square < 64)%nat ->
  (square_rank square = home_rank c ->
   _get_piece_square_value (mkPiece PAWN c) square is_endgame = 50)
  /\ (square_rank square <> home_rank c ->
      _get_piece_square_value (mkPiece PAWN c) square is_endgame <= 30).
Proof.
  intros Hsq. pose proof pawn_values_checked as H.
  rewrite forallb_forall in H. specialize (H square).
  assert (Hin : In square SQUARES) by (unfold SQUARES; apply in_seq; lia).
  specialize (H Hin). rewrite forallb_forall in H.
  assert (Hc : In c [WHITE; BLACK]) by (destruct c; simpl; auto).
  specialize (H c Hc). cbv zeta in H.
  change (_get_piece_square_value (mkPiece PAWN c) square is_endgame)
    with (_get_piece_square_value (mkPiece PAWN c) square false).
  destruct (Nat.eqb_spec (square_rank square) (home_rank c)) as [E | E].
  - split; [intros _; now apply Z.eqb_eq | intros N; contradiction].
  - split; [intros N; contradiction | intros _; now apply Z.leb_le].
Qed.

Lemma pawn_table_favours_home_rank_witness :
  _get_piece_square_value (mkPiece PAWN WHITE) 12%nat false = 50
  /\ _get_piece_square_value (mkPiece PAWN BLACK) 12%nat false <= 30.
Proof.
  split.
  - apply (pawn_table_favours_home_rank WHITE 12%nat false); [lia | reflexivity].
  - apply (pawn_table_favours_home_rank BLACK 12%nat false); [lia |].
    vm_compute. congruence.
Defined.
